(** * Intel HEX streaming record decoder (tools/hex-crypt/ihex_parser.c)

    A shallow embedding of the byte-at-a-time Intel HEX decoder: its
    file-scope variables become one record, one iteration of the loop of
    [ihex_parser] becomes [ihex_step], and the registered consumer is a
    function over an abstract world [W] whose invocations are logged.

    Unsigned C integers are integers of [Z] with the wrap-around written
    out where the C code assigns to a narrower type. The debug output
    that ihex_parser.c compiles in under CONFIG_IHEX_DEBUG_OUTPUT only
    prints and is left out. *)

From Stdlib Require Import ZArith Lia Bool Strings.Byte String.
From stdpp Require Import base numbers list.

Open Scope Z_scope.

(** ** Fixed-width arithmetic *)

Definition u8 (x : Z) : Z := x mod 256.
Definition u16 (x : Z) : Z := x mod 65536.
Definition u32 (x : Z) : Z := x mod 4294967296.

(** The numeric value of an input character. *)
Definition chr (b : byte) : Z := Z.of_N (Byte.to_N b).

(** The characters '\0', '\r' and '\n'. *)
Definition NUL : byte := x00.
Definition CR : byte := x0d.
Definition LF : byte := x0a.

(** ** Constants of the state machine *)

Definition START_CODE_STATE : Z := 0.
Definition BYTE_COUNT_0_STATE : Z := 1.
Definition BYTE_COUNT_1_STATE : Z := 2.
Definition ADDR_0_STATE : Z := 3.
Definition ADDR_1_STATE : Z := 4.
Definition ADDR_2_STATE : Z := 5.
Definition ADDR_3_STATE : Z := 6.
Definition RECORD_TYPE_0_STATE : Z := 7.
Definition RECORD_TYPE_1_STATE : Z := 8.
Definition DATA_STATE : Z := 9.
Definition CHECKSUM_0_STATE : Z := 10.
Definition CHECKSUM_1_STATE : Z := 11.

Definition INVALID_HEX_CHAR : Z := Eval cbv in chr "x".
Definition IHEX_DATA_SIZE : Z := 255.

(** ** HexToDec *)

Definition HexToDec (h : Z) : Z :=
  if (chr "0" <=? h) && (h <=? chr "9") then u8 (h - chr "0")
  else if (chr "A" <=? h) && (h <=? chr "F") then u8 (h - chr "A" + 10)
  else if (chr "a" <=? h) && (h <=? chr "z") then u8 (h - chr "a" + 10)
  else INVALID_HEX_CHAR.

(** ** Outcome of one loop iteration

    [ihex_parser] only reports a boolean; the [cause] names which
    [return false] statement was taken. *)

Inductive cause : Type :=
  | InvalidHexChar        (* HexToDec gave INVALID_HEX_CHAR *)
  | BadStartCode          (* START_CODE_STATE: neither CR, LF nor ':' *)
  | RecordTypeHighNibble  (* RECORD_TYPE_0_STATE: hc != 0 *)
  | RecordTypeUnsupported (* RECORD_TYPE_1_STATE: not 0..5 or 0xE *)
  | ByteCountTooLarge     (* RECORD_TYPE_1_STATE: byte_count > sizeof(data) *)
  | ByteCountMismatch     (* CHECKSUM_1_STATE: byte_count<<1 != data_size_in_nibble *)
  | ChecksumMismatch      (* CHECKSUM_1_STATE: calc_cs != 0 *)
  | CallbackRejected      (* CHECKSUM_1_STATE: the callback returned false *)
  | BadState.             (* default arm of the switch *)

Inductive flow : Type :=
  | Continue                   (* go on with the next byte *)
  | ReturnTrue                 (* return true inside the loop *)
  | ReturnFalse (why : cause). (* return false *)

Definition flow_ok (f : flow) : bool :=
  match f with ReturnFalse _ => false | _ => true end.

(** One invocation of the consumer: the address, the buffer it is handed
    and the length argument. *)
Record call : Type := Call { call_addr : Z; call_buf : list Z; call_len : Z }.

Section Decoder.

(** Whatever the consumer reads and writes outside the decoder. *)
Context {W : Type}.

(** Modelled from the spec: the type [ihex_callback_fp] is declared in
    ihex_parser.h, which is not among the sources. The handler takes the
    absolute address, the payload bytes and a length and answers success;
    its own effects are a transformation of [W]. *)
Definition ihex_callback_fp : Type := W -> Z -> list Z -> Z -> bool * W.

(** ** The file-scope variables *)

Record ihex : Type := Ihex {
  state : Z;                  (* uint8_t  *)
  byte_count : Z;             (* uint8_t  *)
  address_lo : Z;             (* uint16_t *)
  address_hi : Z;             (* uint16_t *)
  ex_segment_addr_mode : bool;
  record_type : Z;            (* uint8_t  *)
  data : list Z;              (* uint8_t [IHEX_DATA_SIZE] *)
  data_size_in_nibble : Z;    (* uint16_t *)
  temp_cs : Z;                (* uint8_t  *)
  calc_cs : Z;                (* uint8_t  *)
  calc_cs_toogle : bool;
  callback_fp : option ihex_callback_fp
}.

Definition set_state v s :=
  Ihex v (byte_count s) (address_lo s) (address_hi s) (ex_segment_addr_mode s)
       (record_type s) (data s) (data_size_in_nibble s) (temp_cs s) (calc_cs s)
       (calc_cs_toogle s) (callback_fp s).
Definition set_byte_count v s :=
  Ihex (state s) v (address_lo s) (address_hi s) (ex_segment_addr_mode s)
       (record_type s) (data s) (data_size_in_nibble s) (temp_cs s) (calc_cs s)
       (calc_cs_toogle s) (callback_fp s).
Definition set_address_lo v s :=
  Ihex (state s) (byte_count s) v (address_hi s) (ex_segment_addr_mode s)
       (record_type s) (data s) (data_size_in_nibble s) (temp_cs s) (calc_cs s)
       (calc_cs_toogle s) (callback_fp s).
Definition set_address_hi v s :=
  Ihex (state s) (byte_count s) (address_lo s) v (ex_segment_addr_mode s)
       (record_type s) (data s) (data_size_in_nibble s) (temp_cs s) (calc_cs s)
       (calc_cs_toogle s) (callback_fp s).
Definition set_ex_segment_addr_mode v s :=
  Ihex (state s) (byte_count s) (address_lo s) (address_hi s) v
       (record_type s) (data s) (data_size_in_nibble s) (temp_cs s) (calc_cs s)
       (calc_cs_toogle s) (callback_fp s).
Definition set_record_type v s :=
  Ihex (state s) (byte_count s) (address_lo s) (address_hi s) (ex_segment_addr_mode s)
       v (data s) (data_size_in_nibble s) (temp_cs s) (calc_cs s)
       (calc_cs_toogle s) (callback_fp s).
Definition set_data v s :=
  Ihex (state s) (byte_count s) (address_lo s) (address_hi s) (ex_segment_addr_mode s)
       (record_type s) v (data_size_in_nibble s) (temp_cs s) (calc_cs s)
       (calc_cs_toogle s) (callback_fp s).
Definition set_data_size_in_nibble v s :=
  Ihex (state s) (byte_count s) (address_lo s) (address_hi s) (ex_segment_addr_mode s)
       (record_type s) (data s) v (temp_cs s) (calc_cs s)
       (calc_cs_toogle s) (callback_fp s).
Definition set_temp_cs v s :=
  Ihex (state s) (byte_count s) (address_lo s) (address_hi s) (ex_segment_addr_mode s)
       (record_type s) (data s) (data_size_in_nibble s) v (calc_cs s)
       (calc_cs_toogle s) (callback_fp s).
Definition set_calc_cs v s :=
  Ihex (state s) (byte_count s) (address_lo s) (address_hi s) (ex_segment_addr_mode s)
       (record_type s) (data s) (data_size_in_nibble s) (temp_cs s) v
       (calc_cs_toogle s) (callback_fp s).
Definition set_calc_cs_toogle v s :=
  Ihex (state s) (byte_count s) (address_lo s) (address_hi s) (ex_segment_addr_mode s)
       (record_type s) (data s) (data_size_in_nibble s) (temp_cs s) (calc_cs s)
       v (callback_fp s).
Definition set_callback_fp v s :=
  Ihex (state s) (byte_count s) (address_lo s) (address_hi s) (ex_segment_addr_mode s)
       (record_type s) (data s) (data_size_in_nibble s) (temp_cs s) (calc_cs s)
       (calc_cs_toogle s) v.

(** The variables as the C runtime initialises them (all zero). *)
Definition ihex_init : ihex :=
  Ihex 0 0 0 0 false 0 (replicate (Z.to_nat IHEX_DATA_SIZE) 0) 0 0 0 false None.

(** The decoder together with its surroundings: the world of the
    consumer and the log of the consumer's invocations, oldest first. *)
Record session : Type := Session { vars : ihex; world : W; calls : list call }.

Definition set_vars (s : ihex) (x : session) : session :=
  Session s (world x) (calls x).

(** ** TRANSFORM_ADDR *)

Definition TRANSFORM_ADDR (s : ihex) (addr_hi addr_lo : Z) : Z :=
  if ex_segment_addr_mode s
  then u32 (u32 (Z.shiftl (u32 addr_hi) 4) + u32 addr_lo)
  else Z.lor (u32 (Z.shiftl (u32 addr_hi) 16)) (u32 addr_lo).

(** ** ihex_reset_state and ihex_set_callback_func *)

Definition ihex_reset_state (s : ihex) : ihex :=
  set_ex_segment_addr_mode false
    (set_address_hi 0 (set_address_lo 0 (set_state 0 s))).

Definition ihex_set_callback_func (fp : option ihex_callback_fp) (s : ihex) : ihex :=
  set_callback_fp fp s.

(** ** One iteration of the loop of ihex_parser *)

(** Reading data[i]; an index past the array is not a defined read in C and
    yields 0 here. *)
Definition data_at (d : list Z) (i : Z) : Z := default 0 (d !! Z.to_nat i).

(** The index [b_index] of the DATA_STATE arm. *)
Definition b_index (s : ihex) : Z := u8 (Z.shiftr (data_size_in_nibble s) 1).

(** The if / else-if chain in front of the switch, on a state inside
    BYTE_COUNT_0_STATE .. CHECKSUM_1_STATE and a decoded nibble [hc]. *)
Definition accumulate (hc : Z) (s : ihex) : ihex :=
  set_calc_cs_toogle (negb (calc_cs_toogle s))
    (if calc_cs_toogle s
     then set_calc_cs (u8 (calc_cs s + Z.lor (Z.shiftl (temp_cs s) 4) hc)) s
     else set_temp_cs hc s).

(** The CHECKSUM_1_STATE arm: first the two address-setting record
    types, *)
Definition extended_address (s : ihex) : ihex :=
  if record_type s =? 2 then
    set_ex_segment_addr_mode true
      (set_address_hi
         (u16 (Z.lor (Z.shiftl (u16 (data_at (data s) 0)) 8) (data_at (data s) 1))) s)
  else if record_type s =? 4 then
    set_ex_segment_addr_mode false
      (set_address_hi
         (u16 (Z.lor (Z.shiftl (u16 (data_at (data s) 0)) 8) (data_at (data s) 1))) s)
  else s.

(** then the whole arm. *)
Definition checksum_1 (s : ihex) (x : session) : flow * session :=
  if negb (Z.shiftl (byte_count s) 1 =? data_size_in_nibble s)
  then (ReturnFalse ByteCountMismatch, set_vars s x)
  else if negb (calc_cs s =? 0)
  then (ReturnFalse ChecksumMismatch, set_vars s x)
  else
    let s1 := extended_address s in
    match (if record_type s1 =? 0 then callback_fp s1 else None) with
    | Some fp =>
        let address := TRANSFORM_ADDR s1 (address_hi s1) (address_lo s1) in
        let len := Z.shiftr (data_size_in_nibble s1) 1 in
        let (ok, w) := fp (world x) address (data s1) len in
        let log := calls x ++ [Call address (data s1) len] in
        if negb ok
        then (ReturnFalse CallbackRejected, Session s1 w log)
        else (Continue, Session (set_state START_CODE_STATE s1) w log)
    | None => (Continue, set_vars (set_state START_CODE_STATE s1) x)
    end.

(** The switch on [state]; [s] is the state after the chain in front of
    it, [c] the input byte and [hc] its nibble value (read only by the arms
    of the hexadecimal states). *)
Definition dispatch (s : ihex) (x : session) (c hc : Z) : flow * session :=
  match state s with
  | 0 =>
      if (c =? chr CR) || (c =? chr LF) then (Continue, set_vars s x)
      else if c =? chr ":" then
        (Continue,
         set_vars
           (set_state (u8 (state s + 1))
             (set_data_size_in_nibble 0
               (set_data (replicate (Z.to_nat IHEX_DATA_SIZE) 0)
                 (set_address_lo 0 (set_record_type 0 (set_byte_count 0 s)))))) x)
      else (ReturnFalse BadStartCode, set_vars s x)
  | 1 | 2 =>
      (Continue,
       set_vars
         (set_state (u8 (state s + 1))
           (set_byte_count (u8 (Z.lor (Z.shiftl (byte_count s) 4) hc)) s)) x)
  | 3 | 4 | 5 | 6 =>
      (Continue,
       set_vars
         (set_state (u8 (state s + 1))
           (set_address_lo (u16 (Z.lor (Z.shiftl (address_lo s) 4) hc)) s)) x)
  | 7 =>
      if negb (hc =? 0) then (ReturnFalse RecordTypeHighNibble, set_vars s x)
      else (Continue, set_vars (set_state (u8 (state s + 1)) s) x)
  | 8 =>
      if negb ((hc <=? 5) || (hc =? 14))
      then (ReturnFalse RecordTypeUnsupported, set_vars s x)
      else
        let s1 := set_record_type hc s in
        if byte_count s1 =? 0
        then (Continue, set_vars (set_state CHECKSUM_0_STATE s1) x)
        else if byte_count s1 >? IHEX_DATA_SIZE
        then (ReturnFalse ByteCountTooLarge, set_vars s1 x)
        else (Continue, set_vars (set_state (u8 (state s1 + 1)) s1) x)
  | 9 =>
      let s1 :=
        set_data (<[Z.to_nat (b_index s) :=
                     u8 (Z.lor (Z.shiftl (data_at (data s) (b_index s)) 4) hc)]> (data s)) s in
      let s2 := set_data_size_in_nibble (u16 (data_size_in_nibble s1 + 1)) s1 in
      if Z.shiftr (data_size_in_nibble s2) 1 >=? byte_count s2
      then (Continue, set_vars (set_state (u8 (state s2 + 1)) s2) x)
      else (Continue, set_vars s2 x)
  | 10 => (Continue, set_vars (set_state (u8 (state s + 1)) s) x)
  | 11 => checksum_1 s x
  | _ => (ReturnFalse BadState, set_vars s x)
  end.

Definition ihex_step (x : session) (c : Z) : flow * session :=
  let s := vars x in
  if c =? 0 then (ReturnTrue, x)
  else
    let hc := HexToDec c in
    if state s =? START_CODE_STATE then
      dispatch (set_calc_cs_toogle false (set_calc_cs 0 s)) x c hc
    else if (BYTE_COUNT_0_STATE <=? state s) && (state s <=? CHECKSUM_1_STATE) then
      if hc =? INVALID_HEX_CHAR then (ReturnFalse InvalidHexChar, x)
      else dispatch (accumulate hc s) x c hc
    else dispatch s x c hc.

(** ** ihex_parser *)

(** The loop over the bytes still to be read. *)
Fixpoint ihex_loop (x : session) (buf : list byte) : flow * session :=
  match buf with
  | [] => (Continue, x)
  | b :: rest =>
      match ihex_step x (chr b) with
      | (Continue, x') => ihex_loop x' rest
      | stop => stop
      end
  end.

(** [ihex_parser steambuf size]: the first [size] bytes of the buffer are
    fed; the boolean is the value returned, the session is what the call
    leaves behind. A [size] beyond the buffer, which makes the C code read
    past it, feeds the bytes there are. *)
Definition ihex_parser (x : session) (steambuf : list byte) (size : nat)
  : bool * session :=
  let (f, x') := ihex_loop x (take size steambuf) in (flow_ok f, x').

End Decoder.

Arguments ihex : clear implicits.
Arguments session : clear implicits.
Arguments ihex_callback_fp : clear implicits.

(** ** Input characters *)

(** The nibble value [HexToDec] gives an input character. *)
Definition hexval (b : byte) : Z := HexToDec (chr b).

(** The characters [HexToDec] does not answer INVALID_HEX_CHAR for. *)
Definition hex_accepted (b : byte) : bool := negb (hexval b =? INVALID_HEX_CHAR).

(** The states in which the loop decodes the input byte with [HexToDec]. *)
Definition hex_state (s : Z) : bool :=
  (BYTE_COUNT_0_STATE <=? s) && (s <=? CHECKSUM_1_STATE).

(** ** Records as they are transmitted

    A record on the wire is a colon followed by pairs of hexadecimal
    characters: byte count, two address bytes, record type, the payload
    and the checksum. *)

Definition hexpair : Type := byte * byte.

(** The hexadecimal digits proper: 0-9, A-F and a-f. *)
Definition hex_digit (b : byte) : bool := hexval b <? 16.

Definition hex_pair (p : hexpair) : bool := hex_digit p.1 && hex_digit p.2.

(** The byte a pair of hexadecimal digits stands for. *)
Definition pair_val (p : hexpair) : Z := 16 * hexval p.1 + hexval p.2.

Definition pair_chars (l : list hexpair) : list byte :=
  flat_map (fun p => [p.1; p.2]) l.

Record hexrecord : Type := HexRecord {
  rec_count : hexpair;
  rec_addr_hi : hexpair;
  rec_addr_lo : hexpair;
  rec_type : hexpair;
  rec_payload : list hexpair;
  rec_check : hexpair
}.

Definition rec_header (r : hexrecord) : list hexpair :=
  [rec_count r; rec_addr_hi r; rec_addr_lo r; rec_type r].

Definition rec_pairs (r : hexrecord) : list hexpair :=
  rec_header r ++ rec_payload r ++ [rec_check r].

(** The characters of the record, start code included. *)
Definition rec_chars (r : hexrecord) : list byte := ":"%byte :: pair_chars (rec_pairs r).

(** The decoded bytes of the record: count, address, type, payload and
    checksum. *)
Definition rec_bytes (r : hexrecord) : list Z := map pair_val (rec_pairs r).

Definition sum_bytes (l : list Z) : Z := foldr Z.add 0 l.

Definition rec_sum (r : hexrecord) : Z := sum_bytes (rec_bytes r).

Definition rec_address (r : hexrecord) : Z :=
  256 * pair_val (rec_addr_hi r) + pair_val (rec_addr_lo r).

Definition rec_data (r : hexrecord) : list Z := map pair_val (rec_payload r).

(** Every character is a hexadecimal digit and the payload has as many
    pairs as the count field declares. *)
Definition rec_framed (r : hexrecord) : bool :=
  forallb hex_pair (rec_pairs r)
  && (Z.of_nat (length (rec_payload r)) =? pair_val (rec_count r)).

(** The record type is one the decoder lets through: 0..5 or 0xE. *)
Definition rec_type_ok (r : hexrecord) : bool :=
  (hexval (rec_type r).1 =? 0)
  && ((hexval (rec_type r).2 <=? 5) || (hexval (rec_type r).2 =? 14)).

(** The payload buffer after a record has been read: the payload bytes,
    then the zeros the start code left. *)
Definition data_of (payload : list Z) : list Z :=
  payload ++ replicate (Z.to_nat IHEX_DATA_SIZE - length payload) 0.


(** Any character but the terminating null. *)
Definition not_nul (b : byte) : bool := negb (chr b =? 0).

(** Line terminators. *)
Definition line_end (b : byte) : bool := (chr b =? chr CR) || (chr b =? chr LF).

(** A consumer that accepts every block, a decoder as the C runtime
    starts it, the same with that consumer registered, and input given
    as text. *)
Definition accept_all : ihex_callback_fp unit := fun _ _ _ _ => (true, tt).

Definition fresh : session unit := Session ihex_init tt [].

Definition listening : session unit :=
  Session (ihex_set_callback_func (Some accept_all) ihex_init) tt [].

Definition text (s : string) : list byte := list_byte_of_string s.

(** [between lo hi b]: character [b] lies in the range [lo]..[hi]. *)
Definition between (lo hi b : byte) : bool :=
  (chr lo <=? chr b) && (chr b <=? chr hi).

(** The pair of the characters [a] and [b]. *)
Definition hx (a b : byte) : hexpair := (a, b).

(** :020000041000EA, an extended linear address record with payload 10 00. *)
Definition rec_linear_1000 : hexrecord :=
  HexRecord (hx "0" "2") (hx "0" "0") (hx "0" "0") (hx "0" "4")
            [(hx "1" "0"); (hx "0" "0")] (hx "E" "A").

(** :020000021000EC, an extended segment address record with payload 10 00. *)
Definition rec_segment_1000 : hexrecord :=
  HexRecord (hx "0" "2") (hx "0" "0") (hx "0" "0") (hx "0" "2")
            [(hx "1" "0"); (hx "0" "0")] (hx "E" "C").

(** :01002000558A, a data record of one byte at address field 0020. *)
Definition rec_data_0020 : hexrecord :=
  HexRecord (hx "0" "1") (hx "0" "0") (hx "2" "0") (hx "0" "0") [(hx "5" "5")] (hx "8" "A").

(** :0400100011223344, byte count 04 with three payload pairs. *)
Definition rec_short : hexrecord :=
  HexRecord (hx "0" "4") (hx "0" "0") (hx "1" "0") (hx "0" "0")
            [(hx "1" "1"); (hx "2" "2"); (hx "3" "3")] (hx "4" "4").

(** A decoder that has read a start code, and one that has read all of
    :020000041000EA but its last character. *)
Definition after_start_code : session unit := (ihex_loop fresh (text ":")).2.

Definition before_last_digit : session unit :=
  (ihex_loop fresh (text ":020000041000E")).2.

(** A decoder in DATA_STATE: it has read :02000004. *)
Definition in_data_state : session unit := (ihex_loop fresh (text ":02000004")).2.

(** A linear address record followed by a data record, each with its line
    end. *)
Definition two_records : list byte :=
  rec_chars rec_linear_1000 ++ [CR; LF] ++ rec_chars rec_data_0020 ++ [CR; LF].

(** ** Further vocabulary *)

(** Two pairs of characters with the same nibble values, as the upper
    and the lower case spelling of a byte have. *)
Definition same_val (p q : hexpair) : Prop :=
  hexval p.1 = hexval q.1 /\ hexval p.2 = hexval q.2.

(** Two records that agree nibble by nibble. *)
Definition same_digits (r r' : hexrecord) : Prop :=
  same_val (rec_count r) (rec_count r')
  /\ same_val (rec_addr_hi r) (rec_addr_hi r')
  /\ same_val (rec_addr_lo r) (rec_addr_lo r')
  /\ same_val (rec_type r) (rec_type r')
  /\ Forall2 same_val (rec_payload r) (rec_payload r')
  /\ same_val (rec_check r) (rec_check r').

(** The values of a uint8_t. *)
Definition byte_range (v : Z) : Prop := 0 <= v < 256.

(** What the consumer can rely on in one invocation: a 32-bit address,
    the whole payload buffer with every byte in range, and a length that
    fits one byte. *)
Definition good_call (c : call) : Prop :=
  0 <= call_addr c < 4294967296
  /\ length (call_buf c) = Z.to_nat IHEX_DATA_SIZE
  /\ Forall byte_range (call_buf c)
  /\ 0 <= call_len c <= 255.

(** :01002000558a, the data record above with a lower-case checksum. *)
Definition rec_data_0020_lower : hexrecord :=
  HexRecord (hx "0" "1") (hx "0" "0") (hx "2" "0") (hx "0" "0") [(hx "5" "5")] (hx "8" "a").

(** :0100200055FF, the data record above with a wrong checksum, and
    :01002009558A, the same with record type 09. *)
Definition rec_bad_sum : hexrecord :=
  HexRecord (hx "0" "1") (hx "0" "0") (hx "2" "0") (hx "0" "0") [(hx "5" "5")] (hx "F" "F").

Definition rec_bad_type : hexrecord :=
  HexRecord (hx "0" "1") (hx "0" "0") (hx "2" "0") (hx "0" "9") [(hx "5" "5")] (hx "8" "A").

(** :00000001FF, the end-of-file record, and :00000004FC, an extended
    linear address record without payload. *)
Definition rec_eof : hexrecord :=
  HexRecord (hx "0" "0") (hx "0" "0") (hx "0" "0") (hx "0" "1") [] (hx "F" "F").

Definition rec_linear_empty : hexrecord :=
  HexRecord (hx "0" "0") (hx "0" "0") (hx "0" "0") (hx "0" "4") [] (hx "F" "C").

(** A consumer that refuses every block, and a decoder with it. *)
Definition refuse_all : ihex_callback_fp unit := fun _ _ _ _ => (false, tt).

Definition refusing : session unit :=
  Session (ihex_set_callback_func (Some refuse_all) ihex_init) tt [].

(** A consumer that counts the blocks it is given and accepts the first
    two only, and a decoder that listens to it. *)
Definition accept_two : ihex_callback_fp nat := fun w _ _ _ => (Nat.ltb w 2, S w).

Definition counting : session nat :=
  Session (ihex_set_callback_func (Some accept_two) ihex_init) 0%nat [].

(** Two data records, each with its line end. *)
Definition two_data_records : list byte :=
  rec_chars rec_data_0020 ++ [CR; LF] ++ rec_chars rec_data_0020 ++ [CR; LF].

(** A decoder with a consumer that has read all of :01002000558A but its
    last character. *)
Definition before_delivery : session unit :=
  (ihex_loop listening (text ":01002000558")).2.

Section Vocabulary.

Context {W : Type}.

(** ** Reachable sessions

    The variables start as the C runtime zeroes them and change only
    through the three entry points; a call of [ihex_parser] is a run of
    loop iterations. *)
Inductive reachable : session W -> Prop :=
  | reach_init w : reachable (Session ihex_init w [])
  | reach_reset x :
      reachable x -> reachable (set_vars (ihex_reset_state (vars x)) x)
  | reach_set_callback x fp :
      reachable x -> reachable (set_vars (ihex_set_callback_func fp (vars x)) x)
  | reach_step x b f x' :
      reachable x -> ihex_step x (chr b) = (f, x') -> reachable x'.

(** What every reachable valuation of the variables satisfies. *)
Definition consistent (s : ihex W) : Prop :=
  0 <= state s <= 11
  /\ 0 <= byte_count s <= 255
  /\ length (data s) = Z.to_nat IHEX_DATA_SIZE
  /\ (1 <= state s <= 8 -> data_size_in_nibble s = 0)
  /\ (state s = DATA_STATE ->
      0 <= data_size_in_nibble s
      /\ Z.shiftr (data_size_in_nibble s) 1 < byte_count s)
  /\ (10 <= state s <= 11 -> data_size_in_nibble s = 2 * byte_count s).

(** Two valuations the decoder cannot tell apart: in START_CODE_STATE
    only the sticky address and the consumer matter, and elsewhere
    [temp_cs] matters only while a high nibble is pending. *)
Definition alike (s1 s2 : ihex W) : Prop :=
  state s1 = state s2
  /\ address_hi s1 = address_hi s2
  /\ ex_segment_addr_mode s1 = ex_segment_addr_mode s2
  /\ callback_fp s1 = callback_fp s2
  /\ (state s1 <> START_CODE_STATE ->
      byte_count s1 = byte_count s2
      /\ address_lo s1 = address_lo s2
      /\ record_type s1 = record_type s2
      /\ data s1 = data s2
      /\ data_size_in_nibble s1 = data_size_in_nibble s2
      /\ calc_cs s1 = calc_cs s2
      /\ calc_cs_toogle s1 = calc_cs_toogle s2
      /\ (calc_cs_toogle s1 = true -> temp_cs s1 = temp_cs s2)).

(** A consumer whose verdict depends on its arguments only, not on the
    world it runs in. *)
Definition stateless (fp : ihex_callback_fp W) : Prop :=
  forall w w' a d n, (fp w a d n).1 = (fp w' a d n).1.

(** The variables when the last character of record [r] has been
    decoded and the CHECKSUM_1_STATE arm is about to run, for a decoder
    that was in START_CODE_STATE with variables [s] before the record. *)
Definition at_checksum (s : ihex W) (r : hexrecord) : ihex W :=
  Ihex CHECKSUM_1_STATE (pair_val (rec_count r)) (rec_address r)
       (address_hi s) (ex_segment_addr_mode s) (hexval (rec_type r).2)
       (data_of (rec_data r)) (2 * pair_val (rec_count r))
       (hexval (rec_check r).1) (u8 (rec_sum r)) false (callback_fp s).

(** Every variable within the range of its C type, the record type one
    of those the decoder lets through, and the nibble counter within the
    510 the declaration of [data_size_in_nibble] speaks of. *)
Definition ranged (s : ihex W) : Prop :=
  0 <= address_lo s < 65536
  /\ 0 <= address_hi s < 65536
  /\ (0 <= record_type s <= 5 \/ record_type s = 14)
  /\ Forall byte_range (data s)
  /\ 0 <= data_size_in_nibble s <= 510
  /\ 0 <= temp_cs s < 36
  /\ 0 <= calc_cs s < 256.

End Vocabulary.

Section Facts.

Context {W : Type}.
Implicit Types (x : session W) (s : ihex W) (b : byte) (buf : list byte).

(** *** Characters and HexToDec *)

Lemma chr_range b : 0 <= chr b < 256.
Proof.
  unfold chr. pose proof (Byte.to_N_bounded b). lia.
Qed.

Lemma chr_inj b1 b2 : chr b1 = chr b2 -> b1 = b2.
Proof.
  unfold chr. intros H.
  assert (E : Byte.to_N b1 = Byte.to_N b2) by lia.
  pose proof (Byte.of_to_N b1) as H1. pose proof (Byte.of_to_N b2) as H2.
  rewrite E in H1. congruence.
Qed.

Lemma chr_zero b : chr b = 0 -> b = NUL.
Proof. intros H. apply chr_inj. exact H. Qed.

Lemma HexToDec_eq h :
  HexToDec h =
  if (48 <=? h) && (h <=? 57) then (h - 48) mod 256
  else if (65 <=? h) && (h <=? 70) then (h - 65 + 10) mod 256
  else if (97 <=? h) && (h <=? 122) then (h - 97 + 10) mod 256
  else 120.
Proof. reflexivity. Qed.

Ltac hex_cases h :=
  rewrite (HexToDec_eq h);
  destruct (48 <=? h) eqn:?; destruct (h <=? 57) eqn:?;
  destruct (65 <=? h) eqn:?; destruct (h <=? 70) eqn:?;
  destruct (97 <=? h) eqn:?; destruct (h <=? 122) eqn:?;
  try lia; cbn [andb].

Lemma HexToDec_digit h : 48 <= h <= 57 -> HexToDec h = h - 48.
Proof. intros H. hex_cases h; apply Z.mod_small; lia. Qed.

Lemma HexToDec_upper h : 65 <= h <= 70 -> HexToDec h = h - 65 + 10.
Proof. intros H. hex_cases h; apply Z.mod_small; lia. Qed.

Lemma HexToDec_lower h : 97 <= h <= 122 -> HexToDec h = h - 97 + 10.
Proof. intros H. hex_cases h; apply Z.mod_small; lia. Qed.

Lemma HexToDec_other h :
  ~ 48 <= h <= 57 -> ~ 65 <= h <= 70 -> ~ 97 <= h <= 122 ->
  HexToDec h = INVALID_HEX_CHAR.
Proof. intros H1 H2 H3. hex_cases h; reflexivity. Qed.

(** Whatever the character, the answer is a nibble value below 36 or
    INVALID_HEX_CHAR. *)
Lemma HexToDec_range h :
  0 <= HexToDec h < 36 \/ HexToDec h = INVALID_HEX_CHAR.
Proof.
  destruct (Z_le_dec 48 h), (Z_le_dec h 57);
    [left; rewrite HexToDec_digit; lia | | |];
  (destruct (Z_le_dec 65 h), (Z_le_dec h 70);
    [left; rewrite HexToDec_upper; lia | | |]);
  (destruct (Z_le_dec 97 h), (Z_le_dec h 122);
    [left; rewrite HexToDec_lower; lia | | |]);
  right; apply HexToDec_other; lia.
Qed.

(** *** Loop iterations, state by state *)

Lemma u8_small v : 0 <= v < 256 -> u8 v = v.
Proof. apply Z.mod_small. Qed.

Lemma u16_small v : 0 <= v < 65536 -> u16 v = v.
Proof. apply Z.mod_small. Qed.

Lemma u32_small v : 0 <= v < 4294967296 -> u32 v = v.
Proof. apply Z.mod_small. Qed.

Lemma hex_accepted_nonzero b : hex_accepted b = true -> chr b <> 0.
Proof.
  unfold hex_accepted, hexval. intros H E. rewrite E in H. discriminate H.
Qed.

Lemma step_nul x : ihex_step x 0 = (ReturnTrue, x).
Proof. reflexivity. Qed.

Lemma step_hex x b :
  hex_state (state (vars x)) = true -> hex_accepted b = true ->
  ihex_step x (chr b) =
  dispatch (accumulate (hexval b) (vars x)) x (chr b) (hexval b).
Proof.
  intros Hs Hb. pose proof (hex_accepted_nonzero b Hb) as Hc.
  unfold ihex_step. destruct (Z.eqb_spec (chr b) 0) as [|_]; [contradiction|].
  unfold hex_state in Hs.
  destruct (Z.eqb_spec (state (vars x)) START_CODE_STATE) as [E|_].
  { rewrite E in Hs. discriminate Hs. }
  rewrite Hs. unfold hex_accepted, hexval in Hb. fold (hexval b).
  unfold hexval. destruct (HexToDec (chr b) =? INVALID_HEX_CHAR); [discriminate|].
  reflexivity.
Qed.

(** *** The invariant of the variables *)

Lemma accumulate_eq hc s :
  accumulate hc s =
  Ihex (state s) (byte_count s) (address_lo s) (address_hi s)
       (ex_segment_addr_mode s) (record_type s) (data s)
       (data_size_in_nibble s)
       (if calc_cs_toogle s then temp_cs s else hc)
       (if calc_cs_toogle s
        then u8 (calc_cs s + Z.lor (Z.shiftl (temp_cs s) 4) hc)
        else calc_cs s)
       (negb (calc_cs_toogle s)) (callback_fp s).
Proof. unfold accumulate. destruct (calc_cs_toogle s); reflexivity. Qed.

Lemma state_cases (st : Z) :
  0 <= st <= 11 ->
  st = 0 \/ st = 1 \/ st = 2 \/ st = 3 \/ st = 4 \/ st = 5 \/ st = 6
  \/ st = 7 \/ st = 8 \/ st = 9 \/ st = 10 \/ st = 11.
Proof. lia. Qed.

Lemma dispatch_default s x c hc :
  ~ 0 <= state s <= 11 ->
  dispatch s x c hc = (ReturnFalse BadState, set_vars s x).
Proof.
  unfold dispatch. intros H.
  destruct (state s) as [|p|p]; [lia| |reflexivity].
  do 4 (destruct p as [p|p|]; try reflexivity; try lia).
Qed.

Lemma shiftr1 n : Z.shiftr n 1 = n / 2.
Proof. rewrite Z.shiftr_div_pow2 by lia. reflexivity. Qed.

Lemma shiftl1 n : Z.shiftl n 1 = 2 * n.
Proof. rewrite Z.shiftl_mul_pow2 by lia. change (2 ^ 1) with 2. lia. Qed.

Lemma u8_range v : 0 <= u8 v <= 255.
Proof. unfold u8. pose proof (Z.mod_pos_bound v 256). lia. Qed.

Lemma u16_range v : 0 <= u16 v <= 65535.
Proof. unfold u16. pose proof (Z.mod_pos_bound v 65536). lia. Qed.

Local Arguments Z.shiftl : simpl never.
Local Arguments Z.shiftr : simpl never.
Local Arguments Z.lor : simpl never.
Local Arguments u8 : simpl never.
Local Arguments u16 : simpl never.
Local Arguments u32 : simpl never.
Local Arguments replicate : simpl never.
Local Arguments Z.to_nat : simpl never.
Local Arguments data_at : simpl never.
Local Arguments TRANSFORM_ADDR : simpl never.

(** One loop iteration, split by the branch taken. *)
Lemma step_cases x c f x' :
  ihex_step x c = (f, x') ->
  (c = 0 /\ f = ReturnTrue /\ x' = x)
  \/ (c <> 0 /\ state (vars x) = START_CODE_STATE
      /\ dispatch (set_calc_cs_toogle false (set_calc_cs 0 (vars x))) x c
           (HexToDec c) = (f, x'))
  \/ (c <> 0 /\ 1 <= state (vars x) <= 11
      /\ HexToDec c = INVALID_HEX_CHAR
      /\ f = ReturnFalse InvalidHexChar /\ x' = x)
  \/ (c <> 0 /\ 1 <= state (vars x) <= 11
      /\ HexToDec c <> INVALID_HEX_CHAR
      /\ dispatch (accumulate (HexToDec c) (vars x)) x c (HexToDec c) = (f, x'))
  \/ (c <> 0 /\ ~ 0 <= state (vars x) <= 11
      /\ f = ReturnFalse BadState /\ x' = x).
Proof.
  unfold ihex_step, START_CODE_STATE, BYTE_COUNT_0_STATE, CHECKSUM_1_STATE.
  intros H.
  destruct (Z.eqb_spec c 0) as [Hc|Hc].
  { left. injection H as <- <-. auto. }
  right. destruct (Z.eqb_spec (state (vars x)) 0) as [E|E]; [left; auto|].
  right.
  destruct (Z.leb_spec 1 (state (vars x))) as [H1|H1];
    destruct (Z.leb_spec (state (vars x)) 11) as [H2|H2]; cbn [andb] in H.
  - destruct (Z.eqb_spec (HexToDec c) INVALID_HEX_CHAR) as [Eh|Eh].
    + left. injection H as <- <-. repeat split; auto.
    + right; left. repeat split; auto.
  - right; right. rewrite dispatch_default in H by lia.
    injection H as <- <-. destruct x; repeat split; auto; lia.
  - right; right. rewrite dispatch_default in H by lia.
    injection H as <- <-. destruct x; repeat split; auto; lia.
  - right; right. rewrite dispatch_default in H by lia.
    injection H as <- <-. destruct x; repeat split; auto; lia.
Qed.

Lemma consistent_ext s s' :
  state s' = state s -> byte_count s' = byte_count s ->
  length (data s') = length (data s) ->
  data_size_in_nibble s' = data_size_in_nibble s ->
  consistent s -> consistent s'.
Proof.
  unfold consistent. intros -> -> -> ->. tauto.
Qed.

Lemma extended_address_frame s :
  state (extended_address s) = state s
  /\ byte_count (extended_address s) = byte_count s
  /\ address_lo (extended_address s) = address_lo s
  /\ record_type (extended_address s) = record_type s
  /\ data (extended_address s) = data s
  /\ data_size_in_nibble (extended_address s) = data_size_in_nibble s
  /\ temp_cs (extended_address s) = temp_cs s
  /\ calc_cs (extended_address s) = calc_cs s
  /\ calc_cs_toogle (extended_address s) = calc_cs_toogle s
  /\ callback_fp (extended_address s) = callback_fp s.
Proof.
  unfold extended_address.
  destruct (record_type s =? 2); [|destruct (record_type s =? 4)];
    repeat split; reflexivity.
Qed.

(** The CHECKSUM_1_STATE arm, split by its four exits. *)
Lemma checksum_1_cases s x f x' :
  checksum_1 s x = (f, x') ->
  (f = ReturnFalse ByteCountMismatch /\ x' = set_vars s x
   /\ Z.shiftl (byte_count s) 1 <> data_size_in_nibble s)
  \/ (f = ReturnFalse ChecksumMismatch /\ x' = set_vars s x
      /\ Z.shiftl (byte_count s) 1 = data_size_in_nibble s /\ calc_cs s <> 0)
  \/ (Z.shiftl (byte_count s) 1 = data_size_in_nibble s /\ calc_cs s = 0
      /\ (record_type s <> 0 \/ callback_fp s = None)
      /\ f = Continue
      /\ x' = set_vars (set_state START_CODE_STATE (extended_address s)) x)
  \/ (Z.shiftl (byte_count s) 1 = data_size_in_nibble s /\ calc_cs s = 0
      /\ record_type s = 0
      /\ exists fp,
          callback_fp s = Some fp
          /\ let address := TRANSFORM_ADDR s (address_hi s) (address_lo s) in
             let len := Z.shiftr (data_size_in_nibble s) 1 in
             let r := fp (world x) address (data s) len in
             let log := calls x ++ [Call address (data s) len] in
             (r.1 = false /\ f = ReturnFalse CallbackRejected
              /\ x' = Session s r.2 log)
             \/ (r.1 = true /\ f = Continue
                 /\ x' = Session (set_state START_CODE_STATE s) r.2 log)).
Proof.
  unfold checksum_1. intros H.
  destruct (Z.eqb_spec (Z.shiftl (byte_count s) 1) (data_size_in_nibble s))
    as [E1|E1]; cbn [negb] in H.
  2: { left. injection H as <- <-. auto. }
  right.
  destruct (Z.eqb_spec (calc_cs s) 0) as [E2|E2]; cbn [negb] in H.
  2: { left. injection H as <- <-. auto. }
  right.
  destruct (extended_address_frame s)
    as (_ & _ & _ & Hrt & _ & _ & _ & _ & _ & Hcb).
  rewrite Hrt, Hcb in H.
  destruct (Z.eqb_spec (record_type s) 0) as [E3|E3].
  2: { left. injection H as <- <-. auto. }
  assert (Es : extended_address s = s).
  { unfold extended_address. rewrite E3. reflexivity. }
  rewrite Es in H.
  destruct (callback_fp s) as [fp|] eqn:Ecb.
  2: { left. injection H as <- <-. rewrite Es. auto. }
  right. repeat split; auto. exists fp. split; [reflexivity|].
  cbv zeta.
  destruct (fp (world x) (TRANSFORM_ADDR s (address_hi s) (address_lo s))
              (data s) (Z.shiftr (data_size_in_nibble s) 1)) as [[|] w'];
    cbn [negb] in H; injection H as <- <-; cbn [fst snd]; auto.
Qed.

(** Case analysis of the switch: [E] names the value of [state]. *)
Ltac dispatch_arms H Hst :=
  match type of H with
  | dispatch ?s _ _ _ = _ =>
      let E := fresh "E" in
      destruct (state_cases (state s) Hst)
        as [E|[E|[E|[E|[E|[E|[E|[E|[E|[E|[E|E]]]]]]]]]]];
      unfold dispatch in H; rewrite ?E in H; cbv beta iota zeta in H
  end.

Ltac next_state :=
  change (u8 (0 + 1)) with 1 in *; change (u8 (1 + 1)) with 2 in *;
  change (u8 (2 + 1)) with 3 in *; change (u8 (3 + 1)) with 4 in *;
  change (u8 (4 + 1)) with 5 in *; change (u8 (5 + 1)) with 6 in *;
  change (u8 (6 + 1)) with 7 in *; change (u8 (7 + 1)) with 8 in *;
  change (u8 (8 + 1)) with 9 in *; change (u8 (9 + 1)) with 10 in *;
  change (u8 (10 + 1)) with 11 in *.

Lemma dispatch_consistent s x c hc f x' :
  consistent s -> dispatch s x c hc = (f, x') -> consistent (vars x').
Proof.
  intros Hs H. pose proof Hs as (Hst & Hbc & Hlen & H18 & H9 & H1011).
  dispatch_arms H Hst.
  - (* START_CODE_STATE *)
    destruct ((c =? chr CR) || (c =? chr LF)).
    { injection H as <- <-. exact Hs. }
    destruct (c =? chr ":"); injection H as <- <-; [|exact Hs].
    unfold consistent, DATA_STATE; cbn; rewrite ?E; next_state. rewrite length_replicate.
    repeat split; try lia.
  - (* BYTE_COUNT_0_STATE *)
    injection H as <- <-. unfold consistent, DATA_STATE in *; cbn; rewrite ?E; next_state.
    pose proof (u8_range (Z.lor (Z.shiftl (byte_count s) 4) hc)).
    repeat split; try lia.
  - injection H as <- <-. unfold consistent, DATA_STATE in *; cbn; rewrite ?E; next_state.
    pose proof (u8_range (Z.lor (Z.shiftl (byte_count s) 4) hc)).
    repeat split; try lia.
  - (* ADDR_0_STATE .. ADDR_3_STATE *)
    injection H as <- <-. unfold consistent, DATA_STATE in *; cbn; rewrite ?E; next_state.
    repeat split; try lia.
  - injection H as <- <-. unfold consistent, DATA_STATE in *; cbn; rewrite ?E; next_state.
    repeat split; try lia.
  - injection H as <- <-. unfold consistent, DATA_STATE in *; cbn; rewrite ?E; next_state.
    repeat split; try lia.
  - injection H as <- <-. unfold consistent, DATA_STATE in *; cbn; rewrite ?E; next_state.
    repeat split; try lia.
  - (* RECORD_TYPE_0_STATE *)
    destruct (negb (hc =? 0)); injection H as <- <-; [exact Hs|].
    unfold consistent, DATA_STATE in *; cbn; rewrite ?E; next_state. repeat split; try lia.
  - (* RECORD_TYPE_1_STATE *)
    destruct (negb ((hc <=? 5) || (hc =? 14))).
    { injection H as <- <-. exact Hs. }
    cbn in H.
    destruct (Z.eqb_spec (byte_count s) 0) as [E0|E0].
    { injection H as <- <-. unfold consistent, DATA_STATE, CHECKSUM_0_STATE in *.
      cbn. repeat split; try lia. }
    destruct (byte_count s >? IHEX_DATA_SIZE).
    { injection H as <- <-. unfold consistent, DATA_STATE in *; cbn; rewrite ?E; next_state.
      repeat split; try lia. }
    injection H as <- <-. unfold consistent, DATA_STATE in *; cbn; rewrite ?E; next_state.
    rewrite (H18 ltac:(lia)). change (Z.shiftr 0 1) with 0.
    repeat split; try lia.
  - (* DATA_STATE *)
    destruct (H9 E) as [Hn0 Hn]. rewrite shiftr1 in Hn.
    assert (Hn2 : data_size_in_nibble s < 2 * byte_count s).
    { destruct (Z_lt_ge_dec (data_size_in_nibble s) (2 * byte_count s)); [assumption|].
      exfalso. assert (byte_count s <= data_size_in_nibble s / 2)
        by (apply Z.div_le_lower_bound; lia). lia. }
    cbn in H. rewrite (u16_small (data_size_in_nibble s + 1)) in H by lia.
    rewrite shiftr1 in H.
    destruct (Z.geb_spec ((data_size_in_nibble s + 1) / 2) (byte_count s)) as [G|G];
      injection H as <- <-; unfold consistent, DATA_STATE in *; cbn;
      rewrite length_insert, ?E, ?shiftr1.
    + next_state.
      assert ((data_size_in_nibble s + 1) / 2 * 2 <= data_size_in_nibble s + 1).
      { pose proof (Z.mul_div_le (data_size_in_nibble s + 1) 2). lia. }
      repeat split; try lia.
    + repeat split; try lia.
  - (* CHECKSUM_0_STATE *)
    injection H as <- <-. unfold consistent, DATA_STATE in *; cbn; rewrite ?E; next_state.
    repeat split; try lia.
  - (* CHECKSUM_1_STATE *)
    destruct (extended_address_frame s)
      as (F1 & F2 & _ & _ & F3 & F4 & _).
    destruct (checksum_1_cases _ _ _ _ H)
      as [(_ & -> & _)|[(_ & -> & _)|[(_ & _ & _ & _ & ->)|(_ & _ & _ & fp & _ & Hfp)]]];
      try exact Hs.
    + unfold consistent, DATA_STATE, START_CODE_STATE in *. cbn.
      rewrite F2, F3, F4. repeat split; try lia.
    + cbv zeta in Hfp. destruct Hfp as [(_ & _ & ->)|(_ & _ & ->)]; [exact Hs|].
      unfold consistent, DATA_STATE, START_CODE_STATE in *. cbn.
      repeat split; try lia.
Qed.

Lemma dispatch_flow s x c hc f x' :
  consistent s -> dispatch s x c hc = (f, x') ->
  f <> ReturnFalse ByteCountTooLarge /\ f <> ReturnFalse ByteCountMismatch.
Proof.
  intros Hs H. pose proof Hs as (Hst & Hbc & Hlen & H18 & H9 & H1011).
  dispatch_arms H Hst.
  - destruct ((c =? chr CR) || (c =? chr LF)); [|destruct (c =? chr ":")];
      injection H as <- <-; split; discriminate.
  - injection H as <- <-; split; discriminate.
  - injection H as <- <-; split; discriminate.
  - injection H as <- <-; split; discriminate.
  - injection H as <- <-; split; discriminate.
  - injection H as <- <-; split; discriminate.
  - injection H as <- <-; split; discriminate.
  - destruct (negb (hc =? 0)); injection H as <- <-; split; discriminate.
  - destruct (negb ((hc <=? 5) || (hc =? 14))).
    { injection H as <- <-; split; discriminate. }
    cbn in H. destruct (byte_count s =? 0).
    { injection H as <- <-; split; discriminate. }
    destruct (Z.gtb_spec (byte_count s) IHEX_DATA_SIZE) as [G|G].
    { unfold IHEX_DATA_SIZE in G. lia. }
    injection H as <- <-; split; discriminate.
  - cbn in H.
    destruct (_ >=? _); injection H as <- <-; split; discriminate.
  - injection H as <- <-; split; discriminate.
  - destruct (checksum_1_cases _ _ _ _ H)
      as [(_ & _ & Hne)|[(-> & _)|[(_ & _ & _ & -> & _)|(_ & _ & _ & fp & _ & Hfp)]]].
    + exfalso. apply Hne. rewrite shiftl1. symmetry. apply H1011. lia.
    + split; discriminate.
    + split; discriminate.
    + cbv zeta in Hfp. destruct Hfp as [(_ & -> & _)|(_ & -> & _)];
        split; discriminate.
Qed.

Lemma step_consistent x c f x' :
  consistent (vars x) -> ihex_step x c = (f, x') -> consistent (vars x').
Proof.
  intros Hs H.
  destruct (step_cases _ _ _ _ H)
    as [(_ & _ & ->)|[(_ & _ & Hd)|[(_ & _ & _ & _ & ->)|[(_ & _ & _ & Hd)|(_ & _ & _ & ->)]]]];
    try exact Hs.
  - eapply dispatch_consistent; [|exact Hd].
    eapply consistent_ext; [| | | |exact Hs]; reflexivity.
  - eapply dispatch_consistent; [|exact Hd].
    rewrite accumulate_eq.
    eapply consistent_ext; [| | | |exact Hs]; reflexivity.
Qed.

Lemma step_flow x c f x' :
  consistent (vars x) -> ihex_step x c = (f, x') ->
  f <> ReturnFalse ByteCountTooLarge /\ f <> ReturnFalse ByteCountMismatch.
Proof.
  intros Hs H.
  destruct (step_cases _ _ _ _ H)
    as [(_ & -> & _)|[(_ & _ & Hd)|[(_ & _ & _ & -> & _)|[(_ & _ & _ & Hd)|(_ & _ & -> & _)]]]];
    try (split; discriminate).
  - eapply dispatch_flow; [|exact Hd].
    eapply consistent_ext; [| | | |exact Hs]; reflexivity.
  - eapply dispatch_flow; [|exact Hd].
    rewrite accumulate_eq.
    eapply consistent_ext; [| | | |exact Hs]; reflexivity.
Qed.

Lemma init_consistent : consistent (@ihex_init W).
Proof.
  unfold consistent, ihex_init, DATA_STATE. cbn. rewrite length_replicate.
  repeat split; lia.
Qed.

Lemma reachable_consistent x : reachable x -> consistent (vars x).
Proof.
  induction 1 as [w|x _ IH|x fp _ IH|x b f x' _ IH Hstep].
  - apply init_consistent.
  - destruct IH as (Hst & Hbc & Hlen & H18 & H9 & H1011).
    unfold consistent, DATA_STATE. cbn. repeat split; try assumption; lia.
  - eapply consistent_ext; [| | | |exact IH]; reflexivity.
  - eapply step_consistent; eassumption.
Qed.

Lemma loop_consistent_flow x buf :
  consistent (vars x) ->
  consistent (vars (ihex_loop x buf).2)
  /\ (ihex_loop x buf).1 <> ReturnFalse ByteCountTooLarge
  /\ (ihex_loop x buf).1 <> ReturnFalse ByteCountMismatch.
Proof.
  revert x. induction buf as [|b buf IH]; intros x Hs; cbn [ihex_loop].
  { split; [exact Hs|split; discriminate]. }
  destruct (ihex_step x (chr b)) as [f x1] eqn:Hstep.
  pose proof (step_consistent _ _ _ _ Hs Hstep) as Hs1.
  destruct (step_flow _ _ _ _ Hs Hstep) as [F1 F2].
  destruct f; cbn [fst snd]; auto.
Qed.

Lemma reachable_loop x buf : reachable x -> reachable (ihex_loop x buf).2.
Proof.
  revert x. induction buf as [|b buf IH]; intros x Hx; cbn [ihex_loop]; [exact Hx|].
  destruct (ihex_step x (chr b)) as [f x1] eqn:Hstep.
  pose proof (reach_step _ _ _ _ Hx Hstep) as Hx1.
  destruct f; cbn [snd]; auto.
Qed.

(** Outside CHECKSUM_1_STATE the switch touches neither the sticky
    address, nor the consumer, nor anything outside the decoder. *)
Lemma dispatch_frame s x c hc f x' :
  0 <= state s <= 10 -> dispatch s x c hc = (f, x') ->
  address_hi (vars x') = address_hi s
  /\ ex_segment_addr_mode (vars x') = ex_segment_addr_mode s
  /\ callback_fp (vars x') = callback_fp s
  /\ world x' = world x /\ calls x' = calls x.
Proof.
  intros Hst H. assert (Hst' : 0 <= state s <= 11) by lia.
  dispatch_arms H Hst'; try (exfalso; lia); cbn in H;
    repeat (match type of H with
            | context [if ?b then _ else _] => destruct b
            end);
    injection H as <- <-; repeat split; reflexivity.
Qed.

Lemma checksum_1_frame s x f x' :
  checksum_1 s x = (f, x') -> callback_fp (vars x') = callback_fp s.
Proof.
  intros H.
  destruct (extended_address_frame s) as (_ & _ & _ & _ & _ & _ & _ & _ & _ & F).
  destruct (checksum_1_cases _ _ _ _ H)
    as [(_ & -> & _)|[(_ & -> & _)|[(_ & _ & _ & _ & ->)|(_ & _ & _ & fp & _ & Hfp)]]];
    try reflexivity.
  - cbn. exact F.
  - cbv zeta in Hfp. destruct Hfp as [(_ & _ & ->)|(_ & _ & ->)]; reflexivity.
Qed.

Lemma dispatch_checksum_1 s x c hc :
  state s = CHECKSUM_1_STATE -> dispatch s x c hc = checksum_1 s x.
Proof. unfold dispatch. intros ->. reflexivity. Qed.

Lemma extended_address_other s :
  record_type s <> 2 -> record_type s <> 4 -> extended_address s = s.
Proof.
  unfold extended_address. intros H2 H4.
  destruct (Z.eqb_spec (record_type s) 2); [contradiction|].
  destruct (Z.eqb_spec (record_type s) 4); [contradiction|]. reflexivity.
Qed.

Lemma extended_address_set s :
  record_type s = 2 \/ record_type s = 4 ->
  address_hi (extended_address s) =
    u16 (Z.lor (Z.shiftl (u16 (data_at (data s) 0)) 8) (data_at (data s) 1))
  /\ ex_segment_addr_mode (extended_address s) = (record_type s =? 2).
Proof.
  unfold extended_address. intros [E|E]; rewrite E; cbn; auto.
Qed.

(** One loop iteration and the sticky address. *)
Lemma step_sticky x c f x' :
  ihex_step x c = (f, x') ->
  (~ (state (vars x) = CHECKSUM_1_STATE
      /\ (record_type (vars x) = 2 \/ record_type (vars x) = 4)
      /\ f = Continue) ->
   address_hi (vars x') = address_hi (vars x)
   /\ ex_segment_addr_mode (vars x') = ex_segment_addr_mode (vars x))
  /\ (state (vars x) = CHECKSUM_1_STATE ->
      record_type (vars x) = 2 \/ record_type (vars x) = 4 ->
      f = Continue ->
      state (vars x') = START_CODE_STATE
      /\ address_hi (vars x') =
         u16 (Z.lor (Z.shiftl (u16 (data_at (data (vars x)) 0)) 8)
                    (data_at (data (vars x)) 1))
      /\ ex_segment_addr_mode (vars x') = (record_type (vars x) =? 2)).
Proof.
  intros H.
  destruct (step_cases _ _ _ _ H)
    as [(_ & -> & ->)|[(_ & E0 & Hd)|[(_ & _ & _ & -> & ->)|[(_ & Hst & _ & Hd)|(_ & _ & -> & ->)]]]].
  - split; [auto|discriminate].
  - split.
    + intros _. apply dispatch_frame in Hd; [|cbn; rewrite E0; unfold START_CODE_STATE; lia].
      destruct Hd as (-> & -> & _). auto.
    + unfold CHECKSUM_1_STATE, START_CODE_STATE in *. intros E. lia.
  - split; [auto|discriminate].
  - rewrite accumulate_eq in Hd.
    destruct (Z.eq_dec (state (vars x)) CHECKSUM_1_STATE) as [E|E].
    + rewrite dispatch_checksum_1 in Hd by exact E.
      match type of Hd with checksum_1 ?s _ = _ => set (sa := s) in * end.
      assert (Ert : record_type sa = record_type (vars x)) by reflexivity.
      assert (Eah : address_hi sa = address_hi (vars x)) by reflexivity.
      assert (Em : ex_segment_addr_mode sa = ex_segment_addr_mode (vars x))
        by reflexivity.
      assert (Ed : data sa = data (vars x)) by reflexivity.
      destruct (checksum_1_cases _ _ _ _ Hd)
        as [(-> & -> & _)|[(-> & -> & _)|[(_ & _ & _ & -> & ->)|(_ & _ & Er0 & fp & _ & Hfp)]]].
      * split; [auto|discriminate].
      * split; [auto|discriminate].
      * split.
        -- intros Hn. rewrite extended_address_other; [auto| |];
             rewrite Ert; intros Er; apply Hn; auto.
        -- intros _ Hr _. rewrite <- Ert in Hr.
           destruct (extended_address_set sa Hr) as [A1 A2].
           cbn. rewrite A1, A2, Ed, Ert. auto.
      * cbv zeta in Hfp. rewrite Ert in Er0. split.
        -- intros _. destruct Hfp as [(_ & _ & ->)|(_ & _ & ->)]; auto.
        -- intros _ [Hr|Hr]; rewrite Er0 in Hr; discriminate Hr.
    + split.
      * intros _. apply dispatch_frame in Hd;
          [|cbn; unfold CHECKSUM_1_STATE in E; lia].
        destruct Hd as (-> & -> & _). auto.
      * intros E'. contradiction.
  - split; [auto|discriminate].
Qed.

(** *** Decoders that cannot be told apart *)

Lemma alike_refl s : alike s s.
Proof. unfold alike. repeat split; reflexivity. Qed.

Lemma alike_accumulate s1 s2 hc :
  alike s1 s2 -> state s1 <> START_CODE_STATE ->
  accumulate hc s1 = accumulate hc s2.
Proof.
  intros (E1 & E2 & E3 & E4 & H) Hst.
  destruct (H Hst) as (F1 & F2 & F3 & F4 & F5 & F6 & F7 & F8).
  rewrite !accumulate_eq, <- E1, <- E2, <- E3, <- E4, <- F1, <- F2, <- F3,
    <- F4, <- F5, <- F6, <- F7.
  destruct (calc_cs_toogle s1); [rewrite F8 by reflexivity|]; reflexivity.
Qed.

(** Outside CHECKSUM_1_STATE the switch is a function of the variables
    alone. *)
Lemma dispatch_pure s c hc :
  0 <= state s <= 10 ->
  exists f s', forall x, dispatch s x c hc = (f, set_vars s' x).
Proof.
  intros Hst. assert (Hst' : 0 <= state s <= 11) by lia.
  unfold dispatch.
  destruct (state_cases (state s) Hst')
    as [E|[E|[E|[E|[E|[E|[E|[E|[E|[E|[E|E]]]]]]]]]]];
    try (exfalso; lia); rewrite ?E; cbv beta iota zeta;
    repeat (match goal with
            | |- context [if ?b then _ else _] => destruct b
            end);
    eexists; eexists; intros x; reflexivity.
Qed.

Lemma step_alike x1 x2 c f1 x1' f2 x2' :
  alike (vars x1) (vars x2) ->
  ihex_step x1 c = (f1, x1') -> ihex_step x2 c = (f2, x2') ->
  exists d,
    calls x1' = calls x1 ++ d /\ calls x2' = calls x2 ++ d
    /\ ((f1 = f2 /\ alike (vars x1') (vars x2'))
        \/ ((f1 = ReturnFalse CallbackRejected
             \/ f2 = ReturnFalse CallbackRejected)
            /\ exists fp, callback_fp (vars x1) = Some fp /\ ~ stateless fp)).
Proof.
  intros Ha H1 H2. pose proof Ha as (E1 & E2 & E3 & E4 & Hrest).
  unfold START_CODE_STATE in *.
  destruct (step_cases _ _ _ _ H1)
    as [(C1 & -> & ->)|[(C1 & S1 & D1)|[(C1 & S1 & V1 & -> & ->)|[(C1 & S1 & V1 & D1)|(C1 & S1 & -> & ->)]]]];
  destruct (step_cases _ _ _ _ H2)
    as [(C2 & -> & ->)|[(C2 & S2 & D2)|[(C2 & S2 & V2 & -> & ->)|[(C2 & S2 & V2 & D2)|(C2 & S2 & -> & ->)]]]];
    unfold START_CODE_STATE in *;
    try (exfalso; congruence); try (exfalso; lia);
    try (exists []; rewrite !app_nil_r; repeat split; auto; fail).
  - (* START_CODE_STATE *)
    unfold dispatch in D1, D2. cbn in D1, D2. rewrite S1 in D1. rewrite S2 in D2.
    cbv beta iota zeta in D1, D2.
    destruct ((c =? 13) || (c =? 10)).
    { injection D1 as <- <-. injection D2 as <- <-.
      exists []. rewrite !app_nil_r. repeat split; auto. left. split; [reflexivity|].
      unfold alike, START_CODE_STATE. cbn.
      repeat split; auto; intros; exfalso; congruence. }
    destruct (c =? 58); injection D1 as <- <-; injection D2 as <- <-;
      exists []; rewrite !app_nil_r; (repeat split; auto); left; (split; [reflexivity|]);
      unfold alike, START_CODE_STATE; cbn; rewrite ?S1, ?S2; repeat split; auto;
      intros; try (exfalso; congruence); discriminate.
  - (* the hexadecimal states *)
    rewrite <- (alike_accumulate _ _ (HexToDec c) Ha) in D2
      by (unfold START_CODE_STATE; lia).
    match type of D1 with dispatch ?s _ _ _ = _ => set (sa := s) in * end.
    assert (Esa : state sa = state (vars x1)).
    { unfold sa. rewrite accumulate_eq. reflexivity. }
    destruct (Z.eq_dec (state sa) CHECKSUM_1_STATE) as [E|E].
    + rewrite dispatch_checksum_1 in D1, D2 by exact E.
      destruct (checksum_1_cases _ _ _ _ D1)
        as [(-> & -> & N1)|[(-> & -> & M1 & N1)|[(M1 & Z1 & O1 & -> & ->)|(M1 & Z1 & R1 & fp1 & Efp1 & Hfp1)]]];
      destruct (checksum_1_cases _ _ _ _ D2)
        as [(-> & -> & N2)|[(-> & -> & M2 & N2)|[(M2 & Z2 & O2 & -> & ->)|(M2 & Z2 & R2 & fp2 & Efp2 & Hfp2)]]];
        try (exfalso; congruence);
        try (exfalso; destruct O1; congruence);
        try (exfalso; destruct O2; congruence);
        try (exists []; rewrite !app_nil_r; repeat split; auto;
             left; split; [reflexivity|apply alike_refl]; fail).
      cbv zeta in Hfp1, Hfp2.
      assert (fp2 = fp1) by congruence. subst fp2.
      assert (Ecb : callback_fp (vars x1) = Some fp1).
      { rewrite <- Efp1. unfold sa. rewrite accumulate_eq. reflexivity. }
      exists [Call (TRANSFORM_ADDR sa (address_hi sa) (address_lo sa)) (data sa)
                  (Z.shiftr (data_size_in_nibble sa) 1)].
      destruct Hfp1 as [(A1 & -> & ->)|(A1 & -> & ->)];
        destruct Hfp2 as [(A2 & -> & ->)|(A2 & -> & ->)];
        cbn [calls vars]; (split; [reflexivity|split; [reflexivity|]]).
      * left. split; [reflexivity|apply alike_refl].
      * right. split; [left; reflexivity|]. exists fp1. split; [exact Ecb|].
        intros Hst. rewrite (Hst _ (world x2)) in A1. congruence.
      * right. split; [right; reflexivity|]. exists fp1. split; [exact Ecb|].
        intros Hst. rewrite (Hst _ (world x2)) in A1. congruence.
      * left. split; [reflexivity|apply alike_refl].
    + destruct (dispatch_pure sa c (HexToDec c)) as (f & s' & Hp).
      { unfold CHECKSUM_1_STATE in E. lia. }
      rewrite Hp in D1, D2. injection D1 as <- <-. injection D2 as <- <-.
      exists []. rewrite !app_nil_r. repeat split; auto.
      left. split; [reflexivity|apply alike_refl].
Qed.

Lemma step_callback x c f x' :
  ihex_step x c = (f, x') -> callback_fp (vars x') = callback_fp (vars x).
Proof.
  intros H.
  destruct (step_cases _ _ _ _ H)
    as [(_ & _ & ->)|[(_ & E0 & Hd)|[(_ & _ & _ & _ & ->)|[(_ & Hst & _ & Hd)|(_ & _ & _ & ->)]]]];
    try reflexivity.
  - apply dispatch_frame in Hd; [|cbn; rewrite E0; unfold START_CODE_STATE; lia].
    destruct Hd as (_ & _ & -> & _). reflexivity.
  - rewrite accumulate_eq in Hd.
    destruct (Z.eq_dec (state (vars x)) CHECKSUM_1_STATE) as [E|E].
    + rewrite dispatch_checksum_1 in Hd by exact E.
      apply checksum_1_frame in Hd. exact Hd.
    + apply dispatch_frame in Hd; [|cbn; unfold CHECKSUM_1_STATE in E; lia].
      destruct Hd as (_ & _ & -> & _). reflexivity.
Qed.

Lemma loop_callback x buf :
  callback_fp (vars (ihex_loop x buf).2) = callback_fp (vars x).
Proof.
  revert x. induction buf as [|b buf IH]; intros x; cbn [ihex_loop]; [reflexivity|].
  destruct (ihex_step x (chr b)) as [f x1] eqn:Hstep.
  apply step_callback in Hstep.
  destruct f; cbn [snd]; [rewrite IH| |]; exact Hstep.
Qed.

Lemma loop_alike buf x1 x2 :
  alike (vars x1) (vars x2) ->
  flow_ok (ihex_loop x1 buf).1 = true -> flow_ok (ihex_loop x2 buf).1 = true ->
  exists d,
    calls (ihex_loop x1 buf).2 = calls x1 ++ d
    /\ calls (ihex_loop x2 buf).2 = calls x2 ++ d.
Proof.
  revert x1 x2. induction buf as [|b buf IH]; intros x1 x2 Ha; cbn [ihex_loop].
  { intros _ _. exists []. rewrite !app_nil_r. auto. }
  destruct (ihex_step x1 (chr b)) as [f1 y1] eqn:H1.
  destruct (ihex_step x2 (chr b)) as [f2 y2] eqn:H2.
  destruct (step_alike _ _ _ _ _ _ _ Ha H1 H2) as (d & D1 & D2 & Hc).
  destruct Hc as [[<- Ha']|[[->| ->] _]].
  - destruct f1; cbn [fst snd flow_ok].
    + intros K1 K2. destruct (IH _ _ Ha' K1 K2) as (d' & D1' & D2').
      exists (d ++ d'). rewrite D1', D2', D1, D2, !app_assoc. auto.
    + intros _ _. exists d. auto.
    + discriminate.
  - cbn [fst flow_ok]. discriminate.
  - destruct f1; cbn [fst snd flow_ok]; intros K1 K2; discriminate K2.
Qed.

(** With a stateless consumer the two runs also end alike. *)
Lemma loop_alike_stateless buf : forall x1 x2,
  alike (vars x1) (vars x2) ->
  (forall fp, callback_fp (vars x1) = Some fp -> stateless fp) ->
  (ihex_loop x1 buf).1 = (ihex_loop x2 buf).1
  /\ exists d,
      calls (ihex_loop x1 buf).2 = calls x1 ++ d
      /\ calls (ihex_loop x2 buf).2 = calls x2 ++ d.
Proof.
  induction buf as [|b buf IH]; intros x1 x2 Ha Hst; cbn [ihex_loop].
  { split; [reflexivity|]. exists []. rewrite !app_nil_r. auto. }
  destruct (ihex_step x1 (chr b)) as [f1 y1] eqn:H1.
  destruct (ihex_step x2 (chr b)) as [f2 y2] eqn:H2.
  destruct (step_alike _ _ _ _ _ _ _ Ha H1 H2) as (d & D1 & D2 & Hc).
  destruct Hc as [[<- Ha']|[_ (fp & Efp & Hn)]].
  2: { exfalso. apply Hn, Hst, Efp. }
  destruct f1; cbn [fst snd].
  - destruct (IH y1 y2 Ha') as (Hf & d' & D1' & D2').
    { intros fp Efp. apply Hst. rewrite <- Efp. symmetry.
      eapply step_callback. exact H1. }
    split; [exact Hf|]. exists (d ++ d').
    rewrite D1', D2', D1, D2, !app_assoc. auto.
  - split; [reflexivity|]. exists d. auto.
  - split; [reflexivity|]. exists d. auto.
Qed.

(** *** Reading a whole record *)

Lemma loop_cons x b buf :
  ihex_loop x (b :: buf) =
  match ihex_step x (chr b) with
  | (Continue, x') => ihex_loop x' buf
  | stop => stop
  end.
Proof. reflexivity. Qed.

Lemma bits_join a n k :
  0 <= k -> 0 <= a -> 0 <= n < 2 ^ k -> Z.lor (Z.shiftl a k) n = 2 ^ k * a + n.
Proof.
  intros Hk Ha Hn. rewrite Z.shiftl_mul_pow2 by lia.
  rewrite (Z.mul_comm (2 ^ k) a). apply eq_sym, Z.add_nocarry_lor.
  apply Z.bits_inj'. intros i Hi. rewrite Z.land_spec, Z.bits_0.
  destruct (Z_lt_ge_dec i k) as [Lo|Hik].
  - rewrite Z.mul_pow2_bits_low by lia. reflexivity.
  - destruct (Z.eq_dec n 0) as [->|Hn0].
    { rewrite Z.bits_0, andb_false_r. reflexivity. }
    rewrite (Z.bits_above_log2 n i), andb_false_r; [reflexivity|lia|].
    apply Z.log2_lt_pow2; [lia|].
    apply Z.lt_le_trans with (2 ^ k); [lia|].
    apply Z.pow_le_mono_r; lia.
Qed.

Lemma nib_join a n :
  0 <= a -> 0 <= n < 16 -> Z.lor (Z.shiftl a 4) n = 16 * a + n.
Proof. intros Ha Hn. apply (bits_join a n 4); lia. Qed.

Lemma byte_join a n :
  0 <= a -> 0 <= n < 256 -> Z.lor (Z.shiftl a 8) n = 256 * a + n.
Proof. intros Ha Hn. apply (bits_join a n 8); lia. Qed.

Lemma u8_add_l a v : u8 (u8 a + v) = u8 (a + v).
Proof. unfold u8. apply Zplus_mod_idemp_l. Qed.

Lemma u8_idem a : u8 (u8 a) = u8 a.
Proof. unfold u8. apply Zmod_mod. Qed.

Lemma hex_digit_range b : hex_digit b = true -> 0 <= hexval b < 16.
Proof.
  unfold hex_digit. intros H. apply Z.ltb_lt in H.
  destruct (HexToDec_range (chr b)) as [R|R]; fold (hexval b) in R.
  - lia.
  - rewrite R in H. unfold INVALID_HEX_CHAR in H. lia.
Qed.

Lemma hex_digit_accepted b : hex_digit b = true -> hex_accepted b = true.
Proof.
  intros H. apply hex_digit_range in H. unfold hex_accepted.
  destruct (Z.eqb_spec (hexval b) INVALID_HEX_CHAR) as [E|E]; [|reflexivity].
  rewrite E in H. unfold INVALID_HEX_CHAR in H. lia.
Qed.

Lemma hex_pair_range p :
  hex_pair p = true ->
  0 <= hexval p.1 < 16 /\ 0 <= hexval p.2 < 16 /\ 0 <= pair_val p < 256.
Proof.
  unfold hex_pair, pair_val. intros H. apply andb_true_iff in H as [H1 H2].
  apply hex_digit_range in H1, H2. lia.
Qed.

Lemma hex_pair_accepted p :
  hex_pair p = true -> hex_accepted p.1 = true /\ hex_accepted p.2 = true.
Proof.
  unfold hex_pair. intros H. apply andb_true_iff in H as [H1 H2].
  split; apply hex_digit_accepted; assumption.
Qed.

Local Arguments chr : simpl never.
Local Arguments hexval : simpl never.
Local Arguments pair_val : simpl never.
Local Arguments HexToDec : simpl never.

(** Reduce setters and projections applied to explicit variables. *)
Ltac reduce_vars :=
  cbv beta iota zeta delta
    [set_vars set_state set_byte_count set_address_lo set_address_hi
     set_ex_segment_addr_mode set_record_type set_data
     set_data_size_in_nibble set_temp_cs set_calc_cs set_calc_cs_toogle
     set_callback_fp vars world calls state byte_count address_lo address_hi
     ex_segment_addr_mode record_type data data_size_in_nibble temp_cs
     calc_cs calc_cs_toogle callback_fp negb
     START_CODE_STATE BYTE_COUNT_0_STATE BYTE_COUNT_1_STATE ADDR_0_STATE
     ADDR_1_STATE ADDR_2_STATE ADDR_3_STATE RECORD_TYPE_0_STATE
     RECORD_TYPE_1_STATE DATA_STATE CHECKSUM_0_STATE CHECKSUM_1_STATE];
  next_state.

Implicit Types (cb : option (ihex_callback_fp W)) (w : W) (l : list call).
Implicit Types (p : hexpair) (rest : list byte) (m tg : bool) (d : list Z).

Lemma step_hex_vars st bc alo ahi m rt d n t cs tg cb w l b :
  hex_state st = true -> hex_accepted b = true ->
  let x := Session (Ihex st bc alo ahi m rt d n t cs tg cb) w l in
  ihex_step x (chr b) =
  dispatch
    (Ihex st bc alo ahi m rt d n (if tg then t else hexval b)
          (if tg then u8 (cs + Z.lor (Z.shiftl t 4) (hexval b)) else cs)
          (negb tg) cb) x (chr b) (hexval b).
Proof.
  intros Hs Hb x. unfold x. rewrite step_hex by assumption.
  rewrite accumulate_eq. reflexivity.
Qed.

Lemma step_start_code st bc alo ahi m rt d n t cs tg cb w l :
  st = START_CODE_STATE ->
  ihex_step (Session (Ihex st bc alo ahi m rt d n t cs tg cb) w l) (chr ":") =
  (Continue,
   Session (Ihex BYTE_COUNT_0_STATE 0 0 ahi m 0
                 (replicate (Z.to_nat IHEX_DATA_SIZE) 0) 0 t 0 false cb) w l).
Proof. intros ->. reflexivity. Qed.

(** One iteration in a hexadecimal state other than CHECKSUM_1_STATE. *)
Ltac hex_step :=
  cbn [ihex_loop]; rewrite step_hex_vars by (assumption || reflexivity);
  unfold dispatch; reduce_vars.

(** A pair of hexadecimal digits, read in the byte-count states. *)
Lemma loop_count_pair p rest alo ahi m rt d n t cs cb w l :
  hex_pair p = true ->
  ihex_loop (Session (Ihex BYTE_COUNT_0_STATE 0 alo ahi m rt d n t cs false cb) w l)
            (p.1 :: p.2 :: rest) =
  ihex_loop (Session (Ihex ADDR_0_STATE (pair_val p) alo ahi m rt d n
                           (hexval p.1) (u8 (cs + pair_val p)) false cb) w l)
            rest.
Proof.
  intros Hp. destruct (hex_pair_accepted p Hp) as [A1 A2].
  destruct (hex_pair_range p Hp) as (R1 & R2 & R3).
  hex_step. hex_step.
  rewrite (nib_join 0 (hexval p.1)) by lia.
  rewrite (u8_small (16 * 0 + hexval p.1)) by lia.
  rewrite !nib_join by lia.
  replace (16 * (16 * 0 + hexval p.1) + hexval p.2) with (pair_val p)
    by (unfold pair_val; lia).
  replace (16 * hexval p.1 + hexval p.2) with (pair_val p)
    by (unfold pair_val; lia).
  rewrite (u8_small (pair_val p)) by lia. reflexivity.
Qed.

(** A pair read in the address states: ADDR_0/1 or ADDR_2/3. *)
Lemma loop_addr_pair st p rest bc alo ahi m rt d n t cs cb w l :
  st = ADDR_0_STATE \/ st = ADDR_2_STATE ->
  hex_pair p = true -> 0 <= alo < 256 ->
  ihex_loop (Session (Ihex st bc alo ahi m rt d n t cs false cb) w l)
            (p.1 :: p.2 :: rest) =
  ihex_loop (Session (Ihex (st + 2) bc (256 * alo + pair_val p) ahi m rt d n
                           (hexval p.1) (u8 (cs + pair_val p)) false cb) w l)
            rest.
Proof.
  intros Hst Hp Ha. destruct (hex_pair_accepted p Hp) as [A1 A2].
  destruct (hex_pair_range p Hp) as (R1 & R2 & R3).
  assert (E1 : Z.lor (Z.shiftl alo 4) (hexval p.1) = 16 * alo + hexval p.1)
    by (apply nib_join; lia).
  assert (E2 : Z.lor (Z.shiftl (16 * alo + hexval p.1) 4) (hexval p.2)
               = 256 * alo + pair_val p)
    by (rewrite nib_join by lia; unfold pair_val; lia).
  assert (E3 : Z.lor (Z.shiftl (hexval p.1) 4) (hexval p.2) = pair_val p)
    by (rewrite nib_join by lia; unfold pair_val; lia).
  destruct Hst as [-> | ->]; hex_step; hex_step;
    rewrite E1, (u16_small (16 * alo + hexval p.1)) by lia;
    rewrite E2, E3, (u16_small (256 * alo + pair_val p)) by lia;
    reflexivity.
Qed.

(** The record type pair, for a type the decoder lets through. *)
Lemma loop_type_pair p rest bc alo ahi m rt d n t cs cb w l :
  hex_pair p = true -> 0 <= bc <= 255 ->
  hexval p.1 = 0 -> (hexval p.2 <=? 5) || (hexval p.2 =? 14) = true ->
  ihex_loop (Session (Ihex RECORD_TYPE_0_STATE bc alo ahi m rt d n t cs false cb) w l)
            (p.1 :: p.2 :: rest) =
  ihex_loop (Session (Ihex (if bc =? 0 then CHECKSUM_0_STATE else DATA_STATE)
                           bc alo ahi m (hexval p.2) d n
                           (hexval p.1) (u8 (cs + pair_val p)) false cb) w l)
            rest.
Proof.
  intros Hp Hbc E0 Ety. destruct (hex_pair_accepted p Hp) as [A1 A2].
  destruct (hex_pair_range p Hp) as (R1 & R2 & R3).
  assert (E3 : Z.lor (Z.shiftl (hexval p.1) 4) (hexval p.2) = pair_val p)
    by (rewrite nib_join by lia; unfold pair_val; lia).
  hex_step. rewrite E0 at 1. change (0 =? 0) with true.
  cbv beta iota delta [negb].
  hex_step. rewrite Ety. cbv beta iota delta [negb].
  rewrite E3.
  destruct (Z.eqb_spec bc 0) as [Eb|Eb]; [reflexivity|].
  destruct (Z.gtb_spec bc IHEX_DATA_SIZE) as [G|G];
    [unfold IHEX_DATA_SIZE in G; lia|]. reflexivity.
Qed.

(** The CHECKSUM_1_STATE arm takes nothing from the session but the
    world and the log. *)
Lemma checksum_1_session s s1 s2 w l :
  checksum_1 s (Session s1 w l) = checksum_1 s (Session s2 w l).
Proof. reflexivity. Qed.

(** The checksum pair: the first digit is read, the second one arrives
    in CHECKSUM_1_STATE. *)
Lemma loop_check_pair p s0 bc alo ahi m rt d n t cs cb w l :
  hex_pair p = true ->
  ihex_loop (Session (Ihex CHECKSUM_0_STATE bc alo ahi m rt d n t cs false cb) w l)
            [p.1; p.2] =
  checksum_1 (Ihex CHECKSUM_1_STATE bc alo ahi m rt d n (hexval p.1)
                   (u8 (cs + pair_val p)) false cb) (Session s0 w l).
Proof.
  intros Hp. destruct (hex_pair_accepted p Hp) as [A1 A2].
  destruct (hex_pair_range p Hp) as (R1 & R2 & R3).
  assert (E3 : Z.lor (Z.shiftl (hexval p.1) 4) (hexval p.2) = pair_val p)
    by (rewrite nib_join by lia; unfold pair_val; lia).
  hex_step. cbn [ihex_loop]. rewrite step_hex_vars by (assumption || reflexivity).
  rewrite dispatch_checksum_1 by reflexivity.
  cbv beta iota delta [negb]. rewrite E3.
  rewrite (checksum_1_session _ _ s0).
  destruct (checksum_1 _ _) as [[| |why] y]; reflexivity.
Qed.

(** The payload buffer. *)
Lemma data_of_length done :
  (length done <= Z.to_nat IHEX_DATA_SIZE)%nat ->
  length (data_of done) = Z.to_nat IHEX_DATA_SIZE.
Proof.
  intros H. unfold data_of. rewrite length_app, length_replicate. lia.
Qed.

Lemma data_of_insert done v :
  (length done < Z.to_nat IHEX_DATA_SIZE)%nat ->
  <[length done := v]> (data_of done) = data_of (done ++ [v]).
Proof.
  intros H. unfold data_of.
  rewrite insert_app_r_alt by lia. rewrite Nat.sub_diag.
  destruct (Z.to_nat IHEX_DATA_SIZE - length done)%nat as [|k] eqn:E; [lia|].
  rewrite length_app. cbn [length].
  replace (Z.to_nat IHEX_DATA_SIZE - (length done + 1))%nat with k by lia.
  rewrite <- app_assoc. reflexivity.
Qed.

Lemma data_at_fresh done :
  data_at (data_of done) (Z.of_nat (length done)) = 0.
Proof.
  unfold data_at, data_of. rewrite Nat2Z.id.
  rewrite lookup_app_r by lia. rewrite Nat.sub_diag.
  destruct (Z.to_nat IHEX_DATA_SIZE - length done)%nat; reflexivity.
Qed.

Lemma data_at_insert d i v :
  (Z.to_nat i < length d)%nat -> data_at (<[Z.to_nat i := v]> d) i = v.
Proof.
  intros H. unfold data_at. rewrite list_lookup_insert_eq by exact H. reflexivity.
Qed.

Lemma half_even k : Z.shiftr (2 * k) 1 = k.
Proof. rewrite shiftr1. symmetry. apply Z.div_unique with 0; lia. Qed.

Lemma half_odd k : Z.shiftr (2 * k + 1) 1 = k.
Proof. rewrite shiftr1. symmetry. apply Z.div_unique with 1; lia. Qed.

(** A payload pair, read in DATA_STATE into the next free byte. *)
Lemma loop_data_pair p rest bc alo ahi m rt done t cs cb w l :
  hex_pair p = true ->
  Z.of_nat (length done) < bc <= 255 ->
  ihex_loop (Session (Ihex DATA_STATE bc alo ahi m rt (data_of done)
                           (2 * Z.of_nat (length done)) t cs false cb) w l)
            (p.1 :: p.2 :: rest) =
  ihex_loop (Session (Ihex (if Z.of_nat (length done) + 1 =? bc
                            then CHECKSUM_0_STATE else DATA_STATE)
                           bc alo ahi m rt (data_of (done ++ [pair_val p]))
                           (2 * Z.of_nat (length (done ++ [pair_val p])))
                           (hexval p.1) (u8 (cs + pair_val p)) false cb) w l)
            rest.
Proof.
  intros Hp Hk. destruct (hex_pair_accepted p Hp) as [A1 A2].
  destruct (hex_pair_range p Hp) as (R1 & R2 & R3).
  set (k := Z.of_nat (length done)) in *.
  assert (Hk0 : 0 <= k) by (unfold k; lia).
  assert (Hlen : (length done < Z.to_nat IHEX_DATA_SIZE)%nat)
    by (unfold IHEX_DATA_SIZE; lia).
  assert (Ek : Z.to_nat k = length done) by (unfold k; apply Nat2Z.id).
  assert (E3 : Z.lor (Z.shiftl (hexval p.1) 4) (hexval p.2) = pair_val p)
    by (rewrite nib_join by lia; unfold pair_val; lia).
  assert (E1 : Z.lor (Z.shiftl 0 4) (hexval p.1) = hexval p.1)
    by (rewrite nib_join by lia; lia).
  hex_step. unfold b_index. reduce_vars.
  rewrite half_even, (u8_small k) by lia.
  unfold k at 2. rewrite data_at_fresh, E1, (u8_small (hexval p.1)) by lia.
  rewrite (u16_small (2 * k + 1)) by lia. rewrite half_odd.
  destruct (Z.geb_spec k bc) as [G|_]; [lia|].
  hex_step. unfold b_index. reduce_vars.
  rewrite half_odd, (u8_small k) by lia.
  rewrite data_at_insert by (rewrite Ek, data_of_length; lia).
  rewrite E3, (u8_small (pair_val p)) by lia.
  rewrite Ek, list_insert_insert_eq, data_of_insert by exact Hlen.
  replace (2 * k + 1 + 1) with (2 * (k + 1)) by lia.
  rewrite (u16_small (2 * (k + 1))) by lia. rewrite half_even.
  rewrite length_app. cbn [length].
  replace (Z.of_nat (length done + 1)) with (k + 1) by (unfold k; lia).
  destruct (Z.geb_spec (k + 1) bc) as [G|G];
    destruct (Z.eqb_spec (k + 1) bc) as [E|E]; try lia; reflexivity.
Qed.

Lemma pair_chars_app ps qs : pair_chars (ps ++ qs) = pair_chars ps ++ pair_chars qs.
Proof. unfold pair_chars. apply flat_map_app. Qed.

Lemma sum_bytes_app (u v : list Z) : sum_bytes (u ++ v) = sum_bytes u + sum_bytes v.
Proof.
  unfold sum_bytes. induction u as [|a u IH]; cbn [foldr app]; lia.
Qed.

(** The whole payload, pair after pair. *)
Lemma loop_payload ps : forall done t cs rest bc alo ahi m rt cb w l,
  forallb hex_pair ps = true -> ps <> [] ->
  Z.of_nat (length done) + Z.of_nat (length ps) = bc -> bc <= 255 ->
  exists t',
    ihex_loop (Session (Ihex DATA_STATE bc alo ahi m rt (data_of done)
                             (2 * Z.of_nat (length done)) t cs false cb) w l)
              (pair_chars ps ++ rest) =
    ihex_loop (Session (Ihex CHECKSUM_0_STATE bc alo ahi m rt
                             (data_of (done ++ map pair_val ps)) (2 * bc) t'
                             (u8 (cs + sum_bytes (map pair_val ps))) false cb) w l)
              rest.
Proof.
  induction ps as [|p ps IH]; intros done t cs rest bc alo ahi m rt cb w l Hps Hne Hlen Hbc;
    [contradiction|].
  cbn [forallb] in Hps. apply andb_true_iff in Hps as [Hp Hps].
  cbn [length] in Hlen.
  change (pair_chars (p :: ps) ++ rest) with (p.1 :: p.2 :: pair_chars ps ++ rest).
  rewrite loop_data_pair by (assumption || lia).
  assert (Hcase : ps = [] \/ (0 < length ps)%nat)
    by (destruct ps; [left; reflexivity|right; cbn [length]; lia]).
  change (sum_bytes (map pair_val (p :: ps)))
    with (pair_val p + sum_bytes (map pair_val ps)).
  change (map pair_val (p :: ps)) with ([pair_val p] ++ map pair_val ps).
  destruct Hcase as [-> | Hpos].
  - cbn [length] in Hlen.
    destruct (Z.eqb_spec (Z.of_nat (length done) + 1) bc) as [E|E]; [|lia].
    exists (hexval p.1). rewrite length_app.
    cbn [length map sum_bytes foldr pair_chars flat_map app].
    replace (2 * Z.of_nat (length done + 1)) with (2 * bc) by lia.
    rewrite Z.add_0_r. reflexivity.
  - destruct (Z.eqb_spec (Z.of_nat (length done) + 1) bc) as [E|E]; [lia|].
    destruct (IH (done ++ [pair_val p]) (hexval p.1) (u8 (cs + pair_val p)) rest
                 bc alo ahi m rt cb w l Hps) as [t' Ht'];
      [intros ->; cbn [length] in Hpos; lia
      |rewrite length_app; cbn [length]; lia|exact Hbc|].
    exists t'. rewrite Ht'. rewrite u8_add_l, <- app_assoc, Z.add_assoc.
    reflexivity.
Qed.

(** The payload phase as a whole; it is empty for a zero byte count. *)
Lemma loop_payload_all ps rest t c0 bc alo ahi m rt cb w l :
  forallb hex_pair ps = true -> Z.of_nat (length ps) = bc -> bc <= 255 ->
  exists t',
    ihex_loop (Session (Ihex (if bc =? 0 then CHECKSUM_0_STATE else DATA_STATE)
                             bc alo ahi m rt
                             (replicate (Z.to_nat IHEX_DATA_SIZE) 0) 0 t (u8 c0)
                             false cb) w l)
              (pair_chars ps ++ rest) =
    ihex_loop (Session (Ihex CHECKSUM_0_STATE bc alo ahi m rt
                             (data_of (map pair_val ps)) (2 * bc) t'
                             (u8 (u8 c0 + sum_bytes (map pair_val ps))) false cb) w l)
              rest.
Proof.
  intros Hps Hlen Hbc. destruct ps as [|p ps].
  - cbn [length] in Hlen. subst bc. exists t.
    cbn [map sum_bytes foldr pair_chars flat_map app].
    rewrite Z.add_0_r, u8_idem. reflexivity.
  - destruct (Z.eqb_spec bc 0) as [E|E]; [cbn [length] in Hlen; lia|].
    apply (loop_payload (p :: ps) [] t (u8 c0) rest bc alo ahi m rt cb w l Hps);
      [discriminate|cbn [length] in *; lia|exact Hbc].
Qed.

(** Reading a framed record of an accepted type from START_CODE_STATE
    comes down to the CHECKSUM_1_STATE arm on known variables. *)
Lemma loop_record x r :
  state (vars x) = START_CODE_STATE ->
  rec_framed r = true -> rec_type_ok r = true ->
  ihex_loop x (rec_chars r) = checksum_1 (at_checksum (vars x) r) x.
Proof.
  destruct x as [[st bc alo ahi m rt d n t cs tg cb] w l].
  destruct r as [pc pah pal pty payload pck].
  unfold rec_framed, rec_type_ok, at_checksum, rec_chars, rec_pairs, rec_header,
    rec_sum, rec_bytes, rec_address, rec_data.
  cbn [vars state rec_count rec_addr_hi rec_addr_lo rec_type rec_payload
       rec_check address_hi ex_segment_addr_mode callback_fp].
  intros -> Hf Hty.
  apply andb_true_iff in Hf as [Hall Hlen]. apply Z.eqb_eq in Hlen.
  cbn [app forallb] in Hall.
  apply andb_true_iff in Hall as [Hpc Hall].
  apply andb_true_iff in Hall as [Hpah Hall].
  apply andb_true_iff in Hall as [Hpal Hall].
  apply andb_true_iff in Hall as [Hpty Hall].
  rewrite forallb_app in Hall. apply andb_true_iff in Hall as [Hpay Hpck].
  cbn [forallb] in Hpck. rewrite andb_true_r in Hpck.
  apply andb_true_iff in Hty as [Ety0 Ety]. apply Z.eqb_eq in Ety0.
  destruct (hex_pair_range _ Hpc) as (_ & _ & Rpc).
  destruct (hex_pair_range _ Hpah) as (_ & _ & Rpah).
  change (pair_chars ([pc; pah; pal; pty] ++ payload ++ [pck]))
    with (pc.1 :: pc.2 :: pah.1 :: pah.2 :: pal.1 :: pal.2 :: pty.1 :: pty.2
          :: pair_chars (payload ++ [pck])).
  rewrite pair_chars_app.
  rewrite loop_cons, step_start_code by reflexivity.
  rewrite loop_count_pair by assumption.
  rewrite (loop_addr_pair ADDR_0_STATE) by (auto; lia).
  change (ADDR_0_STATE + 2) with ADDR_2_STATE.
  rewrite (loop_addr_pair ADDR_2_STATE) by (auto; lia).
  change (ADDR_2_STATE + 2) with RECORD_TYPE_0_STATE.
  rewrite loop_type_pair by (assumption || lia).
  assert (Esum : forall t',
    Ihex CHECKSUM_1_STATE (pair_val pc) (256 * (256 * 0 + pair_val pah) + pair_val pal)
         ahi m (hexval pty.2) (data_of (map pair_val payload)) (2 * pair_val pc) t'
         (u8 (u8 (u8 (u8 (u8 (u8 (0 + pair_val pc) + pair_val pah) + pair_val pal)
                         + pair_val pty) + sum_bytes (map pair_val payload))
              + pair_val pck)) false cb
    = Ihex CHECKSUM_1_STATE (pair_val pc) (256 * pair_val pah + pair_val pal)
         ahi m (hexval pty.2) (data_of (map pair_val payload)) (2 * pair_val pc) t'
         (u8 (sum_bytes (map pair_val ([pc; pah; pal; pty] ++ payload ++ [pck]))))
         false cb).
  { intros t'. rewrite !map_app, !sum_bytes_app.
    repeat (rewrite <- ?Z.add_assoc; rewrite u8_add_l).
    cbn [map sum_bytes foldr].
    replace (256 * (256 * 0 + pair_val pah) + pair_val pal)
      with (256 * pair_val pah + pair_val pal) by lia.
    do 2 f_equal. lia. }
  destruct (loop_payload_all payload (pair_chars [pck]) (hexval pty.1)
              (u8 (u8 (u8 (0 + pair_val pc) + pair_val pah) + pair_val pal)
               + pair_val pty)
              (pair_val pc) (256 * (256 * 0 + pair_val pah) + pair_val pal)
              ahi m (hexval pty.2) cb w l Hpay Hlen ltac:(lia)) as [t' Ht'].
  rewrite Ht'.
  change (pair_chars [pck]) with [pck.1; pck.2].
  rewrite (loop_check_pair pck (Ihex START_CODE_STATE bc alo ahi m rt d n t cs tg cb))
    by assumption.
  rewrite Esum. reflexivity.
Qed.

(** *** A record shorter than its byte count *)

Lemma step_hex_rejected x b :
  hex_state (state (vars x)) = true -> not_nul b = true ->
  hex_accepted b = false ->
  ihex_step x (chr b) = (ReturnFalse InvalidHexChar, x).
Proof.
  unfold hex_state, not_nul, hex_accepted, hexval, ihex_step.
  intros Hs Hb Ha.
  destruct (chr b =? 0); [discriminate Hb|].
  destruct (Z.eqb_spec (state (vars x)) START_CODE_STATE) as [E|_].
  { rewrite E in Hs. discriminate Hs. }
  rewrite Hs. destruct (HexToDec (chr b) =? INVALID_HEX_CHAR); [reflexivity|].
  discriminate Ha.
Qed.

Lemma line_end_rejected b :
  line_end b = true -> not_nul b = true /\ hex_accepted b = false.
Proof.
  unfold line_end, not_nul, hex_accepted, hexval. intros H.
  apply orb_true_iff in H as [H|H]; apply Z.eqb_eq in H; rewrite H; split; reflexivity.
Qed.

(** One iteration on an arbitrary character in a hexadecimal state:
    either the character is refused and the loop is over, or the switch
    runs on explicit variables. *)
Ltac any_step b :=
  rewrite loop_cons;
  let A := fresh "A" in
  destruct (hex_accepted b) eqn:A;
  [ rewrite step_hex_vars by (reflexivity || assumption);
    unfold dispatch; reduce_vars
  | rewrite step_hex_rejected by (reflexivity || assumption); reflexivity ].

(** Name a compound term, so that the variables stay small. *)
Ltac forget v :=
  lazymatch v with
  | context [hexval _] => let z := fresh "z" in generalize v; intros z
  | _ => idtac
  end.

Ltac forget_vars :=
  match goal with
  | |- context [Ihex _ _ ?alo _ _ _ ?d _ ?t ?cs _ _] =>
      forget d; forget cs; forget alo; forget t
  end.

(** Decide the comparisons between numerals that the switch has left. *)
Ltac decide_closed :=
  repeat match goal with
         | |- context [Z.geb ?a ?b] =>
             let v := eval vm_compute in (Z.geb a b) in
             change (Z.geb a b) with v; cbv beta iota
         end.

(** *** Input without a null byte *)

Lemma dispatch_not_true s x c hc f x' :
  dispatch s x c hc = (f, x') -> f <> ReturnTrue.
Proof.
  intros H.
  destruct (Z_le_dec 0 (state s)) as [L|L];
    [destruct (Z_le_dec (state s) 11) as [U|U]|].
  - assert (Hst : 0 <= state s <= 11) by lia.
    dispatch_arms H Hst;
      try (cbn in H;
           repeat (match type of H with
                   | context [if ?b then _ else _] => destruct b
                   end);
           injection H as <- <-; discriminate).
    destruct (checksum_1_cases _ _ _ _ H)
      as [(-> & _)|[(-> & _)|[(_ & _ & _ & -> & _)|(_ & _ & _ & fp & _ & Hfp)]]];
      try discriminate.
    cbv zeta in Hfp. destruct Hfp as [(_ & -> & _)|(_ & -> & _)]; discriminate.
  - rewrite dispatch_default in H by lia. injection H as <- <-. discriminate.
  - rewrite dispatch_default in H by lia. injection H as <- <-. discriminate.
Qed.

Lemma step_not_true x b f x' :
  not_nul b = true -> ihex_step x (chr b) = (f, x') -> f <> ReturnTrue.
Proof.
  unfold not_nul. intros Hb H.
  destruct (step_cases _ _ _ _ H)
    as [(C0 & _)|[(_ & _ & Hd)|[(_ & _ & _ & -> & _)|[(_ & _ & _ & Hd)|(_ & _ & -> & _)]]]];
    try discriminate; try (eapply dispatch_not_true; exact Hd).
  rewrite C0 in Hb. discriminate Hb.
Qed.

Lemma loop_not_true buf : forall x,
  forallb not_nul buf = true -> (ihex_loop x buf).1 <> ReturnTrue.
Proof.
  induction buf as [|b buf IH]; intros x Hnn; [discriminate|].
  cbn [forallb] in Hnn. apply andb_true_iff in Hnn as [Hb Hnn].
  rewrite loop_cons. destruct (ihex_step x (chr b)) as [f x1] eqn:Hstep.
  pose proof (step_not_true _ _ _ _ Hb Hstep) as Hf.
  destruct f; [apply IH; exact Hnn|contradiction|discriminate].
Qed.

(** A start code is refused wherever the decoder is inside a record. *)
Lemma step_colon_inside x :
  state (vars x) <> START_CODE_STATE ->
  exists why, ihex_step x (chr ":") = (ReturnFalse why, x).
Proof.
  intros Hs. destruct (hex_state (state (vars x))) eqn:Hh.
  - exists InvalidHexChar. apply step_hex_rejected; [exact Hh|reflexivity|reflexivity].
  - exists BadState. unfold ihex_step. change (chr ":" =? 0) with false. cbv iota.
    destruct (Z.eqb_spec (state (vars x)) START_CODE_STATE); [contradiction|].
    unfold hex_state in Hh. rewrite Hh.
    rewrite dispatch_default; [destruct x; reflexivity|].
    unfold START_CODE_STATE, BYTE_COUNT_0_STATE, CHECKSUM_1_STATE in *.
    apply andb_false_iff in Hh as [Hh|Hh]; apply Z.leb_gt in Hh; lia.
Qed.

Lemma loop_short_record x r term rest :
  state (vars x) = START_CODE_STATE ->
  rec_count r = hx "0" "4" -> length (rec_payload r) = 3%nat ->
  forallb not_nul (rec_chars r) = true -> line_end term = true ->
  flow_ok (ihex_loop x (rec_chars r ++ term :: rest)).1 = false.
Proof.
  destruct x as [[st bc alo ahi m rt d n t cs tg cb] w l].
  destruct r as [pc [a1 a2] [a3 a4] [t1 t2] payload [k1 k2]].
  cbn [vars state rec_count rec_payload]. intros -> -> Hlen Hnn Hterm.
  destruct payload as [|[p1 p2] [|[p3 p4] [|[p5 p6] [|]]]]; try discriminate Hlen.
  destruct (line_end_rejected term Hterm) as [T1 T2].
  unfold rec_chars, rec_pairs, rec_header in *.
  cbn [rec_count rec_addr_hi rec_addr_lo rec_type rec_payload rec_check app
       pair_chars flat_map fst snd] in *.
  cbn [forallb] in Hnn.
  repeat (apply andb_true_iff in Hnn as [? Hnn]).
  rewrite loop_cons, step_start_code by reflexivity.
  rewrite (loop_count_pair (hx "0" "4")) by reflexivity.
  change (pair_val (hx "0" "4")) with 4.
  forget_vars.
  any_step a1. forget_vars. any_step a2. forget_vars.
  any_step a3. forget_vars. any_step a4. forget_vars.
  any_step t1.
  destruct (hexval t1 =? 0); [|reflexivity]. forget_vars.
  any_step t2.
  destruct ((hexval t2 <=? 5) || (hexval t2 =? 14)); [|reflexivity].
  change (4 =? 0) with false. change (4 >? IHEX_DATA_SIZE) with false.
  cbv beta iota. forget_vars.
  any_step p1. decide_closed. forget_vars. any_step p2. decide_closed. forget_vars.
  any_step p3. decide_closed. forget_vars. any_step p4. decide_closed. forget_vars.
  any_step p5. decide_closed. forget_vars. any_step p6. decide_closed. forget_vars.
  any_step k1. decide_closed. forget_vars. any_step k2. decide_closed. forget_vars.
  rewrite loop_cons, step_hex_rejected by (reflexivity || assumption).
  reflexivity.
Qed.

(** *** The CHECKSUM_1_STATE arm on known variables *)


Lemma checksum_1_address s x :
  Z.shiftl (byte_count s) 1 = data_size_in_nibble s -> calc_cs s = 0 ->
  record_type s <> 0 ->
  checksum_1 s x =
  (Continue, set_vars (set_state START_CODE_STATE (extended_address s)) x).
Proof.
  unfold checksum_1. intros -> -> H. rewrite Z.eqb_refl. cbn [negb].
  change (0 =? 0) with true. cbn [negb]. cbv zeta.
  destruct (extended_address_frame s) as (_ & _ & _ & -> & _).
  destruct (Z.eqb_spec (record_type s) 0); [contradiction|reflexivity].
Qed.

Lemma checksum_1_data s x fp :
  Z.shiftl (byte_count s) 1 = data_size_in_nibble s -> calc_cs s = 0 ->
  record_type s = 0 -> callback_fp s = Some fp ->
  calls (checksum_1 s x).2 =
    calls x ++ [Call (TRANSFORM_ADDR s (address_hi s) (address_lo s)) (data s)
                     (Z.shiftr (data_size_in_nibble s) 1)]
  /\ ((checksum_1 s x).1 = Continue
      \/ (checksum_1 s x).1 = ReturnFalse CallbackRejected).
Proof.
  intros E1 E2 E3 E4. destruct (checksum_1 s x) as [f x'] eqn:H.
  destruct (checksum_1_cases _ _ _ _ H)
    as [(_ & _ & N)|[(_ & _ & _ & N)|[(_ & _ & O & _)|(_ & _ & _ & fp' & _ & Hfp)]]];
    try contradiction.
  - destruct O; congruence.
  - cbv zeta in Hfp. cbn [fst snd].
    destruct Hfp as [(_ & -> & ->)|(_ & -> & ->)]; cbn [calls]; auto.
Qed.

Lemma step_line_end x b :
  state (vars x) = START_CODE_STATE -> line_end b = true ->
  ihex_step x (chr b) =
  (Continue, set_vars (set_calc_cs_toogle false (set_calc_cs 0 (vars x))) x).
Proof.
  unfold ihex_step, line_end. intros Hs Hb.
  apply orb_true_iff in Hb as [H|H]; apply Z.eqb_eq in H; rewrite H, Hs;
    unfold dispatch; cbn [state set_calc_cs_toogle set_calc_cs];
    rewrite Hs; reflexivity.
Qed.

Lemma loop_line_ends sep : forall x,
  state (vars x) = START_CODE_STATE -> forallb line_end sep = true ->
  exists x',
    ihex_loop x sep = (Continue, x')
    /\ state (vars x') = START_CODE_STATE
    /\ address_hi (vars x') = address_hi (vars x)
    /\ ex_segment_addr_mode (vars x') = ex_segment_addr_mode (vars x)
    /\ callback_fp (vars x') = callback_fp (vars x)
    /\ world x' = world x /\ calls x' = calls x.
Proof.
  induction sep as [|b sep IH]; intros x Hs Hsep.
  { exists x. repeat split; auto. }
  cbn [forallb] in Hsep. apply andb_true_iff in Hsep as [Hb Hsep].
  rewrite loop_cons, step_line_end by assumption.
  destruct (IH (set_vars (set_calc_cs_toogle false (set_calc_cs 0 (vars x))) x)
              Hs Hsep) as (x' & -> & H1 & H2 & H3 & H4 & H5 & H6).
  exists x'. repeat split; assumption.
Qed.

(** *** Replacing a payload pair *)






(** *** The loop *)

Lemma loop_app x pre post :
  ihex_loop x (pre ++ post) =
  match ihex_loop x pre with
  | (Continue, x') => ihex_loop x' post
  | stop => stop
  end.
Proof.
  revert x. induction pre as [|b pre IH]; intros x; simpl; [reflexivity|].
  destruct (ihex_step x (chr b)) as [[| |why] x1]; auto.
Qed.

Lemma loop_continue x pre post x1 :
  ihex_loop x pre = (Continue, x1) ->
  ihex_loop x (pre ++ post) = ihex_loop x1 post.
Proof. intros H. rewrite loop_app, H. reflexivity. Qed.


Lemma loop_nul x pre post :
  ihex_loop x (pre ++ NUL :: post) =
  match ihex_loop x pre with
  | (Continue, x') => (ReturnTrue, x')
  | stop => stop
  end.
Proof.
  rewrite loop_app. destruct (ihex_loop x pre) as [[| |why] x1]; reflexivity.
Qed.

Lemma parser_all x buf :
  ihex_parser x buf (length buf) =
  (flow_ok (ihex_loop x buf).1, (ihex_loop x buf).2).
Proof.
  unfold ihex_parser. rewrite firstn_all.
  destruct (ihex_loop x buf); reflexivity.
Qed.

(** *** Whole records that pass both checks *)

Lemma type_nibbles p v :
  hex_pair p = true -> pair_val p = v -> 0 <= v < 16 ->
  hexval p.1 = 0 /\ hexval p.2 = v.
Proof.
  intros Hp Hv Hr. destruct (hex_pair_range p Hp) as (R1 & R2 & _).
  unfold pair_val in Hv. lia.
Qed.

Lemma framed_type r : rec_framed r = true -> hex_pair (rec_type r) = true.
Proof.
  unfold rec_framed, rec_pairs, rec_header. intros H.
  apply andb_true_iff in H as [H _]. cbn [app forallb] in H.
  repeat (apply andb_true_iff in H as [? H]). assumption.
Qed.

Lemma framed_count r :
  rec_framed r = true -> 0 <= pair_val (rec_count r) < 256.
Proof.
  unfold rec_framed, rec_pairs, rec_header. intros H.
  apply andb_true_iff in H as [H _]. cbn [app forallb] in H.
  apply andb_true_iff in H as [H _]. apply hex_pair_range in H. tauto.
Qed.

(** An address-setting record with a good checksum. *)
Lemma loop_address_record x r :
  state (vars x) = START_CODE_STATE -> rec_framed r = true ->
  rec_sum r mod 256 = 0 ->
  pair_val (rec_type r) = 2 \/ pair_val (rec_type r) = 4 ->
  exists x',
    ihex_loop x (rec_chars r) = (Continue, x')
    /\ state (vars x') = START_CODE_STATE
    /\ address_hi (vars x') =
       u16 (Z.lor (Z.shiftl (u16 (data_at (data_of (rec_data r)) 0)) 8)
                  (data_at (data_of (rec_data r)) 1))
    /\ ex_segment_addr_mode (vars x') = (pair_val (rec_type r) =? 2)
    /\ callback_fp (vars x') = callback_fp (vars x)
    /\ world x' = world x /\ calls x' = calls x.
Proof.
  intros Hs Hf Hsum Hty.
  assert (Hn : hexval (rec_type r).1 = 0
               /\ hexval (rec_type r).2 = pair_val (rec_type r)).
  { apply type_nibbles; [apply framed_type; exact Hf|reflexivity|lia]. }
  destruct Hn as [N1 N2].
  assert (Hok : rec_type_ok r = true).
  { unfold rec_type_ok. rewrite N1, N2.
    destruct Hty as [-> | ->]; reflexivity. }
  rewrite (loop_record x r Hs Hf Hok).
  set (s := at_checksum (vars x) r).
  assert (Ert : record_type s = pair_val (rec_type r)) by exact N2.
  rewrite checksum_1_address;
    [|unfold s; cbn [byte_count data_size_in_nibble at_checksum]; apply shiftl1
     |exact Hsum|rewrite Ert; lia].
  eexists. split; [reflexivity|].
  destruct (extended_address_set s) as [A1 A2]; [rewrite Ert; exact Hty|].
  destruct (extended_address_frame s) as (_ & _ & _ & _ & _ & _ & _ & _ & _ & F).
  cbn [vars set_vars set_state state address_hi ex_segment_addr_mode callback_fp
       world calls].
  rewrite A1, A2, F, Ert. repeat split; reflexivity.
Qed.

(** A data record with a good checksum, a consumer being registered. *)
Lemma loop_data_record x r fp :
  state (vars x) = START_CODE_STATE -> rec_framed r = true ->
  rec_sum r mod 256 = 0 -> pair_val (rec_type r) = 0 ->
  callback_fp (vars x) = Some fp ->
  calls (ihex_loop x (rec_chars r)).2 =
  calls x ++ [Call (TRANSFORM_ADDR (vars x) (address_hi (vars x)) (rec_address r))
                   (data_of (rec_data r)) (pair_val (rec_count r))].
Proof.
  intros Hs Hf Hsum Hty Hcb.
  assert (Hn : hexval (rec_type r).1 = 0
               /\ hexval (rec_type r).2 = pair_val (rec_type r)).
  { apply type_nibbles; [apply framed_type; exact Hf|reflexivity|lia]. }
  destruct Hn as [N1 N2].
  assert (Hok : rec_type_ok r = true).
  { unfold rec_type_ok. rewrite N1, N2, Hty. reflexivity. }
  rewrite (loop_record x r Hs Hf Hok).
  destruct (checksum_1_data (at_checksum (vars x) r) x fp) as [-> _].
  - apply shiftl1.
  - exact Hsum.
  - cbn [record_type at_checksum]. rewrite N2. exact Hty.
  - exact Hcb.
  - cbn [at_checksum data data_size_in_nibble address_hi address_lo].
    rewrite half_even. reflexivity.
Qed.

(** A record of any other accepted type leaves the sticky address alone,
    whatever its checksum and whatever the consumer answers. *)
Lemma loop_other_record x r :
  state (vars x) = START_CODE_STATE ->
  rec_framed r = true -> rec_type_ok r = true ->
  hexval (rec_type r).2 <> 2 -> hexval (rec_type r).2 <> 4 ->
  address_hi (vars (ihex_loop x (rec_chars r)).2) = address_hi (vars x)
  /\ ex_segment_addr_mode (vars (ihex_loop x (rec_chars r)).2)
     = ex_segment_addr_mode (vars x).
Proof.
  intros Hs Hf Hok H2 H4. rewrite (loop_record x r Hs Hf Hok).
  set (s := at_checksum (vars x) r).
  assert (Es : extended_address s = s) by (apply extended_address_other; assumption).
  destruct (checksum_1 s x) as [f x'] eqn:H.
  destruct (checksum_1_cases _ _ _ _ H)
    as [(_ & -> & _)|[(_ & -> & _)|[(_ & _ & _ & _ & ->)|(_ & _ & _ & fp & _ & Hfp)]]];
    cbn [snd]; try (split; reflexivity).
  - rewrite Es. split; reflexivity.
  - cbv zeta in Hfp. destruct Hfp as [(_ & _ & ->)|(_ & _ & ->)]; split; reflexivity.
Qed.

Lemma framed_payload r i old :
  rec_framed r = true -> rec_payload r !! i = Some old ->
  0 <= pair_val old < 256.
Proof.
  unfold rec_framed, rec_pairs. intros H Hi.
  apply andb_true_iff in H as [H _].
  rewrite !forallb_app in H. apply andb_true_iff in H as [_ H].
  apply andb_true_iff in H as [H _].
  rewrite forallb_forall in H.
  apply hex_pair_range, H, list_elem_of_In, list_elem_of_lookup. eauto.
Qed.

(** The address an address-setting record with two payload bytes leaves. *)
Lemma loop_address_value x r (b0 b1 : Z) :
  state (vars x) = START_CODE_STATE -> rec_framed r = true ->
  rec_sum r mod 256 = 0 ->
  pair_val (rec_type r) = 2 \/ pair_val (rec_type r) = 4 ->
  rec_data r = [b0; b1] ->
  address_hi (vars (ihex_loop x (rec_chars r)).2) = 256 * b0 + b1
  /\ ex_segment_addr_mode (vars (ihex_loop x (rec_chars r)).2)
     = (pair_val (rec_type r) =? 2).
Proof.
  intros Hs Hf Hsum Hty Hd.
  destruct (loop_address_record x r Hs Hf Hsum Hty)
    as (x' & -> & _ & A & M & _).
  cbn [snd]. rewrite A, M, Hd. split; [|reflexivity].
  unfold rec_data in Hd.
  destruct (rec_payload r) as [|p0 [|p1 [|p2 ps]]] eqn:Ep; try discriminate Hd.
  injection Hd as <- <-.
  assert (R0 : 0 <= pair_val p0 < 256)
    by (apply (framed_payload r 0 p0 Hf); rewrite Ep; reflexivity).
  assert (R1 : 0 <= pair_val p1 < 256)
    by (apply (framed_payload r 1 p1 Hf); rewrite Ep; reflexivity).
  change (data_at (data_of [pair_val p0; pair_val p1]) 0) with (pair_val p0).
  change (data_at (data_of [pair_val p0; pair_val p1]) 1) with (pair_val p1).
  rewrite (u16_small (pair_val p0)) by lia.
  rewrite byte_join by lia. apply u16_small. lia.
Qed.

(** *** The exits of the CHECKSUM_1_STATE arm for a record that passes *)

Lemma checksum_1_silent s x :
  Z.shiftl (byte_count s) 1 = data_size_in_nibble s -> calc_cs s = 0 ->
  record_type s <> 0 \/ callback_fp s = None ->
  checksum_1 s x =
  (Continue, set_vars (set_state START_CODE_STATE (extended_address s)) x).
Proof.
  intros E1 E2 [H|H]; [apply checksum_1_address; assumption|].
  unfold checksum_1. rewrite E1, E2, Z.eqb_refl. cbn [negb].
  change (0 =? 0) with true. cbn [negb]. cbv zeta.
  destruct (extended_address_frame s)
    as (_ & _ & _ & -> & _ & _ & _ & _ & _ & ->).
  rewrite H. destruct (record_type s =? 0); reflexivity.
Qed.

Lemma checksum_1_deliver s x fp :
  Z.shiftl (byte_count s) 1 = data_size_in_nibble s -> calc_cs s = 0 ->
  record_type s = 0 -> callback_fp s = Some fp ->
  let address := TRANSFORM_ADDR s (address_hi s) (address_lo s) in
  let len := Z.shiftr (data_size_in_nibble s) 1 in
  let v := fp (world x) address (data s) len in
  checksum_1 s x =
  (if v.1 then Continue else ReturnFalse CallbackRejected,
   Session (if v.1 then set_state START_CODE_STATE s else s) v.2
           (calls x ++ [Call address (data s) len])).
Proof.
  intros E1 E2 E3 E4. cbv zeta. unfold checksum_1.
  rewrite E1, E2, Z.eqb_refl. cbn [negb]. change (0 =? 0) with true.
  cbn [negb]. cbv zeta.
  assert (Es : extended_address s = s).
  { unfold extended_address. rewrite E3. reflexivity. }
  rewrite Es, E3, E4. change (0 =? 0) with true. cbv iota.
  destruct (fp (world x) (TRANSFORM_ADDR s (address_hi s) (address_lo s))
              (data s) (Z.shiftr (data_size_in_nibble s) 1)) as [[|] w'];
    reflexivity.
Qed.

(** *** Whole records, exit by exit *)

Lemma type_zero_ok r :
  rec_framed r = true -> pair_val (rec_type r) = 0 ->
  rec_type_ok r = true /\ hexval (rec_type r).2 = 0.
Proof.
  intros Hf Hty.
  destruct (type_nibbles (rec_type r) 0 (framed_type r Hf) Hty ltac:(lia))
    as [N1 N2].
  unfold rec_type_ok. rewrite N1, N2. split; reflexivity.
Qed.

(** A data record with a good checksum: the consumer is called once and
    its verdict decides how the loop goes on. *)
Lemma loop_data_delivery x r fp :
  state (vars x) = START_CODE_STATE -> rec_framed r = true ->
  rec_sum r mod 256 = 0 -> pair_val (rec_type r) = 0 ->
  callback_fp (vars x) = Some fp ->
  let address := TRANSFORM_ADDR (vars x) (address_hi (vars x)) (rec_address r) in
  let v := fp (world x) address (data_of (rec_data r)) (pair_val (rec_count r)) in
  ihex_loop x (rec_chars r) =
  (if v.1 then Continue else ReturnFalse CallbackRejected,
   Session (if v.1 then set_state START_CODE_STATE (at_checksum (vars x) r)
            else at_checksum (vars x) r)
           v.2
           (calls x ++ [Call address (data_of (rec_data r)) (pair_val (rec_count r))])).
Proof.
  intros Hs Hf Hsum Hty Hcb. cbv zeta.
  destruct (type_zero_ok r Hf Hty) as [Hok N2].
  rewrite (loop_record x r Hs Hf Hok).
  rewrite (checksum_1_deliver (at_checksum (vars x) r) x fp);
    [|apply shiftl1|exact Hsum|exact N2|exact Hcb].
  cbn [at_checksum data data_size_in_nibble address_hi address_lo].
  rewrite half_even. reflexivity.
Qed.

(** A record with a good checksum that is not delivered: any type but 0,
    or no consumer registered. *)
Lemma loop_silent_record x r :
  state (vars x) = START_CODE_STATE -> rec_framed r = true ->
  rec_type_ok r = true -> rec_sum r mod 256 = 0 ->
  hexval (rec_type r).2 <> 0 \/ callback_fp (vars x) = None ->
  ihex_loop x (rec_chars r) =
  (Continue,
   set_vars (set_state START_CODE_STATE
               (extended_address (at_checksum (vars x) r))) x).
Proof.
  intros Hs Hf Hok Hsum Hsil.
  rewrite (loop_record x r Hs Hf Hok).
  apply checksum_1_silent; [apply shiftl1|exact Hsum|exact Hsil].
Qed.

(** A record whose type field the decoder does not let through is
    refused at that field, before any payload is read. *)
Lemma loop_bad_type x r rest :
  state (vars x) = START_CODE_STATE ->
  forallb hex_pair (rec_header r) = true -> rec_type_ok r = false ->
  let res := ihex_loop x (rec_chars r ++ rest) in
  res.1 = ReturnFalse (if hexval (rec_type r).1 =? 0
                       then RecordTypeUnsupported else RecordTypeHighNibble)
  /\ calls res.2 = calls x /\ world res.2 = world x
  /\ address_hi (vars res.2) = address_hi (vars x)
  /\ ex_segment_addr_mode (vars res.2) = ex_segment_addr_mode (vars x)
  /\ data_size_in_nibble (vars res.2) = 0.
Proof.
  destruct x as [[st bc alo ahi m rt d n t cs tg cb] w l].
  destruct r as [pc pah pal pty payload pck].
  unfold rec_type_ok, rec_chars, rec_pairs, rec_header.
  cbn [vars state rec_count rec_addr_hi rec_addr_lo rec_type rec_payload
       rec_check address_hi ex_segment_addr_mode world calls].
  intros -> Hall Hty. cbn [forallb] in Hall.
  apply andb_true_iff in Hall as [Hpc Hall].
  apply andb_true_iff in Hall as [Hpah Hall].
  apply andb_true_iff in Hall as [Hpal Hall].
  apply andb_true_iff in Hall as [Hpty _].
  destruct (hex_pair_range _ Hpah) as (_ & _ & Rpah).
  destruct (hex_pair_accepted _ Hpty) as [A1 A2].
  change (pair_chars ([pc; pah; pal; pty] ++ payload ++ [pck]))
    with (pc.1 :: pc.2 :: pah.1 :: pah.2 :: pal.1 :: pal.2 :: pty.1 :: pty.2
          :: pair_chars (payload ++ [pck])).
  cbv zeta. cbn [app].
  rewrite loop_cons, step_start_code by reflexivity.
  rewrite loop_count_pair by assumption.
  rewrite (loop_addr_pair ADDR_0_STATE) by (auto; lia).
  change (ADDR_0_STATE + 2) with ADDR_2_STATE.
  rewrite (loop_addr_pair ADDR_2_STATE) by (auto; lia).
  change (ADDR_2_STATE + 2) with RECORD_TYPE_0_STATE.
  hex_step.
  destruct (Z.eqb_spec (hexval pty.1) 0) as [E0|E0]; cbv iota.
  2: { repeat split; reflexivity. }
  cbn [andb] in Hty.
  hex_step. rewrite Hty. cbv iota. repeat split; reflexivity.
Qed.

(** *** Indistinguishable decoders in the same world *)

Lemma checksum_1_worlds s x1 x2 :
  world x1 = world x2 ->
  let r1 := checksum_1 s x1 in
  let r2 := checksum_1 s x2 in
  r1.1 = r2.1 /\ vars r1.2 = vars r2.2 /\ world r1.2 = world r2.2
  /\ exists k, calls r1.2 = calls x1 ++ k /\ calls r2.2 = calls x2 ++ k.
Proof.
  destruct x1 as [s1 w l1]. destruct x2 as [s2 w2 l2]. cbn [world calls].
  intros <-.
  cbv zeta. unfold checksum_1. cbn [world calls set_vars].
  destruct (negb (Z.shiftl (byte_count s) 1 =? data_size_in_nibble s)).
  { repeat split. exists []. rewrite !app_nil_r. auto. }
  destruct (negb (calc_cs s =? 0)).
  { repeat split. exists []. rewrite !app_nil_r. auto. }
  cbv zeta.
  destruct (if record_type (extended_address s) =? 0
            then callback_fp (extended_address s) else None) as [fp|].
  2: { repeat split. exists []. rewrite !app_nil_r. auto. }
  destruct (fp w _ _ _) as [[|] w']; cbn [negb fst snd vars world calls];
    repeat split; eexists; split; reflexivity.
Qed.

Lemma step_alike_world x1 x2 c :
  alike (vars x1) (vars x2) -> world x1 = world x2 ->
  (ihex_step x1 c).1 = (ihex_step x2 c).1
  /\ alike (vars (ihex_step x1 c).2) (vars (ihex_step x2 c).2)
  /\ world (ihex_step x1 c).2 = world (ihex_step x2 c).2
  /\ exists k,
      calls (ihex_step x1 c).2 = calls x1 ++ k
      /\ calls (ihex_step x2 c).2 = calls x2 ++ k.
Proof.
  intros Ha Hw. pose proof Ha as (E1 & E2 & E3 & E4 & Hrest).
  destruct (ihex_step x1 c) as [f1 y1] eqn:H1.
  destruct (ihex_step x2 c) as [f2 y2] eqn:H2. cbn [fst snd].
  unfold START_CODE_STATE in *.
  destruct (step_cases _ _ _ _ H1)
    as [(C1 & -> & ->)|[(C1 & S1 & D1)|[(C1 & S1 & V1 & -> & ->)|[(C1 & S1 & V1 & D1)|(C1 & S1 & -> & ->)]]]];
  destruct (step_cases _ _ _ _ H2)
    as [(C2 & -> & ->)|[(C2 & S2 & D2)|[(C2 & S2 & V2 & -> & ->)|[(C2 & S2 & V2 & D2)|(C2 & S2 & -> & ->)]]]];
    unfold START_CODE_STATE in *;
    try (exfalso; congruence); try (exfalso; lia);
    try (split; [reflexivity|]; split; [exact Ha|]; split; [exact Hw|];
         exists []; rewrite !app_nil_r; auto; fail).
  - (* START_CODE_STATE *)
    unfold dispatch in D1, D2. cbn in D1, D2. rewrite S1 in D1. rewrite S2 in D2.
    cbv beta iota zeta in D1, D2.
    destruct ((c =? chr CR) || (c =? chr LF)); [|destruct (c =? chr ":")];
      injection D1 as <- <-; injection D2 as <- <-;
      (split; [reflexivity|]);
      (split; [unfold alike, START_CODE_STATE; cbn; rewrite ?S1, ?S2;
               repeat split; auto; intros; try (exfalso; congruence); discriminate|]);
      (split; [exact Hw|]); exists []; rewrite !app_nil_r; auto.
  - (* the hexadecimal states *)
    rewrite <- (alike_accumulate _ _ (HexToDec c) Ha) in D2
      by (unfold START_CODE_STATE; lia).
    match type of D1 with dispatch ?s _ _ _ = _ => set (sa := s) in * end.
    destruct (Z.eq_dec (state sa) CHECKSUM_1_STATE) as [E|E].
    + rewrite dispatch_checksum_1 in D1, D2 by exact E.
      pose proof (checksum_1_worlds sa x1 x2 Hw) as P. cbv zeta in P.
      rewrite D1, D2 in P. cbn [fst snd] in P.
      destruct P as (F & V & Wd & k & K1 & K2).
      split; [exact F|]. split; [rewrite V; apply alike_refl|].
      split; [exact Wd|]. exists k. auto.
    + assert (Esa : state sa = state (vars x1)).
      { unfold sa. rewrite accumulate_eq. reflexivity. }
      destruct (dispatch_pure sa c (HexToDec c)) as (f & s' & Hp).
      { unfold CHECKSUM_1_STATE in E. lia. }
      rewrite Hp in D1, D2. injection D1 as <- <-. injection D2 as <- <-.
      split; [reflexivity|]. split; [apply alike_refl|].
      split; [exact Hw|]. exists []. rewrite !app_nil_r. auto.
Qed.

Lemma loop_alike_world buf : forall x1 x2,
  alike (vars x1) (vars x2) -> world x1 = world x2 ->
  (ihex_loop x1 buf).1 = (ihex_loop x2 buf).1
  /\ alike (vars (ihex_loop x1 buf).2) (vars (ihex_loop x2 buf).2)
  /\ world (ihex_loop x1 buf).2 = world (ihex_loop x2 buf).2
  /\ exists k,
      calls (ihex_loop x1 buf).2 = calls x1 ++ k
      /\ calls (ihex_loop x2 buf).2 = calls x2 ++ k.
Proof.
  induction buf as [|b buf IH]; intros x1 x2 Ha Hw; cbn [ihex_loop].
  { split; [reflexivity|]. split; [exact Ha|]. split; [exact Hw|].
    exists []. rewrite !app_nil_r. auto. }
  destruct (step_alike_world x1 x2 (chr b) Ha Hw) as (F & A & Wd & k & K1 & K2).
  destruct (ihex_step x1 (chr b)) as [f1 y1].
  destruct (ihex_step x2 (chr b)) as [f2 y2]. cbn [fst snd] in *. subst f2.
  destruct f1; cbn [fst snd].
  - destruct (IH y1 y2 A Wd) as (F' & A' & Wd' & k' & K1' & K2').
    split; [exact F'|]. split; [exact A'|]. split; [exact Wd'|].
    exists (k ++ k'). rewrite K1', K2', K1, K2, !app_assoc. auto.
  - split; [reflexivity|]. split; [exact A|]. split; [exact Wd|]. exists k. auto.
  - split; [reflexivity|]. split; [exact A|]. split; [exact Wd|]. exists k. auto.
Qed.

(** *** The default arm *)

Lemma dispatch_no_bad_state s x c hc f x' :
  0 <= state s <= 11 -> dispatch s x c hc = (f, x') ->
  f <> ReturnFalse BadState.
Proof.
  intros Hst H.
  dispatch_arms H Hst;
    try (cbn in H;
         repeat (match type of H with
                 | context [if ?b then _ else _] => destruct b
                 end);
         injection H as <- <-; discriminate).
  destruct (checksum_1_cases _ _ _ _ H)
    as [(-> & _)|[(-> & _)|[(_ & _ & _ & -> & _)|(_ & _ & _ & fp & _ & Hfp)]]];
    try discriminate.
  cbv zeta in Hfp. destruct Hfp as [(_ & -> & _)|(_ & -> & _)]; discriminate.
Qed.

Lemma step_no_bad_state x c f x' :
  0 <= state (vars x) <= 11 -> ihex_step x c = (f, x') ->
  f <> ReturnFalse BadState.
Proof.
  intros Hst H.
  destruct (step_cases _ _ _ _ H)
    as [(_ & -> & _)|[(_ & _ & Hd)|[(_ & _ & _ & -> & _)|[(_ & _ & _ & Hd)|(_ & N & _)]]]];
    try discriminate; try contradiction.
  - eapply dispatch_no_bad_state; [|exact Hd]. exact Hst.
  - eapply dispatch_no_bad_state; [|exact Hd]. rewrite accumulate_eq. exact Hst.
Qed.

Lemma loop_no_bad_state buf : forall x,
  consistent (vars x) -> (ihex_loop x buf).1 <> ReturnFalse BadState.
Proof.
  induction buf as [|b buf IH]; intros x Hc; cbn [ihex_loop]; [discriminate|].
  destruct (ihex_step x (chr b)) as [f x1] eqn:Hstep.
  pose proof (step_consistent _ _ _ _ Hc Hstep) as Hc1.
  assert (Hst : 0 <= state (vars x) <= 11) by (destruct Hc as [Hst _]; exact Hst).
  pose proof (step_no_bad_state _ _ _ _ Hst Hstep) as Hf.
  destruct f; cbn [fst]; [apply IH; exact Hc1|discriminate|exact Hf].
Qed.

(** *** When the consumer is called *)

Lemma step_delivery x c f x' :
  ihex_step x c = (f, x') ->
  (calls x' = calls x /\ world x' = world x)
  \/ (state (vars x) = CHECKSUM_1_STATE /\ record_type (vars x) = 0
      /\ Z.shiftl (byte_count (vars x)) 1 = data_size_in_nibble (vars x)
      /\ calc_cs (accumulate (HexToDec c) (vars x)) = 0
      /\ exists fp,
          callback_fp (vars x) = Some fp
          /\ let address :=
               TRANSFORM_ADDR (vars x) (address_hi (vars x)) (address_lo (vars x)) in
             let len := Z.shiftr (data_size_in_nibble (vars x)) 1 in
             let v := fp (world x) address (data (vars x)) len in
             calls x' = calls x ++ [Call address (data (vars x)) len]
             /\ world x' = v.2
             /\ f = (if v.1 then Continue else ReturnFalse CallbackRejected)).
Proof.
  intros H.
  destruct (step_cases _ _ _ _ H)
    as [(_ & _ & ->)|[(_ & E0 & Hd)|[(_ & _ & _ & _ & ->)|[(_ & Hst & _ & Hd)|(_ & _ & _ & ->)]]]];
    try (left; split; reflexivity).
  - apply dispatch_frame in Hd; [|cbn; rewrite E0; unfold START_CODE_STATE; lia].
    left. destruct Hd as (_ & _ & _ & -> & ->). split; reflexivity.
  - destruct (Z.eq_dec (state (vars x)) CHECKSUM_1_STATE) as [E|E].
    2: { rewrite accumulate_eq in Hd. apply dispatch_frame in Hd;
           [|cbn; unfold CHECKSUM_1_STATE in E; lia].
         left. destruct Hd as (_ & _ & _ & -> & ->). split; reflexivity. }
    rewrite dispatch_checksum_1 in Hd by (rewrite accumulate_eq; exact E).
    destruct (checksum_1_cases _ _ _ _ Hd)
      as [(_ & -> & _)|[(_ & -> & _)|[(_ & _ & _ & _ & ->)|(M & Z0 & R & fp & Efp & Hfp)]]];
      try (left; split; reflexivity).
    right. rewrite accumulate_eq in M, R, Efp. cbn in M, R, Efp.
    repeat split; try assumption.
    exists fp. split; [exact Efp|].
    cbv zeta in Hfp. cbv zeta. rewrite accumulate_eq in Hfp.
    unfold TRANSFORM_ADDR in *. cbn in Hfp.
    destruct Hfp as [(V & -> & ->)|(V & -> & ->)]; rewrite V; cbn [calls world];
      repeat split; reflexivity.
Qed.

(** *** The ranges of the variables *)

Lemma HexToDec_nonneg h : 0 <= HexToDec h.
Proof.
  destruct (HexToDec_range h) as [R|R]; [lia|].
  rewrite R. unfold INVALID_HEX_CHAR. lia.
Qed.

Lemma HexToDec_accepted_range h :
  HexToDec h <> INVALID_HEX_CHAR -> 0 <= HexToDec h < 36.
Proof. destruct (HexToDec_range h) as [R|R]; [auto|contradiction]. Qed.

Lemma u8_byte_range v : byte_range (u8 v).
Proof. unfold byte_range. pose proof (u8_range v). lia. Qed.

Lemma u16_bound v : 0 <= u16 v < 65536.
Proof. pose proof (u16_range v). lia. Qed.

Lemma extended_address_ranged s : ranged s -> ranged (extended_address s).
Proof.
  unfold extended_address. intros Hr.
  destruct (record_type s =? 2); [|destruct (record_type s =? 4)]; try exact Hr;
    destruct Hr as (R1 & R2 & R3 & R4 & R5 & R6 & R7);
    unfold ranged; cbn; repeat split; try tauto; try lia; apply u16_bound.
Qed.

Lemma dispatch_ranged s x c hc f x' :
  consistent s -> ranged s -> 0 <= hc ->
  dispatch s x c hc = (f, x') -> ranged (vars x').
Proof.
  intros Hc Hr Hhc H. pose proof Hc as (Hst & Hbc & Hlen & H18 & H9 & H1011).
  pose proof Hr as (R1 & R2 & R3 & R4 & R5 & R6 & R7).
  dispatch_arms H Hst.
  - destruct ((c =? chr CR) || (c =? chr LF)); [injection H as <- <-; exact Hr|].
    destruct (c =? chr ":"); injection H as <- <-; [|exact Hr].
    unfold ranged; cbn. repeat split; try lia; try tauto.
    apply Forall_replicate. unfold byte_range. lia.
  - injection H as <- <-. exact Hr.
  - injection H as <- <-. exact Hr.
  - injection H as <- <-. unfold ranged; cbn.
    repeat split; try tauto; try lia; apply u16_bound.
  - injection H as <- <-. unfold ranged; cbn.
    repeat split; try tauto; try lia; apply u16_bound.
  - injection H as <- <-. unfold ranged; cbn.
    repeat split; try tauto; try lia; apply u16_bound.
  - injection H as <- <-. unfold ranged; cbn.
    repeat split; try tauto; try lia; apply u16_bound.
  - destruct (negb (hc =? 0)); injection H as <- <-; exact Hr.
  - destruct (Z.leb_spec hc 5) as [L|L]; destruct (Z.eqb_spec hc 14) as [E14|E14];
      cbn [orb negb] in H; try (injection H as <- <-; exact Hr);
      cbv zeta in H; cbn [byte_count set_record_type] in H;
      (destruct (byte_count s =? 0);
       [|destruct (byte_count s >? IHEX_DATA_SIZE)]);
      injection H as <- <-; unfold ranged; cbn;
      repeat split; try tauto; try lia.
  - destruct (H9 E) as [Hn0 Hn]. rewrite shiftr1 in Hn.
    assert (Hn2 : data_size_in_nibble s < 2 * byte_count s).
    { destruct (Z_lt_ge_dec (data_size_in_nibble s) (2 * byte_count s)); [assumption|].
      exfalso. assert (byte_count s <= data_size_in_nibble s / 2)
        by (apply Z.div_le_lower_bound; lia). lia. }
    cbn in H. rewrite (u16_small (data_size_in_nibble s + 1)) in H by lia.
    destruct (_ >=? _); injection H as <- <-; unfold ranged; cbn;
      (repeat split; try tauto; try lia);
      apply Forall_insert; [exact R4|apply u8_byte_range|exact R4|apply u8_byte_range].
  - injection H as <- <-. exact Hr.
  - pose proof (extended_address_ranged s Hr) as Hr'.
    destruct (checksum_1_cases _ _ _ _ H)
      as [(_ & -> & _)|[(_ & -> & _)|[(_ & _ & _ & _ & ->)|(_ & _ & _ & fp & _ & Hfp)]]];
      try exact Hr.
    + exact Hr'.
    + cbv zeta in Hfp. destruct Hfp as [(_ & _ & ->)|(_ & _ & ->)]; exact Hr.
Qed.

Lemma step_ranged x c f x' :
  consistent (vars x) -> ranged (vars x) ->
  ihex_step x c = (f, x') -> ranged (vars x').
Proof.
  intros Hc Hr H. pose proof Hr as (R1 & R2 & R3 & R4 & R5 & R6 & R7).
  destruct (step_cases _ _ _ _ H)
    as [(_ & _ & ->)|[(_ & _ & Hd)|[(_ & _ & _ & _ & ->)|[(_ & _ & V & Hd)|(_ & _ & _ & ->)]]]];
    try exact Hr.
  - eapply dispatch_ranged; [| |apply (HexToDec_nonneg c)|exact Hd].
    + eapply consistent_ext; [| | | |exact Hc]; reflexivity.
    + unfold ranged; cbn. repeat split; try tauto; lia.
  - pose proof (HexToDec_accepted_range c V) as Rh.
    eapply dispatch_ranged; [| |apply (HexToDec_nonneg c)|exact Hd].
    + rewrite accumulate_eq.
      eapply consistent_ext; [| | | |exact Hc]; reflexivity.
    + rewrite accumulate_eq. unfold ranged; cbn.
      destruct (calc_cs_toogle (vars x)); repeat split; try tauto; try lia;
        apply u8_byte_range.
Qed.

Lemma init_ranged : ranged (@ihex_init W).
Proof.
  unfold ranged, ihex_init. cbn. repeat split; try lia.
  apply Forall_replicate. unfold byte_range. lia.
Qed.

Lemma reachable_ranged x : reachable x -> ranged (vars x).
Proof.
  induction 1 as [w|x _ IH|x fp _ IH|x b f x' Hx IH Hstep].
  - apply init_ranged.
  - destruct IH as (R1 & R2 & R3 & R4 & R5 & R6 & R7).
    unfold ranged; cbn. repeat split; try tauto; lia.
  - exact IH.
  - eapply step_ranged; [apply reachable_consistent; exact Hx|exact IH|exact Hstep].
Qed.

(** *** What the consumer is handed *)

Lemma u32_bound v : 0 <= u32 v < 4294967296.
Proof. unfold u32. apply Z.mod_pos_bound. lia. Qed.

Lemma lor_bound (u v k : Z) :
  0 < k -> 0 <= u < 2 ^ k -> 0 <= v < 2 ^ k -> 0 <= Z.lor u v < 2 ^ k.
Proof.
  intros Hk Hu Hv.
  assert (N : 0 <= Z.lor u v) by (apply Z.lor_nonneg; lia).
  split; [exact N|].
  destruct (Z.eq_dec (Z.lor u v) 0) as [E|E]; [rewrite E; lia|].
  apply Z.log2_lt_pow2; [lia|]. rewrite Z.log2_lor by lia.
  assert (Lu : Z.log2 u < k).
  { destruct (Z.eq_dec u 0) as [->|Nu]; [cbn; lia|]. apply Z.log2_lt_pow2; lia. }
  assert (Lv : Z.log2 v < k).
  { destruct (Z.eq_dec v 0) as [->|Nv]; [cbn; lia|]. apply Z.log2_lt_pow2; lia. }
  lia.
Qed.

Lemma TRANSFORM_ADDR_range s hi lo : 0 <= TRANSFORM_ADDR s hi lo < 4294967296.
Proof.
  unfold TRANSFORM_ADDR. destruct (ex_segment_addr_mode s); [apply u32_bound|].
  change 4294967296 with (2 ^ 32). apply lor_bound; [lia| |];
    change (2 ^ 32) with 4294967296; apply u32_bound.
Qed.

Lemma step_good_calls x c f x' :
  consistent (vars x) -> ranged (vars x) -> Forall good_call (calls x) ->
  ihex_step x c = (f, x') -> Forall good_call (calls x').
Proof.
  intros Hc Hr Hg H.
  destruct (step_delivery _ _ _ _ H)
    as [[-> _]|(E & _ & M & _ & fp & _ & Hfp)]; [exact Hg|].
  cbv zeta in Hfp. destruct Hfp as (-> & _).
  apply Forall_app. split; [exact Hg|]. apply Forall_singleton.
  destruct Hc as (_ & Hbc & Hlen & _ & _ & _).
  destruct Hr as (_ & _ & _ & R4 & _).
  unfold good_call. cbn [call_addr call_buf call_len].
  split; [apply TRANSFORM_ADDR_range|]. split; [exact Hlen|]. split; [exact R4|].
  rewrite <- M, shiftl1, half_even. lia.
Qed.

Lemma reachable_good_calls x : reachable x -> Forall good_call (calls x).
Proof.
  induction 1 as [w|x _ IH|x fp _ IH|x b f x' Hx IH Hstep].
  - apply Forall_nil. exact I.
  - exact IH.
  - exact IH.
  - eapply step_good_calls; [apply reachable_consistent; exact Hx
                            |apply reachable_ranged; exact Hx|exact IH|exact Hstep].
Qed.

(** *** The address macro in closed form *)

Lemma TRANSFORM_ADDR_closed s hi lo :
  0 <= hi < 65536 -> 0 <= lo < 65536 ->
  TRANSFORM_ADDR s hi lo =
  if ex_segment_addr_mode s then 16 * hi + lo else 65536 * hi + lo.
Proof.
  intros Hhi Hlo. unfold TRANSFORM_ADDR.
  rewrite (u32_small hi), (u32_small lo) by lia.
  destruct (ex_segment_addr_mode s).
  - rewrite Z.shiftl_mul_pow2 by lia. change (2 ^ 4) with 16.
    rewrite (u32_small (hi * 16)) by lia. rewrite u32_small by lia. lia.
  - assert (E : Z.shiftl hi 16 = hi * 65536)
      by (rewrite Z.shiftl_mul_pow2 by lia; reflexivity).
    rewrite (u32_small (Z.shiftl hi 16)) by (rewrite E; lia).
    assert (Hlo' : 0 <= lo < 2 ^ 16) by (change (2 ^ 16) with 65536; lia).
    rewrite (bits_join hi lo 16 ltac:(lia) ltac:(lia) Hlo'). reflexivity.
Qed.

(** *** The payload buffer, byte by byte *)

Lemma data_at_data_of payload (i : nat) :
  data_at (data_of payload) (Z.of_nat i) = default 0 (payload !! i).
Proof.
  unfold data_at, data_of. rewrite Nat2Z.id.
  destruct (Nat.lt_ge_cases i (length payload)) as [L|G].
  - rewrite lookup_app_l by exact L. reflexivity.
  - rewrite lookup_app_r by exact G.
    rewrite (lookup_ge_None_2 payload i) by exact G. cbn [default].
    destruct (replicate _ 0 !! (i - length payload)%nat) as [v|] eqn:E;
      [|reflexivity].
    apply lookup_replicate in E as [-> _]. reflexivity.
Qed.

(** *** Records that agree nibble by nibble *)

Lemma same_val_pair p q : same_val p q -> pair_val q = pair_val p.
Proof. unfold same_val, pair_val. intros [-> ->]. reflexivity. Qed.

Lemma same_val_hex p q : same_val p q -> hex_pair q = hex_pair p.
Proof. unfold same_val, hex_pair, hex_digit. intros [-> ->]. reflexivity. Qed.

Lemma same_val_payload (ps qs : list hexpair) :
  Forall2 same_val ps qs ->
  map pair_val qs = map pair_val ps
  /\ forallb hex_pair qs = forallb hex_pair ps
  /\ length qs = length ps.
Proof.
  induction 1 as [|p q ps qs Hpq _ (IH1 & IH2 & IH3)]; [repeat split|].
  cbn [map forallb length].
  rewrite (same_val_pair p q Hpq), (same_val_hex p q Hpq), IH1, IH2, IH3.
  repeat split.
Qed.

Lemma same_digits_checksum s r r' :
  same_digits r r' ->
  at_checksum s r' = at_checksum s r
  /\ rec_framed r' = rec_framed r /\ rec_type_ok r' = rec_type_ok r.
Proof.
  intros (Hc & Hah & Hal & Hty & Hpay & Hck).
  destruct (same_val_payload _ _ Hpay) as (P1 & P2 & P3).
  pose proof Hty as [T1 T2]. pose proof Hck as [K1 K2].
  unfold at_checksum, rec_framed, rec_type_ok, rec_sum, rec_bytes, rec_address,
    rec_data, rec_pairs, rec_header.
  rewrite !map_app, !forallb_app. cbn [map forallb].
  rewrite (same_val_pair _ _ Hc), (same_val_pair _ _ Hah), (same_val_pair _ _ Hal),
    (same_val_pair _ _ Hty), (same_val_pair _ _ Hck),
    (same_val_hex _ _ Hc), (same_val_hex _ _ Hah), (same_val_hex _ _ Hal),
    (same_val_hex _ _ Hty), (same_val_hex _ _ Hck), P1, P2, P3, T1, T2, K1.
  repeat split.
Qed.

Lemma loop_same_digits x r r' :
  state (vars x) = START_CODE_STATE ->
  rec_framed r = true -> rec_type_ok r = true -> same_digits r r' ->
  ihex_loop x (rec_chars r') = ihex_loop x (rec_chars r).
Proof.
  intros Hs Hf Hok Hsame.
  destruct (same_digits_checksum (vars x) r r' Hsame) as (E & F & T).
  rewrite (loop_record x r Hs Hf Hok).
  rewrite (loop_record x r' Hs) by congruence.
  rewrite E. reflexivity.
Qed.

(** *** After the consumer has refused a block *)

Lemma step_redelivers x b fp :
  state (vars x) = CHECKSUM_1_STATE ->
  calc_cs_toogle (vars x) = false -> calc_cs (vars x) = 0 ->
  Z.shiftl (byte_count (vars x)) 1 = data_size_in_nibble (vars x) ->
  record_type (vars x) = 0 -> callback_fp (vars x) = Some fp ->
  hex_accepted b = true ->
  calls (ihex_step x (chr b)).2 =
  calls x ++ [Call (TRANSFORM_ADDR (vars x) (address_hi (vars x))
                                   (address_lo (vars x)))
                   (data (vars x))
                   (Z.shiftr (data_size_in_nibble (vars x)) 1)].
Proof.
  intros Hs Htg Hcs Hn Hrt Hcb Hb.
  rewrite step_hex by (try exact Hb; rewrite Hs; reflexivity).
  rewrite dispatch_checksum_1 by (rewrite accumulate_eq; exact Hs).
  rewrite (checksum_1_deliver (accumulate (hexval b) (vars x)) x fp);
    rewrite ?accumulate_eq; cbn [byte_count data_size_in_nibble calc_cs
                                 record_type callback_fp];
    rewrite ?Htg; try assumption.
  cbn [snd calls]. reflexivity.
Qed.

Lemma framed_data_range r : rec_framed r = true -> Forall byte_range (rec_data r).
Proof.
  intros Hf. unfold rec_data. apply Forall_forall. intros v Hv.
  apply list_elem_of_fmap in Hv as (q & -> & Hq).
  apply list_elem_of_lookup in Hq as [i Hi].
  apply (framed_payload r i q Hf Hi).
Qed.

Lemma framed_address r : rec_framed r = true -> 0 <= rec_address r < 65536.
Proof.
  unfold rec_framed, rec_pairs, rec_header, rec_address. intros H.
  apply andb_true_iff in H as [H _]. cbn [app forallb] in H.
  apply andb_true_iff in H as [_ H].
  apply andb_true_iff in H as [Hah H].
  apply andb_true_iff in H as [Hal _].
  apply hex_pair_range in Hah, Hal. lia.
Qed.

(** An accepted digit in a count, address or first checksum state moves
    the decoder to the next state, whatever its value. *)
Lemma step_field_digit x b :
  1 <= state (vars x) <= 6 \/ state (vars x) = CHECKSUM_0_STATE ->
  hex_accepted b = true ->
  (ihex_step x (chr b)).1 = Continue
  /\ state (vars (ihex_step x (chr b)).2) = state (vars x) + 1.
Proof.
  destruct x as [[st bc alo ahi m rt d n t cs tg cb] w l]. cbn [vars state].
  intros Hst Hb.
  assert (C : st = 1 \/ st = 2 \/ st = 3 \/ st = 4 \/ st = 5 \/ st = 6 \/ st = 10)
    by (unfold CHECKSUM_0_STATE in Hst; lia).
  destruct C as [->|[->|[->|[->|[->|[->| ->]]]]]];
    rewrite step_hex_vars by (reflexivity || assumption);
    unfold dispatch; reduce_vars; split; reflexivity.
Qed.

(** An address record with a payload of any length: the bytes it lacks
    are read from the cleared buffer. *)
Lemma loop_address_any x r :
  state (vars x) = START_CODE_STATE -> rec_framed r = true ->
  rec_sum r mod 256 = 0 ->
  pair_val (rec_type r) = 2 \/ pair_val (rec_type r) = 4 ->
  exists x',
    ihex_loop x (rec_chars r) = (Continue, x')
    /\ state (vars x') = START_CODE_STATE
    /\ address_hi (vars x') =
       256 * default 0 (rec_data r !! 0%nat) + default 0 (rec_data r !! 1%nat)
    /\ 0 <= address_hi (vars x') < 65536
    /\ ex_segment_addr_mode (vars x') = (pair_val (rec_type r) =? 2)
    /\ callback_fp (vars x') = callback_fp (vars x)
    /\ world x' = world x /\ calls x' = calls x.
Proof.
  intros Hs Hf Hsum Hty.
  destruct (loop_address_record x r Hs Hf Hsum Hty)
    as (x' & L & S' & A & M & C & Wd & K).
  pose proof (framed_data_range r Hf) as Hr.
  assert (R : forall i : nat, 0 <= default 0 (rec_data r !! i) < 256).
  { intros i. destruct (rec_data r !! i) as [v|] eqn:E; cbn [default]; [|lia].
    apply (Forall_lookup_1 _ _ _ _ Hr E). }
  pose proof (data_at_data_of (rec_data r) 0) as D0.
  pose proof (data_at_data_of (rec_data r) 1) as D1.
  change (Z.of_nat 0) with 0 in D0. change (Z.of_nat 1) with 1 in D1.
  pose proof (R 0%nat) as R0. pose proof (R 1%nat) as R1.
  rewrite D0, D1 in A.
  rewrite (u16_small (default 0 (rec_data r !! 0%nat))) in A by lia.
  rewrite byte_join in A by lia. rewrite u16_small in A by lia.
  exists x'. rewrite A. repeat split; auto; lia.
Qed.

(** *** After a failure *)

(** The failing exits of the switch leave [state] as it was, and only the
    START_CODE_STATE arm fails with [BadStartCode]. *)
Lemma dispatch_failed_state s x c hc why x' :
  dispatch s x c hc = (ReturnFalse why, x') -> why <> BadStartCode ->
  state (vars x') <> START_CODE_STATE.
Proof.
  intros H N.
  destruct (Z_le_dec 0 (state s)) as [L|L];
    [destruct (Z_le_dec (state s) 11) as [U|U]|].
  - assert (Hst : 0 <= state s <= 11) by lia.
    dispatch_arms H Hst;
      try (cbn in H;
           repeat (match type of H with
                   | context [if ?b then _ else _] => destruct b
                   end);
           first [ discriminate H
                 | injection H as Hw <-;
                   first [ congruence
                         | unfold set_vars, set_record_type; cbn [vars state];
                           rewrite E; discriminate ] ]).
    destruct (checksum_1_cases _ _ _ _ H)
      as [(_ & -> & _)|[(_ & -> & _)|[(_ & _ & _ & F & _)|(_ & _ & _ & fp & _ & Hfp)]]];
      try discriminate F;
      try (unfold set_vars; cbn [vars state]; rewrite E; discriminate).
    cbv zeta in Hfp. destruct Hfp as [(_ & _ & ->)|(_ & F & _)];
      [cbn [vars state]; rewrite E; discriminate|discriminate F].
  - rewrite dispatch_default in H by lia. injection H as _ <-.
    unfold set_vars; cbn [vars state]. unfold START_CODE_STATE. lia.
  - rewrite dispatch_default in H by lia. injection H as _ <-.
    unfold set_vars; cbn [vars state]. unfold START_CODE_STATE. lia.
Qed.

Lemma step_failed_state x c why x' :
  ihex_step x c = (ReturnFalse why, x') -> why <> BadStartCode ->
  state (vars x') <> START_CODE_STATE.
Proof.
  intros H N.
  destruct (step_cases _ _ _ _ H)
    as [(_ & F & _)|[(_ & Hs & Hd)|[(_ & Hs & _ & _ & ->)
       |[(_ & _ & _ & Hd)|(_ & Hs & _ & ->)]]]].
  - discriminate F.
  - assert (Hq : state (set_calc_cs_toogle false (set_calc_cs 0 (vars x)))
                 = START_CODE_STATE) by exact Hs.
    unfold dispatch in Hd. rewrite Hq in Hd. cbv iota in Hd.
    destruct ((c =? chr CR) || (c =? chr LF)); [discriminate Hd|].
    destruct (c =? chr ":"); [discriminate Hd|].
    injection Hd as Hw _. congruence.
  - unfold START_CODE_STATE. lia.
  - exact (dispatch_failed_state _ _ _ _ _ _ Hd N).
  - unfold START_CODE_STATE. lia.
Qed.

Lemma loop_failed_state buf : forall x why,
  (ihex_loop x buf).1 = ReturnFalse why -> why <> BadStartCode ->
  state (vars (ihex_loop x buf).2) <> START_CODE_STATE.
Proof.
  induction buf as [|b buf IH]; intros x why H N; [discriminate H|].
  rewrite loop_cons in H |- *.
  destruct (ihex_step x (chr b)) as [[| |w] x1] eqn:Hstep; cbn [fst snd] in *.
  - exact (IH x1 why H N).
  - discriminate H.
  - injection H as ->. exact (step_failed_state _ _ _ _ Hstep N).
Qed.

(** Inside a record a start code and a line end are both refused, and
    the session stays as it is. *)
Lemma step_separator_inside x b :
  state (vars x) <> START_CODE_STATE -> b = ":"%byte \/ line_end b = true ->
  flow_ok (ihex_step x (chr b)).1 = false /\ (ihex_step x (chr b)).2 = x.
Proof.
  intros Hs Hb.
  assert (Hrej : not_nul b = true /\ hex_accepted b = false).
  { destruct Hb as [->|Hb]; [split; reflexivity|apply line_end_rejected; exact Hb]. }
  destruct Hrej as [Hn Ha].
  destruct (hex_state (state (vars x))) eqn:Hh.
  - rewrite (step_hex_rejected x b Hh Hn Ha). split; reflexivity.
  - unfold ihex_step. unfold not_nul in Hn.
    destruct (chr b =? 0); [discriminate Hn|].
    destruct (Z.eqb_spec (state (vars x)) START_CODE_STATE); [contradiction|].
    unfold hex_state in Hh. rewrite Hh.
    rewrite dispatch_default; [destruct x; split; reflexivity|].
    unfold START_CODE_STATE, BYTE_COUNT_0_STATE, CHECKSUM_1_STATE in *.
    apply andb_false_iff in Hh as [Hh|Hh]; apply Z.leb_gt in Hh; lia.
Qed.

(** *** A decoder without a consumer *)

Ltac split_ifs :=
  repeat match goal with
         | |- context [if ?b then _ else _] => destruct b
         end.

Lemma step_dry_run x c (fp : ihex_callback_fp W) (w0 : W) (l0 : list call) :
  callback_fp (vars x) = Some fp -> (forall w a d n, (fp w a d n).1 = true) ->
  let x0 := Session (set_callback_fp None (vars x)) w0 l0 in
  (ihex_step x0 c).1 = (ihex_step x c).1
  /\ (ihex_step x0 c).2 =
     Session (set_callback_fp None (vars (ihex_step x c).2)) w0 l0.
Proof.
  destruct x as [[st bc alo ahi m rt d n t cs tg cb] w l]. cbn [vars callback_fp].
  intros -> Hacc. cbv zeta. unfold ihex_step, set_callback_fp. cbn [vars state].
  destruct (c =? 0); [split; reflexivity|].
  destruct (Z.eqb_spec st START_CODE_STATE) as [E0|E0].
  { subst st. unfold dispatch. reduce_vars. split_ifs; split; reflexivity. }
  destruct (Z.leb_spec BYTE_COUNT_0_STATE st) as [L|L];
    [destruct (Z.leb_spec st CHECKSUM_1_STATE) as [U|U]|]; cbn [andb].
  - destruct (HexToDec c =? INVALID_HEX_CHAR); [split; reflexivity|].
    unfold BYTE_COUNT_0_STATE, CHECKSUM_1_STATE in *.
    assert (Hst : 0 <= st <= 11) by lia.
    destruct (state_cases st Hst)
      as [E|[E|[E|[E|[E|[E|[E|[E|[E|[E|[E|E]]]]]]]]]]];
      try (exfalso; unfold START_CODE_STATE in E0; lia); subst st;
      unfold accumulate; destruct tg; unfold dispatch; reduce_vars;
      try (split_ifs; split; reflexivity);
      unfold checksum_1, extended_address; reduce_vars;
      destruct (rt =? 2); try destruct (rt =? 4); reduce_vars;
      destruct (rt =? 0); split_ifs; try (split; reflexivity).
    all: match goal with
         | |- context [?f ?w1 ?a ?d1 ?n1] =>
             constr_eq f fp;
             pose proof (Hacc w1 a d1 n1) as Hok;
             destruct (fp w1 a d1 n1) as [ok w']; cbn [fst] in Hok; subst ok
         end; split; reflexivity.
  - rewrite !dispatch_default
      by (cbn [state]; unfold START_CODE_STATE, BYTE_COUNT_0_STATE, CHECKSUM_1_STATE in *; lia).
    split; reflexivity.
  - rewrite !dispatch_default
      by (cbn [state]; unfold START_CODE_STATE, BYTE_COUNT_0_STATE, CHECKSUM_1_STATE in *; lia).
    split; reflexivity.
Qed.

Lemma loop_dry_run buf (fp : ihex_callback_fp W) (w0 : W) (l0 : list call) :
  (forall w a d n, (fp w a d n).1 = true) ->
  forall x, callback_fp (vars x) = Some fp ->
  let x0 := Session (set_callback_fp None (vars x)) w0 l0 in
  (ihex_loop x0 buf).1 = (ihex_loop x buf).1
  /\ (ihex_loop x0 buf).2 =
     Session (set_callback_fp None (vars (ihex_loop x buf).2)) w0 l0.
Proof.
  intros Hacc. induction buf as [|b buf IH]; intros x Hcb; cbv zeta.
  { split; reflexivity. }
  rewrite !loop_cons.
  destruct (step_dry_run x (chr b) fp w0 l0 Hcb Hacc) as [F E].
  destruct (ihex_step x (chr b)) as [f x1] eqn:Hstep.
  destruct (ihex_step (Session (set_callback_fp None (vars x)) w0 l0) (chr b))
    as [f0 y] eqn:Hstep0.
  cbn [fst snd] in F, E. subst f0 y.
  destruct f; [|split; reflexivity|split; reflexivity].
  apply IH. rewrite (step_callback _ _ _ _ Hstep). exact Hcb.
Qed.

(** *** A checksum that comes late *)



End Facts.

(** * The properties of the decoder *)

Section Properties.

Context {W : Type}.
Implicit Types (x : session W) (s : ihex W) (b : byte) (buf : list byte).


(** C1 (as amended): after a validated extended linear address record
    with payload 10 00, a following valid data record at address field
    0020 is handed to the registered consumer with absolute address
    0x10000020, that is (0x1000 << 16) | 0x0020; after an extended segment
    address record with the same payload the address is
    (0x1000 << 4) + 0x0020 = 0x00010020. In both cases the consumer is
    invoked exactly once, with the payload of the data record. *)
Theorem extended_address_then_data x fp r1 sep r0 :
  state (vars x) = START_CODE_STATE ->
  callback_fp (vars x) = Some fp ->
  rec_framed r1 = true -> rec_sum r1 mod 256 = 0 ->
  rec_data r1 = [0x10; 0x00] ->
  forallb line_end sep = true ->
  rec_framed r0 = true -> rec_sum r0 mod 256 = 0 ->
  pair_val (rec_type r0) = 0 -> rec_address r0 = 0x0020 ->
  let buf := rec_chars r1 ++ sep ++ rec_chars r0 in
  let x' := (ihex_parser x buf (length buf)).2 in
  (pair_val (rec_type r1) = 4 ->
   calls x' = calls x ++ [Call 0x10000020 (data_of (rec_data r0))
                               (pair_val (rec_count r0))])
  /\ (pair_val (rec_type r1) = 2 ->
      calls x' = calls x ++ [Call 0x00010020 (data_of (rec_data r0))
                                  (pair_val (rec_count r0))]).
Proof.
  intros Hs Hcb Hf1 Hsum1 Hd1 Hsep Hf0 Hsum0 Ht0 Ha0 buf x'.
  assert (core : pair_val (rec_type r1) = 2 \/ pair_val (rec_type r1) = 4 ->
    calls x' = calls x ++
      [Call (if pair_val (rec_type r1) =? 2 then 0x00010020 else 0x10000020)
            (data_of (rec_data r0)) (pair_val (rec_count r0))]).
  { intros Hty.
    destruct (loop_address_record x r1 Hs Hf1 Hsum1 Hty)
      as (x1 & L1 & S1 & A1 & M1 & C1 & _ & K1).
    destruct (loop_line_ends sep x1 S1 Hsep)
      as (x2 & L2 & S2 & A2 & M2 & C2 & _ & K2).
    unfold x', buf. rewrite parser_all. cbn [snd].
    rewrite (loop_continue _ _ _ _ L1), (loop_continue _ _ _ _ L2).
    rewrite (loop_data_record x2 r0 fp S2 Hf0 Hsum0 Ht0)
      by (rewrite C2, C1; exact Hcb).
    rewrite K2, K1. do 3 f_equal.
    unfold TRANSFORM_ADDR. rewrite M2, M1, A2, A1, Hd1, Ha0.
    destruct Hty as [-> | ->]; vm_compute; reflexivity. }
  split; intros Hty; rewrite core, Hty; auto.
Qed.


(** C3: a null byte inside the count ends the call at once with success,
    also in the middle of a record: when the bytes before it were fed
    without failure and left the session [x'], the call on the whole
    buffer returns true with that same session, whatever follows the null
    byte. *)
Theorem nul_terminates x x' (pre post : list byte) (size : nat) :
  (length pre < size)%nat ->
  ihex_parser x pre (length pre) = (true, x') ->
  ihex_parser x (pre ++ NUL :: post) size = (true, x').
Proof.
  intros Hsize Hpre. rewrite parser_all in Hpre.
  unfold ihex_parser. rewrite take_app_ge by lia.
  destruct (size - length pre)%nat as [|k] eqn:E; [lia|].
  cbn [take]. rewrite loop_nul.
  destruct (ihex_loop x pre) as [[| |why] y]; cbn [fst snd flow_ok] in *;
    congruence.
Qed.

(** C4 (as amended): [HexToDec] maps '0'-'9' to 0-9, 'A'-'F' to 10-15 and
    'a'-'f' to 10-15; and a character other than the null byte that lies
    outside '0'-'9', 'A'-'F' and 'a'-'z', fed in a state that expects a
    hexadecimal digit, makes the call return false at once, with the
    session as it was. *)
Theorem hex_nibble_decoder :
  (forall b, between "0" "9" b = true -> hexval b = chr b - chr "0")
  /\ (forall b, between "A" "F" b = true -> hexval b = chr b - chr "A" + 10)
  /\ (forall b, between "a" "f" b = true -> hexval b = chr b - chr "a" + 10)
  /\ (forall x b rest size,
        hex_state (state (vars x)) = true -> b <> NUL ->
        between "0" "9" b = false -> between "A" "F" b = false ->
        between "a" "z" b = false -> (0 < size)%nat ->
        ihex_parser x (b :: rest) size = (false, x)).
Proof.
  unfold between, hexval.
  change (chr "0") with 48. change (chr "9") with 57.
  change (chr "A") with 65. change (chr "F") with 70.
  change (chr "a") with 97. change (chr "f") with 102. change (chr "z") with 122.
  repeat split.
  - intros b H. apply andb_true_iff in H as [H1 H2].
    apply HexToDec_digit. lia.
  - intros b H. apply andb_true_iff in H as [H1 H2].
    apply HexToDec_upper. lia.
  - intros b H. apply andb_true_iff in H as [H1 H2].
    apply HexToDec_lower. lia.
  - intros x b rest size Hs Hb H1 H2 H3 Hsize.
    assert (Hn : not_nul b = true).
    { unfold not_nul. destruct (Z.eqb_spec (chr b) 0) as [E|E]; [|reflexivity].
      apply chr_zero in E. contradiction. }
    assert (Ha : hex_accepted b = false).
    { unfold hex_accepted, hexval. rewrite HexToDec_other; [reflexivity| | |];
        intros [L U]; apply Z.leb_le in L, U; rewrite L, U in *; discriminate. }
    unfold ihex_parser. destruct size as [|k]; [lia|]. cbn [take].
    rewrite loop_cons, (step_hex_rejected x b Hs Hn Ha). reflexivity.
Qed.

(** C5: in one loop iteration the sticky fields [address_hi] and
    [ex_segment_addr_mode] change only when the iteration completes, in
    CHECKSUM_1_STATE and with success, a record of type 2 or 4; then
    [address_hi] becomes the big-endian 16-bit value of the first two
    payload bytes and the mode is segmented for type 2, linear for type
    4. Every other iteration, whatever the state, the byte and the record
    type, leaves both fields as they were; so does every whole record of
    another type (data, end of file, start address), whether it is
    accepted or not. A validated record of type 2 or 4 with the two
    payload bytes b0 b1 leaves [address_hi] = 256 * b0 + b1. *)
Theorem sticky_address :
  (forall x (c : Z) (f : flow) x',
     ihex_step x c = (f, x') ->
     (~ (state (vars x) = CHECKSUM_1_STATE
         /\ (record_type (vars x) = 2 \/ record_type (vars x) = 4)
         /\ f = Continue) ->
      address_hi (vars x') = address_hi (vars x)
      /\ ex_segment_addr_mode (vars x') = ex_segment_addr_mode (vars x))
     /\ (state (vars x) = CHECKSUM_1_STATE ->
         record_type (vars x) = 2 \/ record_type (vars x) = 4 ->
         f = Continue ->
         state (vars x') = START_CODE_STATE
         /\ address_hi (vars x') =
            u16 (Z.lor (Z.shiftl (u16 (data_at (data (vars x)) 0)) 8)
                       (data_at (data (vars x)) 1))
         /\ ex_segment_addr_mode (vars x') = (record_type (vars x) =? 2)))
  /\ (forall x r,
        state (vars x) = START_CODE_STATE ->
        rec_framed r = true -> rec_type_ok r = true ->
        hexval (rec_type r).2 <> 2 -> hexval (rec_type r).2 <> 4 ->
        let x' := (ihex_parser x (rec_chars r) (length (rec_chars r))).2 in
        address_hi (vars x') = address_hi (vars x)
        /\ ex_segment_addr_mode (vars x') = ex_segment_addr_mode (vars x))
  /\ (forall x r (b0 b1 : Z),
        state (vars x) = START_CODE_STATE ->
        rec_framed r = true -> rec_sum r mod 256 = 0 ->
        pair_val (rec_type r) = 2 \/ pair_val (rec_type r) = 4 ->
        rec_data r = [b0; b1] ->
        let x' := (ihex_parser x (rec_chars r) (length (rec_chars r))).2 in
        address_hi (vars x') = 256 * b0 + b1
        /\ ex_segment_addr_mode (vars x') = (pair_val (rec_type r) =? 2)).
Proof.
  split; [|split].
  - apply step_sticky.
  - intros x r Hs Hf Hok H2 H4 x'. unfold x'. rewrite parser_all. cbn [snd].
    apply loop_other_record; assumption.
  - intros x r b0 b1 Hs Hf Hsum Hty Hd x'. unfold x'. rewrite parser_all.
    cbn [snd]. apply loop_address_value; assumption.
Qed.

(** C6 (as amended): feeding a stream to a reset decoder, calling reset
    and feeding the same stream again invokes the consumer with the same
    arguments in the same order in both passes: the log after the second
    pass is the log of the first pass twice. This holds for every stream
    (so for every valid two-record stream) and every registered
    consumer, whatever it does to its own world, provided both calls
    return true; and for a consumer whose verdict does not depend on
    that world it holds for every stream, the second call then returning
    what the first one did. *)
Theorem reset_replay s (w : W) buf (size : nat) :
  let p1 := ihex_parser (Session (ihex_reset_state s) w []) buf size in
  let p2 := ihex_parser (set_vars (ihex_reset_state (vars p1.2)) p1.2) buf size in
  (p1.1 = true -> p2.1 = true -> calls p2.2 = calls p1.2 ++ calls p1.2)
  /\ ((forall fp, callback_fp s = Some fp -> stateless fp) ->
      p2.1 = p1.1 /\ calls p2.2 = calls p1.2 ++ calls p1.2).
Proof.
  unfold ihex_parser. set (l := take size buf).
  set (x0 := Session (ihex_reset_state s) w []).
  destruct (ihex_loop x0 l) as [f1 y1] eqn:L1. cbn [fst snd].
  set (x0' := set_vars (ihex_reset_state (vars y1)) y1).
  destruct (ihex_loop x0' l) as [f2 y2] eqn:L2. cbn [fst snd].
  assert (Hcb : callback_fp (vars y1) = callback_fp s).
  { replace y1 with (ihex_loop x0 l).2 by (rewrite L1; reflexivity).
    rewrite loop_callback. reflexivity. }
  assert (Ha : alike (vars x0) (vars x0')).
  { unfold alike. cbn. repeat split; auto; intros; exfalso; auto. }
  split.
  - intros F1 F2.
    destruct (loop_alike l x0 x0' Ha) as (d & D1 & D2);
      [rewrite L1; exact F1|rewrite L2; exact F2|].
    rewrite L1 in D1. rewrite L2 in D2. cbn in D1, D2.
    rewrite D2, D1. reflexivity.
  - intros Hst.
    destruct (loop_alike_stateless l x0 x0' Ha Hst) as (Hf & d & D1 & D2).
    rewrite L1 in Hf, D1. rewrite L2 in Hf, D2. cbn in Hf, D1, D2.
    rewrite D2, D1, Hf. split; reflexivity.
Qed.

(** C7 (as amended): every stream that contains a record declaring byte
    count 04 but carrying three payload pairs before its checksum pair
    and line terminator, and that has no null byte in front of the line
    terminator of that record, is rejected: the call returns false, from
    whatever session it starts and whatever surrounds the record. The
    characters of the record may be any but the null byte. *)
Theorem short_payload_rejected x (pre : list byte) r (term : byte)
    (rest : list byte) :
  forallb not_nul pre = true ->
  rec_count r = hx "0" "4" -> length (rec_payload r) = 3%nat ->
  forallb not_nul (rec_chars r) = true -> line_end term = true ->
  let buf := pre ++ rec_chars r ++ term :: rest in
  (ihex_parser x buf (length buf)).1 = false.
Proof.
  intros Hpre Hc Hlen Hnn Hterm buf. unfold buf.
  rewrite parser_all. cbn [fst]. rewrite loop_app.
  pose proof (loop_not_true pre x Hpre) as Hnt.
  destruct (ihex_loop x pre) as [[| |why] x1]; cbn [fst] in Hnt;
    [|contradiction|reflexivity].
  destruct (Z.eq_dec (state (vars x1)) START_CODE_STATE) as [E|E].
  - apply loop_short_record; assumption.
  - unfold rec_chars. cbn [app]. rewrite loop_cons.
    destruct (step_colon_inside x1 E) as [why ->]. reflexivity.
Qed.

(** C8: in every reachable session that is in DATA_STATE the byte index
    of the next write, [data_size_in_nibble / 2], is below [byte_count],
    which is at most 255; so the index is below the 255 bytes of the
    payload buffer. *)
Theorem data_index_in_bounds x :
  reachable x -> state (vars x) = DATA_STATE ->
  Z.shiftr (data_size_in_nibble (vars x)) 1 < byte_count (vars x)
  /\ byte_count (vars x) <= 255
  /\ 0 <= b_index (vars x) < IHEX_DATA_SIZE
  /\ (Z.to_nat (b_index (vars x)) < length (data (vars x)))%nat.
Proof.
  intros Hx Hst.
  destruct (reachable_consistent x Hx) as (_ & Hbc & Hlen & _ & H9 & _).
  destruct (H9 Hst) as [Hn0 Hn].
  assert (Hi : 0 <= Z.shiftr (data_size_in_nibble (vars x)) 1).
  { apply Z.shiftr_nonneg. exact Hn0. }
  unfold b_index. rewrite u8_small by lia.
  rewrite Hlen. unfold IHEX_DATA_SIZE. repeat split; lia.
Qed.

(** C9: the comparison of [byte_count] with the capacity of the payload
    buffer is false in every reachable session, and no call returns false
    through that branch. *)
Theorem byte_count_limit_dead x :
  reachable x ->
  (byte_count (vars x) >? IHEX_DATA_SIZE) = false
  /\ forall buf, (ihex_loop x buf).1 <> ReturnFalse ByteCountTooLarge.
Proof.
  intros Hx. pose proof (reachable_consistent x Hx) as Hc.
  split.
  - destruct Hc as (_ & Hbc & _). unfold IHEX_DATA_SIZE.
    destruct (Z.gtb_spec (byte_count (vars x)) 255); [lia|reflexivity].
  - intros buf. apply (loop_consistent_flow x buf Hc).
Qed.

(** C10: in every reachable session in CHECKSUM_1_STATE
    [data_size_in_nibble] is twice [byte_count], and no call returns
    false through the byte-count mismatch branch. *)
Theorem count_mismatch_dead x :
  reachable x ->
  (state (vars x) = CHECKSUM_1_STATE ->
   Z.shiftl (byte_count (vars x)) 1 = data_size_in_nibble (vars x))
  /\ forall buf, (ihex_loop x buf).1 <> ReturnFalse ByteCountMismatch.
Proof.
  intros Hx. pose proof (reachable_consistent x Hx) as Hc.
  split.
  - intros Hst. destruct Hc as (_ & _ & _ & _ & _ & H).
    rewrite shiftl1. symmetry. apply H. unfold CHECKSUM_1_STATE in Hst. lia.
  - intros buf. apply (loop_consistent_flow x buf Hc).
Qed.

End Properties.

(** * Worked instances *)

Example rec_linear_1000_chars : rec_chars rec_linear_1000 = text ":020000041000EA".
Proof. reflexivity. Qed.

Example rec_segment_1000_chars : rec_chars rec_segment_1000 = text ":020000021000EC".
Proof. reflexivity. Qed.

Example rec_data_0020_chars : rec_chars rec_data_0020 = text ":01002000558A".
Proof. reflexivity. Qed.

Example rec_short_chars : rec_chars rec_short = text ":0400100011223344".
Proof. reflexivity. Qed.

(** The end-to-end scenario of the specification: one data record of
    three bytes at address field 0030, then the end-of-file record. *)
Example end_to_end :
  let buf := text ":0300300002337A1E" ++ [CR; LF] ++ text ":00000001FF" ++ [CR; LF] in
  let r := ihex_parser listening buf (length buf) in
  r.1 = true /\ calls r.2 = [Call 0x30 (data_of [0x02; 0x33; 0x7A]) 3].
Proof. vm_compute. split; reflexivity. Qed.

(** C1, the claim as it stands: on :020000041000EA followed by
    :01002000558A the one invocation of the consumer has address
    0x10000020, not 0x00100020. *)
Lemma linear_address_counterexample :
  let x' := (ihex_parser listening two_records (length two_records)).2 in
  map call_addr (calls x') = [0x10000020]
  /\ ~ In 0x00100020 (map call_addr (calls x')).
Proof.
  vm_compute. split; [reflexivity|]. intros [H|[]]. discriminate H.
Qed.

Lemma extended_address_then_data_witness :
  let linear := rec_chars rec_linear_1000 ++ [CR; LF] ++ rec_chars rec_data_0020 in
  let segment := rec_chars rec_segment_1000 ++ [CR; LF] ++ rec_chars rec_data_0020 in
  calls (ihex_parser listening linear (length linear)).2
    = [] ++ [Call 0x10000020 (data_of [0x55]) 1]
  /\ calls (ihex_parser listening segment (length segment)).2
    = [] ++ [Call 0x00010020 (data_of [0x55]) 1].
Proof.
  split.
  - apply (extended_address_then_data listening accept_all rec_linear_1000
             [CR; LF] rec_data_0020); reflexivity.
  - apply (extended_address_then_data listening accept_all rec_segment_1000
             [CR; LF] rec_data_0020); reflexivity.
Defined.



Lemma nul_terminates_witness :
  ihex_parser fresh (text ":0000010" ++ NUL :: text "1FF") 12
  = (true, (ihex_loop fresh (text ":0000010")).2).
Proof.
  apply nul_terminates; [cbn; lia|vm_compute; reflexivity].
Defined.

(** C4, the claim as it stands: 'g' is mapped to 16, outside 10-15, and
    the null byte, which lies outside every range, returns true in a
    state that expects a hexadecimal digit. *)
Lemma hex_nibble_decoder_counterexample :
  ~ (10 <= hexval "g" <= 15)
  /\ hex_state (state (vars after_start_code)) = true
  /\ (ihex_parser after_start_code [NUL] 1).1 = true.
Proof.
  split; [vm_compute; intros [_ H]; apply H; reflexivity|].
  split; reflexivity.
Qed.

Lemma hex_nibble_decoder_witness :
  hexval "7" = chr "7" - chr "0"
  /\ hexval "C" = chr "C" - chr "A" + 10
  /\ hexval "e" = chr "e" - chr "a" + 10
  /\ ihex_parser after_start_code ("-"%byte :: text "00") 3
     = (false, after_start_code).
Proof.
  destruct (@hex_nibble_decoder unit) as (H1 & H2 & H3 & H4).
  split; [apply H1; reflexivity|].
  split; [apply H2; reflexivity|].
  split; [apply H3; reflexivity|].
  apply H4; [reflexivity|discriminate|reflexivity|reflexivity|reflexivity|lia].
Defined.

Lemma sticky_address_witness :
  let y := (ihex_step in_data_state (chr "1")).2 in
  let z := (ihex_step before_last_digit (chr "A")).2 in
  let d := (ihex_parser z (rec_chars rec_data_0020)
                        (length (rec_chars rec_data_0020))).2 in
  (address_hi (vars y) = address_hi (vars in_data_state)
   /\ ex_segment_addr_mode (vars y) = ex_segment_addr_mode (vars in_data_state))
  /\ (state (vars z) = START_CODE_STATE
      /\ address_hi (vars z) = 0x1000
      /\ ex_segment_addr_mode (vars z) = false)
  /\ (address_hi (vars d) = address_hi (vars z)
      /\ ex_segment_addr_mode (vars d) = ex_segment_addr_mode (vars z))
  /\ (let a := (ihex_parser fresh (rec_chars rec_segment_1000)
                            (length (rec_chars rec_segment_1000))).2 in
      address_hi (vars a) = 256 * 0x10 + 0x00
      /\ ex_segment_addr_mode (vars a) = (pair_val (rec_type rec_segment_1000) =? 2)).
Proof.
  destruct (@sticky_address unit) as (Hstep & Hrec & Hset).
  split; [|split; [|split]].
  - refine (proj1 (Hstep in_data_state (chr "1") Continue _ _) _);
      [vm_compute; reflexivity|].
    intros [E _]. vm_compute in E. discriminate E.
  - refine (proj2 (Hstep before_last_digit (chr "A") Continue _ _) _ _ _);
      [vm_compute; reflexivity|reflexivity|right; reflexivity|reflexivity].
  - apply (Hrec (ihex_step before_last_digit (chr "A")).2 rec_data_0020
             eq_refl eq_refl eq_refl);
      vm_compute; discriminate.
  - apply (Hset fresh rec_segment_1000 0x10 0x00 eq_refl eq_refl eq_refl);
      [left; reflexivity|reflexivity].
Defined.

(** C6, the claim as it stands: with a consumer that accepts two blocks
    and refuses the third, the first pass over two data records returns
    true after two invocations, and the second pass, after a reset,
    returns false after one. *)
Lemma reset_replay_counterexample :
  let block := Call 0x0020 (data_of [0x55]) 1 in
  let p1 := ihex_parser (set_vars (ihex_reset_state (vars counting)) counting)
                        two_data_records (length two_data_records) in
  let p2 := ihex_parser (set_vars (ihex_reset_state (vars p1.2)) p1.2)
                        two_data_records (length two_data_records) in
  p1.1 = true /\ calls p1.2 = [block; block]
  /\ p2.1 = false /\ calls p2.2 = calls p1.2 ++ [block]
  /\ calls p2.2 <> calls p1.2 ++ calls p1.2.
Proof.
  vm_compute. split; [reflexivity|]. split; [reflexivity|].
  split; [reflexivity|]. split; [reflexivity|]. discriminate.
Qed.

Lemma reset_replay_witness :
  let s := ihex_set_callback_func (Some accept_all) ihex_init in
  let p1 := ihex_parser (Session (ihex_reset_state s) tt []) two_records
                        (length two_records) in
  let p2 := ihex_parser (set_vars (ihex_reset_state (vars p1.2)) p1.2) two_records
                        (length two_records) in
  calls p1.2 = [Call 0x10000020 (data_of [0x55]) 1]
  /\ calls p2.2 = calls p1.2 ++ calls p1.2
  /\ (p2.1 = p1.1 /\ calls p2.2 = calls p1.2 ++ calls p1.2).
Proof.
  split; [vm_compute; reflexivity|].
  split.
  - apply (proj1 (reset_replay (ihex_set_callback_func (Some accept_all) ihex_init)
                    tt two_records (length two_records)));
      vm_compute; reflexivity.
  - apply (proj2 (reset_replay (ihex_set_callback_func (Some accept_all) ihex_init)
                    tt two_records (length two_records))).
    intros fp E. injection E as <-. intros w w' a d n. reflexivity.
Defined.

(** C7, the claim as it stands: a null byte in front of the record ends
    the call with success before the record is read. *)
Lemma short_payload_rejected_counterexample :
  let buf := NUL :: rec_chars rec_short ++ [CR; LF] in
  (ihex_parser fresh buf (length buf)).1 = true.
Proof. reflexivity. Qed.

Lemma short_payload_rejected_witness :
  let buf := [] ++ rec_chars rec_short ++ CR :: [LF] in
  (ihex_parser fresh buf (length buf)).1 = false.
Proof.
  apply (short_payload_rejected fresh [] rec_short CR [LF]); reflexivity.
Defined.

Lemma data_index_in_bounds_witness :
  state (vars in_data_state) = DATA_STATE
  /\ Z.shiftr (data_size_in_nibble (vars in_data_state)) 1
     < byte_count (vars in_data_state)
  /\ byte_count (vars in_data_state) <= 255
  /\ 0 <= b_index (vars in_data_state) < IHEX_DATA_SIZE
  /\ (Z.to_nat (b_index (vars in_data_state))
      < length (data (vars in_data_state)))%nat.
Proof.
  split; [reflexivity|].
  apply data_index_in_bounds; [|reflexivity].
  exact (reachable_loop fresh (text ":02000004") (reach_init tt)).
Defined.

Lemma byte_count_limit_dead_witness :
  (byte_count (vars in_data_state) >? IHEX_DATA_SIZE) = false
  /\ (ihex_loop in_data_state (text "1000EA")).1 <> ReturnFalse ByteCountTooLarge.
Proof.
  destruct (byte_count_limit_dead in_data_state
              (reachable_loop fresh (text ":02000004") (reach_init tt)))
    as [Hcmp Hrun].
  split; [exact Hcmp|apply Hrun].
Defined.

Lemma count_mismatch_dead_witness :
  state (vars before_last_digit) = CHECKSUM_1_STATE
  /\ Z.shiftl (byte_count (vars before_last_digit)) 1
     = data_size_in_nibble (vars before_last_digit)
  /\ (ihex_loop before_last_digit (text "A")).1 <> ReturnFalse ByteCountMismatch.
Proof.
  destruct (count_mismatch_dead before_last_digit
              (reachable_loop fresh (text ":020000041000E") (reach_init tt)))
    as [Heq Hrun].
  split; [reflexivity|]. split; [apply Heq; reflexivity|apply Hrun].
Defined.

(** * Further properties of the decoder *)

Section Extras.

Context {W : Type}.
Implicit Types (x : session W) (s : ihex W) (b : byte) (buf : list byte).

(** X1: a data record with a good checksum, read by a decoder that has a
    consumer, calls the consumer exactly once, with the absolute address,
    the payload followed by zeros and the byte count; the call returns the
    consumer's verdict. After an accepted block the decoder awaits the
    next start code, after a refused one it stays in CHECKSUM_1_STATE. *)
Theorem data_record_delivered x r (fp : ihex_callback_fp W) :
  state (vars x) = START_CODE_STATE -> rec_framed r = true ->
  rec_sum r mod 256 = 0 -> pair_val (rec_type r) = 0 ->
  callback_fp (vars x) = Some fp ->
  let address := TRANSFORM_ADDR (vars x) (address_hi (vars x)) (rec_address r) in
  let v := fp (world x) address (data_of (rec_data r)) (pair_val (rec_count r)) in
  let res := ihex_parser x (rec_chars r) (length (rec_chars r)) in
  res.1 = v.1
  /\ calls res.2 =
     calls x ++ [Call address (data_of (rec_data r)) (pair_val (rec_count r))]
  /\ world res.2 = v.2
  /\ state (vars res.2) = (if v.1 then START_CODE_STATE else CHECKSUM_1_STATE)
  /\ address_hi (vars res.2) = address_hi (vars x)
  /\ ex_segment_addr_mode (vars res.2) = ex_segment_addr_mode (vars x).
Proof.
  intros Hs Hf Hsum Hty Hcb. cbv zeta.
  rewrite parser_all, (loop_data_delivery x r fp Hs Hf Hsum Hty Hcb).
  cbn [fst snd vars world calls].
  destruct (fp _ _ _ _).1; repeat split; reflexivity.
Qed.

(** X2: the decoder does not leave CHECKSUM_1_STATE when the consumer
    refuses a block, so the next character it accepts as a hexadecimal
    digit runs the checks again and hands the consumer the same block a
    second time. *)
Theorem refused_block_redelivered x r (fp : ihex_callback_fp W) b :
  state (vars x) = START_CODE_STATE -> rec_framed r = true ->
  rec_sum r mod 256 = 0 -> pair_val (rec_type r) = 0 ->
  callback_fp (vars x) = Some fp ->
  let address := TRANSFORM_ADDR (vars x) (address_hi (vars x)) (rec_address r) in
  let block := Call address (data_of (rec_data r)) (pair_val (rec_count r)) in
  let v := fp (world x) address (data_of (rec_data r)) (pair_val (rec_count r)) in
  let x1 := (ihex_parser x (rec_chars r) (length (rec_chars r))).2 in
  v.1 = false -> hex_accepted b = true ->
  calls (ihex_parser x1 [b] 1).2 = calls x ++ [block; block].
Proof.
  intros Hs Hf Hsum Hty Hcb. cbv zeta. intros Hv Hb.
  destruct (type_zero_ok r Hf Hty) as [_ N2].
  rewrite (parser_all x (rec_chars r)),
    (loop_data_delivery x r fp Hs Hf Hsum Hty Hcb), Hv.
  cbn [snd]. unfold ihex_parser. cbn [take ihex_loop].
  match goal with
  | |- context [ihex_step ?y (chr b)] =>
      pose proof (step_redelivers y b fp eq_refl eq_refl Hsum (shiftl1 _) N2 Hcb Hb)
        as Hre;
      destruct (ihex_step y (chr b)) as [[| |why] y'] eqn:Hstep
  end; cbn [snd calls vars] in *; rewrite Hre;
    cbn [at_checksum data data_size_in_nibble address_hi address_lo];
    rewrite half_even, <- app_assoc; reflexivity.
Qed.

(** X3: a record with a good checksum that is not a data record, or any
    such record while no consumer is registered, is accepted without a
    call of the consumer: the call returns true, the world is untouched
    and the decoder awaits the next start code. *)
Theorem record_without_delivery x r :
  state (vars x) = START_CODE_STATE -> rec_framed r = true ->
  rec_type_ok r = true -> rec_sum r mod 256 = 0 ->
  hexval (rec_type r).2 <> 0 \/ callback_fp (vars x) = None ->
  let res := ihex_parser x (rec_chars r) (length (rec_chars r)) in
  res.1 = true /\ calls res.2 = calls x /\ world res.2 = world x
  /\ state (vars res.2) = START_CODE_STATE.
Proof.
  intros Hs Hf Hok Hsum Hsil. cbv zeta.
  rewrite parser_all, (loop_silent_record x r Hs Hf Hok Hsum Hsil).
  repeat split.
Qed.

(** X4: a record whose type field has a nonzero first digit, or a second
    digit other than 0..5 and E, is refused when that field is read:
    the call returns false, whatever follows, no payload has been stored,
    the consumer is not called and the sticky address is kept. *)
Theorem bad_type_refused x r (rest : list byte) :
  state (vars x) = START_CODE_STATE ->
  forallb hex_pair (rec_header r) = true -> rec_type_ok r = false ->
  let res := ihex_parser x (rec_chars r ++ rest) (length (rec_chars r ++ rest)) in
  res.1 = false
  /\ calls res.2 = calls x /\ world res.2 = world x
  /\ address_hi (vars res.2) = address_hi (vars x)
  /\ ex_segment_addr_mode (vars res.2) = ex_segment_addr_mode (vars x)
  /\ data_size_in_nibble (vars res.2) = 0.
Proof.
  intros Hs Hh Hty. cbv zeta. rewrite parser_all. cbn [fst snd].
  destruct (loop_bad_type x r rest Hs Hh Hty) as (F & K & Wd & A & M & N).
  rewrite F. repeat split; assumption.
Qed.

(** X5: carriage returns and line feeds in front of a record are skipped:
    for a decoder that awaits a start code, a stream preceded by any
    number of them gives the same result, the same calls of the consumer
    and the same world as the stream alone, and leaves the same state and
    sticky address. *)
Theorem blank_lines_skipped x (sep : list byte) buf :
  state (vars x) = START_CODE_STATE -> forallb line_end sep = true ->
  let r1 := ihex_parser x (sep ++ buf) (length (sep ++ buf)) in
  let r2 := ihex_parser x buf (length buf) in
  r1.1 = r2.1 /\ calls r1.2 = calls r2.2 /\ world r1.2 = world r2.2
  /\ state (vars r1.2) = state (vars r2.2)
  /\ address_hi (vars r1.2) = address_hi (vars r2.2)
  /\ ex_segment_addr_mode (vars r1.2) = ex_segment_addr_mode (vars r2.2).
Proof.
  intros Hs Hsep. cbv zeta. rewrite !parser_all. cbn [fst snd].
  destruct (loop_line_ends sep x Hs Hsep)
    as (x' & L & S' & A' & M' & C' & W' & K').
  rewrite (loop_continue _ _ _ _ L).
  assert (Ha : alike (vars x') (vars x)).
  { unfold alike. rewrite S', Hs.
    split; [reflexivity|]. split; [exact A'|]. split; [exact M'|].
    split; [exact C'|]. intros N. contradiction. }
  destruct (loop_alike_world buf x' x Ha W') as (F & (E1 & E2 & E3 & _) & Wd & k & K1 & K2).
  rewrite F, K1, K2, K'. repeat split; assumption.
Qed.

(** X6: where the decoder awaits a start code, a byte other than null,
    carriage return, line feed and colon makes the call return false at
    once; the consumer is not called and the sticky address is kept. *)
Theorem garbage_before_start_code x b (rest : list byte) (size : nat) :
  state (vars x) = START_CODE_STATE ->
  not_nul b = true -> line_end b = false -> b <> ":"%byte -> (0 < size)%nat ->
  let res := ihex_parser x (b :: rest) size in
  res.1 = false /\ calls res.2 = calls x /\ world res.2 = world x
  /\ state (vars res.2) = START_CODE_STATE
  /\ address_hi (vars res.2) = address_hi (vars x)
  /\ ex_segment_addr_mode (vars res.2) = ex_segment_addr_mode (vars x).
Proof.
  intros Hs Hn Hl Hc Hsize. cbv zeta.
  unfold ihex_parser. destruct size as [|k]; [lia|]. cbn [take ihex_loop].
  unfold ihex_step, not_nul, line_end in *.
  destruct (chr b =? 0); [discriminate Hn|].
  rewrite Hs. cbn [Z.eqb START_CODE_STATE]. unfold dispatch. cbn [state set_calc_cs_toogle set_calc_cs].
  rewrite Hs. cbv iota. rewrite Hl.
  destruct (Z.eqb_spec (chr b) (chr ":")) as [E|E].
  { apply chr_inj in E. contradiction. }
  cbn. rewrite Hs. repeat split.
Qed.

(** X7: the decoder can be fed in pieces. When a first piece without a
    null byte has been fed with success, feeding the second piece to the
    session it left is the same as feeding both pieces in one call; when
    the first piece fails, so does the whole, with the same session. *)
Theorem feed_in_chunks x buf1 buf2 :
  forallb not_nul buf1 = true ->
  let r1 := ihex_parser x buf1 (length buf1) in
  let whole := ihex_parser x (buf1 ++ buf2) (length (buf1 ++ buf2)) in
  (r1.1 = true -> whole = ihex_parser r1.2 buf2 (length buf2))
  /\ (r1.1 = false -> whole = r1).
Proof.
  intros Hnn. cbv zeta. rewrite !parser_all, loop_app.
  pose proof (loop_not_true buf1 x Hnn) as Hnt.
  destruct (ihex_loop x buf1) as [[| |why] x1]; cbn [fst snd flow_ok] in *.
  - split; [reflexivity|discriminate].
  - contradiction.
  - split; [discriminate|reflexivity].
Qed.

(** X8: reset recovers the decoder from whatever it was doing. After
    [ihex_reset_state] any stream gives the same result, the same calls
    of the consumer and the same world as on a decoder that was just
    started and given the same consumer, and it leaves the same state and
    sticky address. *)
Theorem reset_recovers s (w : W) (log : list call) buf (size : nat) :
  let r1 := ihex_parser (Session (ihex_reset_state s) w log) buf size in
  let r2 := ihex_parser
              (Session (ihex_set_callback_func (callback_fp s) ihex_init) w log)
              buf size in
  r1.1 = r2.1 /\ calls r1.2 = calls r2.2 /\ world r1.2 = world r2.2
  /\ state (vars r1.2) = state (vars r2.2)
  /\ address_hi (vars r1.2) = address_hi (vars r2.2)
  /\ ex_segment_addr_mode (vars r1.2) = ex_segment_addr_mode (vars r2.2).
Proof.
  cbv zeta. unfold ihex_parser. set (l := take size buf).
  set (x1 := Session (ihex_reset_state s) w log).
  set (x2 := Session (ihex_set_callback_func (callback_fp s) ihex_init) w log).
  assert (Ha : alike (vars x1) (vars x2)).
  { unfold alike. cbn.
    split; [reflexivity|]. split; [reflexivity|]. split; [reflexivity|].
    split; [reflexivity|]. intros N. contradiction. }
  destruct (loop_alike_world l x1 x2 Ha eq_refl)
    as (F & (E1 & E2 & E3 & _) & Wd & k & K1 & K2).
  destruct (ihex_loop x1 l) as [f1 y1]. destruct (ihex_loop x2 l) as [f2 y2].
  cbn [fst snd] in *. rewrite F, K1, K2. repeat split; assumption.
Qed.

(** X9: [HexToDec] accepts exactly the characters '0'-'9', 'A'-'F' and
    'a'-'z'; no accepted character decodes to the value that stands for
    an invalid one, every decoded value being at most 35. The letters
    'g'-'z' decode to 16..35, and in a count, address or first checksum
    state the decoder takes such a letter as a digit and moves on. *)
Theorem wide_digit_acceptance :
  (forall b, hex_accepted b =
             between "0" "9" b || between "A" "F" b || between "a" "z" b)
  /\ (forall b, hex_accepted b = true -> 0 <= hexval b <= 35)
  /\ (forall b, between "g" "z" b = true ->
                hexval b = chr b - chr "a" + 10 /\ 16 <= hexval b)
  /\ (forall x b,
        1 <= state (vars x) <= 6 \/ state (vars x) = CHECKSUM_0_STATE ->
        between "g" "z" b = true ->
        (ihex_step x (chr b)).1 = Continue
        /\ state (vars (ihex_step x (chr b)).2) = state (vars x) + 1).
Proof.
  assert (wide : forall b, between "g" "z" b = true ->
                           hexval b = chr b - 97 + 10 /\ 16 <= hexval b).
  { intros b Hb. unfold between in Hb. apply andb_true_iff in Hb as [L U].
    apply Z.leb_le in L, U. change (chr "g") with 103 in L.
    change (chr "z") with 122 in U.
    unfold hexval. rewrite HexToDec_lower by lia. lia. }
  split; [|split; [|split]].
  - intros b. unfold hex_accepted, hexval, between.
    change (chr "0") with 48. change (chr "9") with 57.
    change (chr "A") with 65. change (chr "F") with 70.
    change (chr "a") with 97. change (chr "z") with 122.
    destruct (Z.leb_spec 48 (chr b)); destruct (Z.leb_spec (chr b) 57);
      destruct (Z.leb_spec 65 (chr b)); destruct (Z.leb_spec (chr b) 70);
      destruct (Z.leb_spec 97 (chr b)); destruct (Z.leb_spec (chr b) 122);
      try lia; cbn [andb orb];
      first [ rewrite HexToDec_digit by lia
            | rewrite HexToDec_upper by lia
            | rewrite HexToDec_lower by lia
            | rewrite HexToDec_other by lia ];
      unfold INVALID_HEX_CHAR; change (chr "x") with 120;
      try reflexivity;
      match goal with
      | |- negb (?v =? 120) = true =>
          destruct (Z.eqb_spec v 120); [lia|reflexivity]
      end.
  - intros b Hb. unfold hex_accepted in Hb. apply negb_true_iff in Hb.
    apply Z.eqb_neq in Hb.
    pose proof (HexToDec_accepted_range (chr b) Hb). unfold hexval. lia.
  - intros b Hb. destruct (wide b Hb). split; [|assumption].
    change (chr "a") with 97. assumption.
  - intros x b Hst Hb. apply step_field_digit; [exact Hst|].
    destruct (wide b Hb) as [_ Hv]. unfold hex_accepted.
    apply negb_true_iff, Z.eqb_neq.
    destruct (HexToDec_range (chr b)) as [R|R]; unfold hexval in *.
    + unfold INVALID_HEX_CHAR. change (chr "x") with 120. lia.
    + exfalso. unfold between in Hb. apply andb_true_iff in Hb as [L U].
      apply Z.leb_le in L, U. change (chr "g") with 103 in L.
      change (chr "z") with 122 in U.
      rewrite HexToDec_lower in R by lia.
      unfold INVALID_HEX_CHAR in R. change (chr "x") with 120 in R. lia.
Qed.

(** X10: the decoder does not tell the case of the letters A-F apart: a
    lower-case letter a-f decodes to the value of its capital, and a
    record that agrees with a well-formed record digit by digit in value
    is read exactly as that record is. *)
Theorem letter_case_ignored :
  (forall b b', between "A" "F" b = true -> chr b' = chr b + 32 ->
                hexval b' = hexval b)
  /\ (forall x r r',
        state (vars x) = START_CODE_STATE ->
        rec_framed r = true -> rec_type_ok r = true -> same_digits r r' ->
        ihex_parser x (rec_chars r') (length (rec_chars r'))
        = ihex_parser x (rec_chars r) (length (rec_chars r))).
Proof.
  split.
  - intros b b' Hb E. unfold between in Hb. apply andb_true_iff in Hb as [L U].
    apply Z.leb_le in L, U. change (chr "A") with 65 in L.
    change (chr "F") with 70 in U. unfold hexval.
    rewrite E, HexToDec_lower, HexToDec_upper by lia. lia.
  - intros x r r' Hs Hf Hok Hsame.
    rewrite !parser_all, (loop_same_digits x r r' Hs Hf Hok Hsame). reflexivity.
Qed.

(** X11: for 16-bit operands the macro [TRANSFORM_ADDR] never wraps: in
    segment mode the absolute address is 16 * hi + lo, else it is
    65536 * hi + lo; it lies within 32 bits, and with [address_hi] = 0
    it is the address field of the record itself. *)
Theorem absolute_address_closed_form s (hi lo : Z) :
  0 <= hi < 65536 -> 0 <= lo < 65536 ->
  TRANSFORM_ADDR s hi lo =
    (if ex_segment_addr_mode s then 16 * hi + lo else 65536 * hi + lo)
  /\ 0 <= TRANSFORM_ADDR s hi lo < 4294967296
  /\ (hi = 0 -> TRANSFORM_ADDR s hi lo = lo).
Proof.
  intros Hhi Hlo. split; [apply TRANSFORM_ADDR_closed; assumption|].
  split; [apply TRANSFORM_ADDR_range|].
  intros ->. rewrite TRANSFORM_ADDR_closed by lia.
  destruct (ex_segment_addr_mode s); lia.
Qed.

(** X12: an extended address record of type 2 or 4 with a payload of any
    length sets the upper address to 256 * d0 + d1, where d0 and d1 are
    its first two payload bytes, a byte the record lacks counting as 0.
    A data record that follows, after any line ends, is handed to the
    consumer at 16 * upper + field after type 2 and at
    65536 * upper + field after type 4. *)
Theorem extended_address_applied x (fp : ihex_callback_fp W) r1 (sep : list byte) r0 :
  state (vars x) = START_CODE_STATE -> callback_fp (vars x) = Some fp ->
  rec_framed r1 = true -> rec_sum r1 mod 256 = 0 ->
  pair_val (rec_type r1) = 2 \/ pair_val (rec_type r1) = 4 ->
  forallb line_end sep = true ->
  rec_framed r0 = true -> rec_sum r0 mod 256 = 0 -> pair_val (rec_type r0) = 0 ->
  let upper :=
    256 * default 0 (rec_data r1 !! 0%nat) + default 0 (rec_data r1 !! 1%nat) in
  let buf := rec_chars r1 ++ sep ++ rec_chars r0 in
  let x' := (ihex_parser x buf (length buf)).2 in
  calls x' = calls x ++
    [Call (if pair_val (rec_type r1) =? 2 then 16 * upper + rec_address r0
           else 65536 * upper + rec_address r0)
          (data_of (rec_data r0)) (pair_val (rec_count r0))]
  /\ address_hi (vars x') = upper
  /\ 0 <= upper < 65536.
Proof.
  intros Hs Hcb Hf1 Hsum1 Hty Hsep Hf0 Hsum0 Ht0. cbv zeta.
  destruct (loop_address_any x r1 Hs Hf1 Hsum1 Hty)
    as (x1 & L1 & S1 & A1 & R1 & M1 & C1 & _ & K1).
  destruct (loop_line_ends sep x1 S1 Hsep)
    as (x2 & L2 & S2 & A2 & M2 & C2 & _ & K2).
  assert (Hcb2 : callback_fp (vars x2) = Some fp) by (rewrite C2, C1; exact Hcb).
  assert (Hhi : 0 <= address_hi (vars x2) < 65536) by (rewrite A2; exact R1).
  rewrite parser_all. cbn [snd].
  rewrite (loop_continue _ _ _ _ L1), (loop_continue _ _ _ _ L2).
  rewrite (loop_data_delivery x2 r0 fp S2 Hf0 Hsum0 Ht0 Hcb2).
  cbn [snd calls vars].
  rewrite (TRANSFORM_ADDR_closed (vars x2)) by
    (try exact Hhi; apply framed_address; exact Hf0).
  rewrite M2, M1, K2, K1, A2. rewrite A1 in R1 |- *.
  split; [reflexivity|]. split; [|exact R1].
  destruct (fp _ _ _ _).1; cbn; rewrite A2; exact A1.
Qed.

(** X13: the decoder never leaves the twelve states of its switch, so
    the default arm of the switch is never taken: no call returns false
    through it. *)
Theorem default_arm_dead x :
  reachable x ->
  0 <= state (vars x) <= CHECKSUM_1_STATE
  /\ forall buf, (ihex_loop x buf).1 <> ReturnFalse BadState.
Proof.
  intros Hx. pose proof (reachable_consistent x Hx) as Hc.
  split; [exact (proj1 Hc)|].
  intros buf. apply loop_no_bad_state. exact Hc.
Qed.

(** X14: one loop iteration calls the consumer at most once, and only in
    CHECKSUM_1_STATE for a record of type 0 whose byte count and checksum
    have both been verified; the call gets the absolute address, the
    payload buffer and half the nibble count. Every other iteration
    leaves the log of calls and the consumer's world as they were. *)
Theorem delivery_only_after_validation x (c : Z) (f : flow) x' :
  ihex_step x c = (f, x') ->
  calls x' <> calls x \/ world x' <> world x ->
  state (vars x) = CHECKSUM_1_STATE /\ record_type (vars x) = 0
  /\ Z.shiftl (byte_count (vars x)) 1 = data_size_in_nibble (vars x)
  /\ calc_cs (accumulate (HexToDec c) (vars x)) = 0
  /\ exists fp,
      callback_fp (vars x) = Some fp
      /\ let address :=
           TRANSFORM_ADDR (vars x) (address_hi (vars x)) (address_lo (vars x)) in
         let len := Z.shiftr (data_size_in_nibble (vars x)) 1 in
         let v := fp (world x) address (data (vars x)) len in
         calls x' = calls x ++ [Call address (data (vars x)) len]
         /\ world x' = v.2
         /\ f = (if v.1 then Continue else ReturnFalse CallbackRejected).
Proof.
  intros Hstep Hch.
  destruct (step_delivery x c f x' Hstep) as [[K Wd]|H]; [|exact H].
  destruct Hch as [N|N]; contradiction.
Qed.

(** X15: in every reachable session the record type is one of 0..5 and
    14, the pending nibble is below 36 and the nibble counter is at most
    510, as the comment at its declaration says; both address halves are
    below 65536, and every byte of the payload buffer and the running
    checksum are below 256, the decoder reducing what it stores there to
    the width of the C type at each assignment. *)
Theorem variables_in_range x : reachable x -> ranged (vars x).
Proof. apply reachable_ranged. Qed.

(** X16: every call of the consumer made since the decoder was started
    has an absolute address within 32 bits, a buffer of
    [IHEX_DATA_SIZE] bytes, each below 256, and a length of at most
    255, so a length within the buffer. *)
Theorem consumer_arguments_in_range x :
  reachable x -> Forall good_call (calls x).
Proof. apply reachable_good_calls. Qed.

(** X17: a failed call does not reset the decoder. When a call has
    returned false for any reason other than a bad start code, the
    decoder is left inside the record, and a next call whose first byte
    is a start code or a line end returns false at that byte, without
    any change. *)
Theorem separator_refused_after_failure x buf (b : byte) (rest : list byte) (size : nat) why :
  (ihex_loop x buf).1 = ReturnFalse why -> why <> BadStartCode ->
  b = ":"%byte \/ line_end b = true -> (0 < size)%nat ->
  let x1 := (ihex_parser x buf (length buf)).2 in
  state (vars x1) <> START_CODE_STATE
  /\ ihex_parser x1 (b :: rest) size = (false, x1).
Proof.
  intros H N Hb Hsize. cbv zeta. rewrite parser_all. cbn [snd].
  pose proof (loop_failed_state buf x why H N) as Hs.
  split; [exact Hs|].
  destruct (step_separator_inside _ b Hs Hb) as [F E].
  unfold ihex_parser. destruct size as [|k]; [lia|]. cbn [take ihex_loop].
  destruct (ihex_step (ihex_loop x buf).2 (chr b)) as [[| |w] y];
    cbn [fst snd flow_ok] in *; try discriminate F.
  rewrite E. reflexivity.
Qed.

(** X18: validation does not depend on the consumer. A decoder whose
    consumer has been taken away with [ihex_set_callback_func] returns,
    on every stream, what the decoder returns with a consumer that
    accepts every block, and ends with the same variables; it makes no
    call and leaves the world alone. *)
Theorem dry_run_agrees x (fp : ihex_callback_fp W) (w0 : W) (l0 : list call)
    buf (size : nat) :
  callback_fp (vars x) = Some fp -> (forall w a d n, (fp w a d n).1 = true) ->
  let real := ihex_parser x buf size in
  let dry :=
    ihex_parser (Session (ihex_set_callback_func None (vars x)) w0 l0) buf size in
  dry.1 = real.1
  /\ vars dry.2 = ihex_set_callback_func None (vars real.2)
  /\ world dry.2 = w0 /\ calls dry.2 = l0.
Proof.
  intros Hcb Hacc. cbv zeta. unfold ihex_parser, ihex_set_callback_func.
  destruct (loop_dry_run (take size buf) fp w0 l0 Hacc x Hcb) as [F E].
  destruct (ihex_loop x (take size buf)) as [f x1].
  destruct (ihex_loop _ (take size buf)) as [f0 y].
  cbn [fst snd] in *. subst f0 y. repeat split.
Qed.


End Extras.

(** ** Worked instances of the further properties *)

Lemma data_record_delivered_witness :
  let res := ihex_parser listening (rec_chars rec_data_0020)
                         (length (rec_chars rec_data_0020)) in
  res.1 = true
  /\ calls res.2 = [Call 0x0020 (data_of [0x55]) 1]
  /\ world res.2 = tt
  /\ state (vars res.2) = START_CODE_STATE
  /\ address_hi (vars res.2) = 0
  /\ ex_segment_addr_mode (vars res.2) = false.
Proof.
  exact (data_record_delivered listening rec_data_0020 accept_all
           eq_refl eq_refl eq_refl eq_refl eq_refl).
Defined.

Lemma refused_block_redelivered_witness :
  let x1 := (ihex_parser refusing (rec_chars rec_data_0020)
                         (length (rec_chars rec_data_0020))).2 in
  calls (ihex_parser x1 ["0"%byte] 1).2
  = [Call 0x0020 (data_of [0x55]) 1; Call 0x0020 (data_of [0x55]) 1].
Proof.
  exact (refused_block_redelivered refusing rec_data_0020 refuse_all "0"%byte
           eq_refl eq_refl eq_refl eq_refl eq_refl eq_refl eq_refl).
Defined.

Lemma record_without_delivery_witness :
  let eof := ihex_parser listening (rec_chars rec_eof) (length (rec_chars rec_eof)) in
  let data := ihex_parser fresh (rec_chars rec_data_0020)
                          (length (rec_chars rec_data_0020)) in
  (eof.1 = true /\ calls eof.2 = [] /\ world eof.2 = tt
   /\ state (vars eof.2) = START_CODE_STATE)
  /\ (data.1 = true /\ calls data.2 = [] /\ world data.2 = tt
      /\ state (vars data.2) = START_CODE_STATE).
Proof.
  split.
  - apply (record_without_delivery listening rec_eof);
      [reflexivity|reflexivity|reflexivity|reflexivity|].
    left. vm_compute. discriminate.
  - apply (record_without_delivery fresh rec_data_0020);
      [reflexivity|reflexivity|reflexivity|reflexivity|].
    right. reflexivity.
Defined.

Lemma bad_type_refused_witness :
  let res := ihex_parser fresh (rec_chars rec_bad_type ++ [CR; LF])
                         (length (rec_chars rec_bad_type ++ [CR; LF])) in
  res.1 = false
  /\ calls res.2 = [] /\ world res.2 = tt
  /\ address_hi (vars res.2) = 0
  /\ ex_segment_addr_mode (vars res.2) = false
  /\ data_size_in_nibble (vars res.2) = 0.
Proof.
  exact (bad_type_refused fresh rec_bad_type [CR; LF] eq_refl eq_refl eq_refl).
Defined.

Lemma blank_lines_skipped_witness :
  let r1 := ihex_parser listening ([CR; LF; LF] ++ rec_chars rec_data_0020)
                        (length ([CR; LF; LF] ++ rec_chars rec_data_0020)) in
  let r2 := ihex_parser listening (rec_chars rec_data_0020)
                        (length (rec_chars rec_data_0020)) in
  r1.1 = r2.1 /\ calls r1.2 = calls r2.2 /\ world r1.2 = world r2.2
  /\ state (vars r1.2) = state (vars r2.2)
  /\ address_hi (vars r1.2) = address_hi (vars r2.2)
  /\ ex_segment_addr_mode (vars r1.2) = ex_segment_addr_mode (vars r2.2).
Proof.
  exact (blank_lines_skipped listening [CR; LF; LF] (rec_chars rec_data_0020)
           eq_refl eq_refl).
Defined.

Lemma garbage_before_start_code_witness :
  let res := ihex_parser listening (text " :00000001FF") 12 in
  res.1 = false /\ calls res.2 = [] /\ world res.2 = tt
  /\ state (vars res.2) = START_CODE_STATE
  /\ address_hi (vars res.2) = 0
  /\ ex_segment_addr_mode (vars res.2) = false.
Proof.
  apply (garbage_before_start_code listening " "%byte (text ":00000001FF") 12);
    [reflexivity|reflexivity|reflexivity|discriminate|lia].
Defined.

Lemma feed_in_chunks_witness :
  let buf1 := rec_chars rec_linear_1000 ++ [CR] in
  let buf2 := LF :: rec_chars rec_data_0020 in
  let bad := rec_chars rec_bad_sum in
  ihex_parser listening (buf1 ++ buf2) (length (buf1 ++ buf2))
  = ihex_parser (ihex_parser listening buf1 (length buf1)).2 buf2 (length buf2)
  /\ ihex_parser listening (bad ++ buf2) (length (bad ++ buf2))
     = ihex_parser listening bad (length bad).
Proof.
  split.
  - apply (proj1 (feed_in_chunks listening (rec_chars rec_linear_1000 ++ [CR])
                    (LF :: rec_chars rec_data_0020) eq_refl)).
    reflexivity.
  - apply (proj2 (feed_in_chunks listening (rec_chars rec_bad_sum)
                    (LF :: rec_chars rec_data_0020) eq_refl)).
    reflexivity.
Defined.

Lemma wide_digit_acceptance_witness :
  hex_accepted "x" = true
  /\ 0 <= hexval "x" <= 35
  /\ (hexval "z" = chr "z" - chr "a" + 10 /\ 16 <= hexval "z")
  /\ ((ihex_step after_start_code (chr "g")).1 = Continue
      /\ state (vars (ihex_step after_start_code (chr "g")).2)
         = state (vars after_start_code) + 1).
Proof.
  destruct (@wide_digit_acceptance unit) as (Hset & Hmax & Hwide & Hstep).
  split; [rewrite Hset; reflexivity|].
  split; [apply Hmax; reflexivity|].
  split; [apply Hwide; reflexivity|].
  apply Hstep; [left; vm_compute; split; discriminate|reflexivity].
Defined.

Lemma letter_case_ignored_witness :
  hexval "e" = hexval "E"
  /\ ihex_parser listening (rec_chars rec_data_0020_lower)
                 (length (rec_chars rec_data_0020_lower))
     = ihex_parser listening (rec_chars rec_data_0020)
                   (length (rec_chars rec_data_0020)).
Proof.
  destruct (@letter_case_ignored unit) as [Hcase Hrun].
  split; [apply Hcase; reflexivity|].
  apply Hrun; [reflexivity|reflexivity|reflexivity|].
  unfold same_digits, same_val.
  repeat split; try reflexivity. repeat constructor.
Defined.

Lemma absolute_address_closed_form_witness :
  let linear := ihex_init (W := unit) in
  let segment := set_ex_segment_addr_mode true linear in
  (TRANSFORM_ADDR linear 0x1000 0x0020 = 65536 * 0x1000 + 0x0020
   /\ 0 <= TRANSFORM_ADDR linear 0x1000 0x0020 < 4294967296
   /\ (0x1000 = 0 -> TRANSFORM_ADDR linear 0x1000 0x0020 = 0x0020))
  /\ (TRANSFORM_ADDR segment 0xFFFF 0xFFFF = 16 * 0xFFFF + 0xFFFF
      /\ 0 <= TRANSFORM_ADDR segment 0xFFFF 0xFFFF < 4294967296
      /\ (0xFFFF = 0 -> TRANSFORM_ADDR segment 0xFFFF 0xFFFF = 0xFFFF)).
Proof.
  split.
  - apply (absolute_address_closed_form (ihex_init (W := unit)) 0x1000 0x0020); lia.
  - apply (absolute_address_closed_form
             (set_ex_segment_addr_mode true (ihex_init (W := unit))) 0xFFFF 0xFFFF);
      lia.
Defined.

Lemma extended_address_applied_witness :
  let full := rec_chars rec_segment_1000 ++ [CR; LF] ++ rec_chars rec_data_0020 in
  let empty := rec_chars rec_linear_empty ++ [CR; LF] ++ rec_chars rec_data_0020 in
  (calls (ihex_parser listening full (length full)).2
     = [] ++ [Call (16 * (256 * 0x10 + 0x00) + 0x0020) (data_of [0x55]) 1]
   /\ address_hi (vars (ihex_parser listening full (length full)).2)
      = 256 * 0x10 + 0x00
   /\ 0 <= 256 * 0x10 + 0x00 < 65536)
  /\ (calls (ihex_parser listening empty (length empty)).2
        = [] ++ [Call (65536 * (256 * 0 + 0) + 0x0020) (data_of [0x55]) 1]
      /\ address_hi (vars (ihex_parser listening empty (length empty)).2)
         = 256 * 0 + 0
      /\ 0 <= 256 * 0 + 0 < 65536).
Proof.
  split.
  - apply (extended_address_applied listening accept_all rec_segment_1000
             [CR; LF] rec_data_0020);
      [reflexivity|reflexivity|reflexivity|reflexivity|left; reflexivity
      |reflexivity|reflexivity|reflexivity|reflexivity].
  - apply (extended_address_applied listening accept_all rec_linear_empty
             [CR; LF] rec_data_0020);
      [reflexivity|reflexivity|reflexivity|reflexivity|right; reflexivity
      |reflexivity|reflexivity|reflexivity|reflexivity].
Defined.

Lemma default_arm_dead_witness :
  0 <= state (vars before_delivery) <= CHECKSUM_1_STATE
  /\ (ihex_loop before_delivery (text "A")).1 <> ReturnFalse BadState.
Proof.
  destruct (default_arm_dead before_delivery
              (reachable_loop listening (text ":01002000558")
                 (reach_set_callback _ (Some accept_all) (reach_init tt))))
    as [Hst Hrun].
  split; [exact Hst|apply Hrun].
Defined.

Lemma delivery_only_after_validation_witness :
  let x := before_delivery in
  let c := chr "A" in
  state (vars x) = CHECKSUM_1_STATE /\ record_type (vars x) = 0
  /\ Z.shiftl (byte_count (vars x)) 1 = data_size_in_nibble (vars x)
  /\ calc_cs (accumulate (HexToDec c) (vars x)) = 0
  /\ exists fp,
      callback_fp (vars x) = Some fp
      /\ let address :=
           TRANSFORM_ADDR (vars x) (address_hi (vars x)) (address_lo (vars x)) in
         let len := Z.shiftr (data_size_in_nibble (vars x)) 1 in
         let v := fp (world x) address (data (vars x)) len in
         calls (ihex_step x c).2 = calls x ++ [Call address (data (vars x)) len]
         /\ world (ihex_step x c).2 = v.2
         /\ (ihex_step x c).1 = (if v.1 then Continue else ReturnFalse CallbackRejected).
Proof.
  apply (delivery_only_after_validation before_delivery (chr "A")
           (ihex_step before_delivery (chr "A")).1
           (ihex_step before_delivery (chr "A")).2).
  - vm_compute. reflexivity.
  - left. vm_compute. discriminate.
Defined.

Lemma variables_in_range_witness :
  ranged (vars (ihex_loop listening two_records).2).
Proof.
  apply variables_in_range.
  exact (reachable_loop listening two_records
           (reach_set_callback _ (Some accept_all) (reach_init tt))).
Defined.

Lemma consumer_arguments_in_range_witness :
  Forall good_call (calls (ihex_loop listening two_records).2).
Proof.
  apply consumer_arguments_in_range.
  exact (reachable_loop listening two_records
           (reach_set_callback _ (Some accept_all) (reach_init tt))).
Defined.

Lemma separator_refused_after_failure_witness :
  let x1 := (ihex_parser listening (rec_chars rec_bad_sum)
                         (length (rec_chars rec_bad_sum))).2 in
  state (vars x1) <> START_CODE_STATE
  /\ ihex_parser x1 (":"%byte :: rec_chars rec_eof) 3 = (false, x1).
Proof.
  apply (separator_refused_after_failure listening (rec_chars rec_bad_sum) ":"%byte
           (rec_chars rec_eof) 3 ChecksumMismatch);
    [reflexivity|discriminate|left; reflexivity|lia].
Defined.

Lemma dry_run_agrees_witness :
  let real := ihex_parser listening two_records (length two_records) in
  let dry :=
    ihex_parser (Session (ihex_set_callback_func None (vars listening)) tt [])
                two_records (length two_records) in
  dry.1 = real.1
  /\ vars dry.2 = ihex_set_callback_func None (vars real.2)
  /\ world dry.2 = tt /\ calls dry.2 = [].
Proof.
  apply (dry_run_agrees listening accept_all tt [] two_records (length two_records));
    [reflexivity|intros w a d n; reflexivity].
Defined.

